(** * The Constant Contact proxy client and the contact-detail route

    A shallow embedding of [lib/constantContact.ts] (the authenticated
    request executor with its in-memory token store) and of
    [app/api/contacts/[id]/route.ts] (the contact-detail handler), with the
    properties of the specification proved about them.

    JavaScript values are an inductive type, strings are [string] (code
    units below 256), the module-level variables [accessTokenCache] and
    [refreshInFlight] are fields of an explicit state, and every [async]
    function is cut at its [await]s into the synchronous pieces that the
    event loop runs one at a time. *)

From Stdlib Require Import ZArith PrimFloat Ascii DecimalString.
From stdpp Require Import base list strings.

Set Warnings "-register-all".

(** ** JavaScript values *)

(** The values this code handles: what [JSON.parse] produces, and
    [undefined].  An object is the list of its own properties. *)
Inductive Value : Type :=
| VUndefined
| VNull
| VBool (b : bool)
| VNum (n : float)
| VStr (s : string)
| VArr (elems : list Value)
| VObj (props : list (string * Value)).

(** ToBoolean: what [if (v)], [!v], [v ? a : b], [a || b], [a && b] test. *)
Definition truthy (v : Value) : bool :=
  match v with
  | VUndefined | VNull => false
  | VBool b => b
  | VNum n => negb (PrimFloat.eqb n 0%float || PrimFloat.is_nan n)
  | VStr s => negb (String.eqb s "")
  | VArr _ | VObj _ => true
  end.

(** [a ?? b] *)
Definition nullish (v : Value) : bool :=
  match v with VUndefined | VNull => true | _ => false end.

Definition coalesce (a b : Value) : Value := if nullish a then b else a.

(** [v === undefined] *)
Definition is_undefined (v : Value) : bool :=
  match v with VUndefined => true | _ => false end.

(** [a || b] and [a && b] *)
Definition js_or (a b : Value) : Value := if truthy a then a else b.
Definition js_and (a b : Value) : Value := if truthy a then b else a.

Fixpoint own_property (props : list (string * Value)) (k : string) : Value :=
  match props with
  | [] => VUndefined
  | (k', v) :: rest => if String.eqb k' k then v else own_property rest k
  end.

(** [v.k] for the property names read in this code ([message], [error],
    [title], [error_message], [error_description], [access_token]): none of
    them is on a prototype, so a primitive or an array gives [undefined].
    The code never reads a property of [null] or [undefined]. *)
Definition get (v : Value) (k : string) : Value :=
  match v with
  | VObj props => own_property props k
  | _ => VUndefined
  end.

Definition EMPTY_OBJECT : Value := VObj [].

(** [{ ...props, [k]: v }]: the property keeps its place when the object
    has it, and comes last when not. *)
Fixpoint assign (props : list (string * Value)) (k : string) (v : Value)
  : list (string * Value) :=
  match props with
  | [] => [(k, v)]
  | (k', v') :: rest =>
      if String.eqb k' k then (k, v) :: rest else (k', v') :: assign rest k v
  end.

(** [{ ...base, ...extra }] *)
Definition spread (base extra : list (string * Value)) : list (string * Value) :=
  fold_left (fun props kv => assign props (fst kv) (snd kv)) extra base.

(** The name of the property at an index. *)
Definition index_key (i : nat) : string := NilZero.string_of_uint (Nat.to_uint i).

(** The own enumerable properties that a spread copies: those of an
    object, the elements of an array and the characters of a string under
    their indices, none for the other values. *)
Definition own_entries (v : Value) : list (string * Value) :=
  match v with
  | VObj props => props
  | VArr elems => imap (fun i e => (index_key i, e)) elems
  | VStr s =>
      imap (fun i c => (index_key i, VStr (String c EmptyString)))
        (String.list_ascii_of_string s)
  | _ => []
  end.

(** ** Strings *)

Definition code (c : ascii) : N := Ascii.N_of_ascii c.

(** White space and line terminators, as [String.prototype.trim] strips
    them (among the code units below 256). *)
Definition is_white_space (c : ascii) : bool :=
  let n := code c in
  ((9 <=? n) && (n <=? 13) || (n =? 32) || (n =? 160))%N.

Fixpoint trim_start (s : string) : string :=
  match s with
  | String c rest => if is_white_space c then trim_start rest else s
  | EmptyString => EmptyString
  end.

(** Drops trailing white space: the suffix is dropped when nothing but
    white space follows. *)
Fixpoint trim_end (s : string) : string :=
  match s with
  | EmptyString => EmptyString
  | String c rest =>
      match trim_end rest with
      | EmptyString => if is_white_space c then EmptyString else String c EmptyString
      | rest' => String c rest'
      end
  end.

Definition trim (s : string) : string := trim_end (trim_start s).

(** [s.split(",")]: always at least one piece. *)
Fixpoint split_on (sep : ascii) (s : string) : list string :=
  match s with
  | EmptyString => [EmptyString]
  | String c rest =>
      if Ascii.eqb c sep then EmptyString :: split_on sep rest
      else match split_on sep rest with
           | piece :: pieces => String c piece :: pieces
           | [] => [String c EmptyString]
           end
  end.

(** [s.includes(c)] for one character. *)
Fixpoint has_char (c : ascii) (s : string) : bool :=
  match s with
  | EmptyString => false
  | String c' rest => Ascii.eqb c' c || has_char c rest
  end.

(** [pieces.join(sep)] *)
Definition join (sep : string) (pieces : list string) : string :=
  String.concat sep pieces.

(** [s.replace(/\/$/, "")]: one slash removed, when it ends the string. *)
Fixpoint strip_trailing_slash (s : string) : string :=
  match s with
  | EmptyString => EmptyString
  | String c EmptyString => if Ascii.eqb c "/"%char then EmptyString else s
  | String c rest => String c (strip_trailing_slash rest)
  end.

(** ** The platform *)

(** A parsed URL: [new URL(s)].  [url_searchParams] is the list behind
    [url.searchParams]; the rest of the URL is kept as it was parsed. *)
Record URL : Type := mkURL {
  url_origin_path : string;
  url_searchParams : list (string * string);
  url_hash : string
}.

(** [URLSearchParams.prototype.set]: the first pair named [k] takes the
    value and the other pairs named [k] go; with no such pair, a new one is
    appended. *)
Fixpoint searchParams_set (ps : list (string * string)) (k v : string)
  : list (string * string) :=
  match ps with
  | [] => [(k, v)]
  | (k', v') :: rest =>
      if String.eqb k' k
      then (k, v) :: List.filter (fun p => negb (String.eqb (fst p) k)) rest
      else (k', v') :: searchParams_set rest k v
  end.

(** The pairs named [k]. *)
Definition named (k : string) (ps : list (string * string)) : list (string * string) :=
  List.filter (fun p => String.eqb (fst p) k) ps.

(** [URLSearchParams.prototype.get]: the first value, or [null]. *)
Fixpoint searchParams_get (ps : list (string * string)) (k : string)
  : option string :=
  match ps with
  | [] => None
  | (k', v) :: rest => if String.eqb k' k then Some v else searchParams_get rest k
  end.

(** The built-ins of the JavaScript runtime that the code calls and that
    are not part of the repository. *)
Class Platform : Type := {
  (** [Number.prototype.toString] *)
  Number_toString : float -> string;
  (** [JSON.parse]; [None] when it throws a SyntaxError *)
  JSON_parse : string -> option Value;
  (** [JSON.stringify] of a value *)
  JSON_stringify : Value -> string;
  (** [new URL(s)]; [None] when it throws a TypeError *)
  URL_parse : string -> option URL;
  (** [encodeURIComponent] *)
  encodeURIComponent : string -> string
}.

(** A status code in a template literal: its decimal digits. *)
Definition status_text (n : Z) : string := NilZero.string_of_int (Z.to_int n).

(** ** lib/constantContact.ts: data *)

Inductive Method : Type := GET | POST.

(** [FetchOpts].  [query] lists the entries of the object in the order
    [Object.entries] gives them; an absent [body] is [undefined]. *)
Record FetchOpts : Type := mkFetchOpts {
  method : option Method;
  path : string;
  query : option (list (string * Value));
  body : Value
}.

(** An [Error] object with the two properties the code adds to it. *)
Record Error : Type := mkError {
  message : string;
  status : option Z;
  details : Value
}.

(** [new Error(message)] *)
Definition new_Error (msg : string) : Error :=
  {| message := msg; status := None; details := VUndefined |}.

(** How a call, or an awaited promise, ends. *)
Inductive Outcome (A : Type) : Type :=
| Return (a : A)
| Throw (e : Error).
Arguments Return {A} a.
Arguments Throw {A} e.

Definition bind {A B : Type} (o : Outcome A) (k : A -> Outcome B) : Outcome B :=
  match o with
  | Return a => k a
  | Throw e => Throw e
  end.

Notation "'let*' x ':=' o 'in' k" := (bind o (fun x => k))
  (at level 10, x name, o at level 100, k at level 200, only parsing).

(** What [fetch] is called with. *)
Record Request : Type := mkRequest {
  req_url : URL;
  req_method : Method;
  req_headers : list (string * string);
  req_body : option string;
  req_cache : string
}.

(** The call to the token endpoint: its form is the list given to
    [new URLSearchParams]. *)
Record TokenRequest : Type := mkTokenRequest {
  tok_url : string;
  tok_method : Method;
  tok_headers : list (string * string);
  tok_form : list (string * string);
  tok_cache : string
}.

(** A response, read to its end: [res.status] and [await res.text()]. *)
Record Response : Type := mkResponse {
  res_status : Z;
  res_text : string
}.

(** [res.ok] *)
Definition res_ok (res : Response) : bool :=
  (200 <=? res_status res)%Z && (res_status res <=? 299)%Z.

(** How an awaited [fetch] and [res.text()] end: with a response, or with
    the TypeError of a network failure, which has no [status]. *)
Inductive FetchResult : Type :=
| Responded (res : Response)
| Failed (reason : string).

Definition fetched (r : FetchResult) : Outcome Response :=
  match r with
  | Responded res => Return res
  | Failed reason => Throw (new_Error reason)
  end.

(** What [ccFetchJson] returns. *)
Record Result : Type := mkResult {
  out_status : Z;
  out_data : Value
}.

(** ** lib/constantContact.ts: the state *)

(** Where a call of [ccFetchJson] waits.  The local variables [baseUrl]
    and [opts] live on in its closure. *)
Inductive Phase : Type :=
| FirstAttempt (baseUrl : string) (opts : FetchOpts)
    (** line 32: the first request is out *)
| Refreshing (baseUrl : string) (opts : FetchOpts) (p : nat) (creator : bool)
    (** line 36: inside [refreshAccessToken], awaiting promise [p]; the
        [creator] made it and waits at line 140, the others got it back
        from line 92 *)
| RetryAttempt (baseUrl : string) (opts : FetchOpts)
    (** line 37: the second request is out *)
| Finished (o : Outcome Result).

(** The two module variables, the promises made at line 94 ([None] while
    pending), the calls of [ccFetchJson], and what went out on the network:
    upstream requests by call, token requests by promise. *)
Record State : Type := mkState {
  accessTokenCache : Value;
  refreshInFlight : option nat;
  promises : list (option (Outcome Value));
  tasks : list Phase;
  upstream_sent : list (nat * Request);
  token_sent : list (nat * TokenRequest)
}.

Definition set_accessTokenCache (v : Value) (s : State) : State :=
  mkState v (refreshInFlight s) (promises s) (tasks s)
    (upstream_sent s) (token_sent s).

Definition set_refreshInFlight (slot : option nat) (s : State) : State :=
  mkState (accessTokenCache s) slot (promises s) (tasks s)
    (upstream_sent s) (token_sent s).

Definition set_promises (ps : list (option (Outcome Value))) (s : State) : State :=
  mkState (accessTokenCache s) (refreshInFlight s) ps (tasks s)
    (upstream_sent s) (token_sent s).

Definition set_tasks (ts : list Phase) (s : State) : State :=
  mkState (accessTokenCache s) (refreshInFlight s) (promises s) ts
    (upstream_sent s) (token_sent s).

Definition send_upstream (t : nat) (req : Request) (s : State) : State :=
  mkState (accessTokenCache s) (refreshInFlight s) (promises s) (tasks s)
    (upstream_sent s ++ [(t, req)]) (token_sent s).

Definition send_token (p : nat) (req : TokenRequest) (s : State) : State :=
  mkState (accessTokenCache s) (refreshInFlight s) (promises s) (tasks s)
    (upstream_sent s) (token_sent s ++ [(p, req)]).

(** What the event loop delivers.  A turn runs one synchronous piece of
    the code to its next [await].  [await fetch] and [await res.text()]
    count as one wait: nothing of the state is read or written between
    them.  So do the [await] of line 140 and that of line 36 for the call
    that made the promise: line 37, which follows, uses only that call's
    own variables, so it runs in the turn of lines 141-143. *)
Inductive Event : Type :=
| Call (opts : FetchOpts)
    (** a handler calls [ccFetchJson(opts)] *)
| UpstreamSettles (t : nat) (r : FetchResult)
    (** the request of call [t] settles *)
| TokenSettles (p : nat) (r : FetchResult)
    (** the token request of promise [p] settles *)
| Resume (t : nat)
    (** call [t] continues after the settled promise it awaits *).

(** ** app/api/contacts/[id]/route.ts *)

Module Route.
Section Handler.
Context `{Platform}.

(** Lines 4-11. *)
Definition ALLOWED_INCLUDE : list string :=
  ["custom_fields"; "list_memberships"; "phone_numbers";
   "street_addresses"; "taggings"; "notes"].

(** [ALLOWED_INCLUDE.has(v)] *)
Definition ALLOWED_INCLUDE_has (v : string) : bool :=
  existsb (String.eqb v) ALLOWED_INCLUDE.

(** Lines 75-80: [filter(Boolean)] keeps the strings that are not empty. *)
Definition parseCsv (v : string) : list string :=
  List.filter (fun piece => truthy (VStr piece))
    (List.map trim (split_on ","%char v)).

(** [[0-9a-f]] under the [i] flag. *)
Definition is_hex (c : ascii) : bool :=
  let n := code c in
  ((48 <=? n) && (n <=? 57) || (97 <=? n) && (n <=? 102)
   || (65 <=? n) && (n <=? 70))%N.

(** [[0-9a-f]{n}] at the head of [s]: what is left of [s]. *)
Fixpoint hex_run (n : nat) (s : string) : option string :=
  match n with
  | O => Some s
  | S n' =>
      match s with
      | String c rest => if is_hex c then hex_run n' rest else None
      | EmptyString => None
      end
  end.

Definition dash (s : string) : option string :=
  match s with
  | String c rest => if Ascii.eqb c "-"%char then Some rest else None
  | EmptyString => None
  end.

(** [[0-9a-f]{n1}-[0-9a-f]{n2}-...] at the head of [s]: what is left. *)
Fixpoint hex_groups (ns : list nat) (s : string) : option string :=
  match ns with
  | [] => Some s
  | [n] => hex_run n s
  | n :: ns' =>
      match hex_run n s with
      | Some rest =>
          match dash rest with
          | Some rest' => hex_groups ns' rest'
          | None => None
          end
      | None => None
      end
  end.

(** Lines 82-84: the pattern is anchored at both ends and each of its
    parts has a fixed length, so matching is one pass over the string. *)
Definition looksUuid (v : string) : bool :=
  match hex_groups [8; 4; 4; 4; 12]%nat (trim v) with
  | Some EmptyString => true
  | _ => false
  end.

(** Every character of [s] is a hexadecimal digit, in either case. *)
Fixpoint all_hex (s : string) : bool :=
  match s with
  | EmptyString => true
  | String c rest => is_hex c && all_hex rest
  end.

Definition hex_group (n : nat) (s : string) : Prop :=
  String.length s = n /\ all_hex s = true.

(** The UUID shape in words: groups of 8, 4, 4, 4 and 12 hexadecimal
    digits, joined by hyphens. *)
Definition uuid_shape (s : string) : Prop :=
  exists a b c d e,
    s = a +:+ "-" +:+ b +:+ "-" +:+ c +:+ "-" +:+ d +:+ "-" +:+ e
    /\ hex_group 8 a /\ hex_group 4 b /\ hex_group 4 c /\ hex_group 4 d
    /\ hex_group 12 e.

(** [NextResponse.json(body, { status })] *)
Record HttpResponse : Type := mkHttpResponse {
  http_status : Z;
  http_body : Value
}.

(** Where the handler is after lines 17-60: it has answered, or it has
    called [ccFetchJson] and awaits it. *)
Inductive Handled : Type :=
| Answered (r : HttpResponse)
| Upstream (opts : FetchOpts).

Definition bad_request (msg : string) : Handled :=
  Answered (mkHttpResponse 400 (VObj [("error", VStr msg)])).

(** Lines 28-54: on the left the early return, on the right the value of
    the variable [include] at line 56 ([undefined] as [None]). *)
Definition checked_include (includeRaw : option string)
  : Handled + option string :=
  match includeRaw with
  | None => inr None
  | Some raw =>
      let values := parseCsv raw in
      if (length values =? 0)%nat then
        inl (bad_request
               "Bad request: include cannot be empty. Example: include=phone_numbers,street_addresses")
      else
        match List.find (fun v => negb (ALLOWED_INCLUDE_has v)) values with
        | Some v =>
            inl (bad_request
                   ("Bad request: invalid include " +:+ String "034"%char v
                    +:+ String "034"%char "."))
        | None => inr (Some (join "," values))
        end
  end.

(** Lines 17-60 of [GET], for the path parameter [id] and the search
    parameters of [req.url]. *)
Definition GET (id : string) (searchParams : list (string * string)) : Handled :=
  if negb (looksUuid id) then
    bad_request "Bad request: contact_id must be a UUID."
  else
    match checked_include (searchParams_get searchParams "include") with
    | inl answered => answered
    | inr include =>
        Upstream
          {| method := None;
             path := "/contacts/" +:+ encodeURIComponent id;
             query :=
               match include with
               | Some i => if truthy (VStr i) then Some [("include", VStr i)] else None
               | None => None
               end;
             body := VUndefined |}
    end.

(** A value as [parseCsv] gives them: not empty, with no white space
    around it and no comma in it. *)
Definition csv_value (v : string) : Prop :=
  v <> "" /\ trim v = v /\ has_char ","%char v = false.

(** [NextResponse.json(body, { status })]: the response, or what it
    throws for a status that a response with a body cannot have. *)
Variable NextResponse_json : Value -> Z -> Outcome HttpResponse.

(** The body of the answer to an error, lines 66-67. *)
Definition error_body (e : Error) : Value :=
  VObj [("error", coalesce (VStr (message e)) (VStr "Unknown error"));
        ("details", coalesce (details e) VNull)].

(** Lines 57-70 of [GET]: the call of [ccFetchJson] has ended.  What it
    returned is passed on with its status; what it threw, or what
    [NextResponse.json] threw at line 63, is answered from the [catch]
    with the status of the error, 500 when it has none. *)
Definition GET_settled (o : Outcome Result) : Outcome HttpResponse :=
  match bind o (fun r => NextResponse_json (out_data r) (out_status r)) with
  | Return answer => Return answer
  | Throw e => NextResponse_json (error_body e) (default 500%Z (status e))
  end.

End Handler.
End Route.

(** ** app/contacts/new/page.tsx *)

Module NewContact.
Section Page.
Context `{Platform}.

(** [Number(s)] for a string [s]. *)
Variable Number_of_string : string -> float.

(** What [formData.get(name)] gives: a string, a file, or [null]. *)
Inductive FormValue : Type :=
| FieldText (s : string)
| FieldFile
| FieldNull.

(** Lines 423-425. *)
Definition str (v : FormValue) : string :=
  match v with
  | FieldText s => trim s
  | _ => ""
  end.

(** Lines 427-432. *)
Definition numOrUndef (v : FormValue) : Value :=
  let s := match v with FieldText s => trim s | _ => "" end in
  if negb (truthy (VStr s)) then VUndefined
  else
    let n := Number_of_string s in
    if PrimFloat.is_finite n then VNum n else VUndefined.

(** Lines 434-440. *)
Definition parseCommaSeparated (raw : string) : list string :=
  if negb (truthy (VStr raw)) || negb (truthy (VStr (trim raw))) then []
  else
    List.filter (fun piece => truthy (VStr piece))
      (List.map trim (split_on ","%char raw)).

(** The test of lines 456-461: an object or an array is kept when it has
    a key, any other item is kept. *)
Definition kept (item : Value) : bool :=
  match item with
  | VObj props => (0 <? length props)%nat
  | VArr elems => (0 <? length elems)%nat
  | _ => true
  end.

(** Lines 442-463. *)
Definition parseJsonArrayOrUndef (raw fieldName : string) : Outcome Value :=
  let val := trim (if truthy (VStr raw) then raw else "") in
  if negb (truthy (VStr val)) || String.eqb val "[]" || String.eqb val "[{}]"
  then Return VUndefined
  else
    match JSON_parse val with
    | None => Throw (new_Error (fieldName +:+ " must be valid JSON."))
    | Some (VArr items) =>
        let filtered := List.filter kept items in
        if (0 <? length filtered)%nat then Return (VArr filtered)
        else Return VUndefined
    | Some _ =>
        Throw (new_Error (fieldName +:+ " must be a JSON array (e.g. [])."))
    end.

(** [v?.length] is truthy: [v] is an array or a string that is not
    empty; [undefined] and [null] have no length. *)
Definition has_length (v : Value) : bool :=
  match v with
  | VArr elems => (0 <? length elems)%nat
  | VStr s => negb (String.eqb s "")
  | VObj props => truthy (own_property props "length")
  | _ => false
  end.

(** [v.length === 0] *)
Definition length_is_zero (v : Value) : bool :=
  match v with
  | VArr elems => (length elems =? 0)%nat
  | VStr s => String.eqb s ""
  | _ => false
  end.

(** [s || undefined] for a string. *)
Definition or_undefined (s : string) : Value := js_or (VStr s) VUndefined.

(** Lines 115-148: the payload, as the object that [JSON.stringify]
    gets; it leaves out the properties that are [undefined]. *)
Definition handleSubmit_payload
    (createSource first last jobTitle companyName : string)
    (birthdayMonth birthdayDay anniversary : Value)
    (custom_fields phone_numbers street_addresses notes : Value)
    (listMemberships taggings : list string)
    (email permissionToSend : string)
    (hasAnySms : bool) (smsFullAddress : string) (sms_channel_consents : Value)
  : Value :=
  let payload :=
    [("create_source", VStr createSource);
     ("first_name", or_undefined first);
     ("last_name", or_undefined last);
     ("job_title", or_undefined jobTitle);
     ("company_name", or_undefined companyName);
     ("birthday_month", coalesce birthdayMonth VUndefined);
     ("birthday_day", coalesce birthdayDay VUndefined);
     ("anniversary", anniversary);
     ("custom_fields", if has_length custom_fields then custom_fields else VUndefined);
     ("phone_numbers", if has_length phone_numbers then phone_numbers else VUndefined);
     ("street_addresses",
        if has_length street_addresses then street_addresses else VUndefined);
     ("notes", if has_length notes then notes else VUndefined);
     ("list_memberships",
        if (0 <? length listMemberships)%nat then VArr (List.map VStr listMemberships)
        else VUndefined);
     ("taggings",
        if (0 <? length taggings)%nat then VArr (List.map VStr taggings)
        else VUndefined)] in
  let payload :=
    if truthy (VStr email)
    then assign payload "email_address"
           (VObj [("address", VStr email);
                  ("permission_to_send", VStr permissionToSend)])
    else payload in
  let payload :=
    if hasAnySms
    then assign payload "sms_channel"
           (VObj (spread
                    (spread []
                       (if truthy (VStr smsFullAddress)
                        then [("sms_address", VStr smsFullAddress)] else []))
                    (if has_length sms_channel_consents
                     then [("sms_channel_consents", sms_channel_consents)]
                     else [])))
    else payload in
  VObj payload.

(** Lines 22-148 of [handleSubmit]: the form is read and checked.  On
    the left the message that [setError] gets before the early return, on
    the right the payload that is sent. *)
Definition handleSubmit_check (formData : string -> FormValue) : Value + Value :=
  let email := str (formData "email") in
  let permissionToSend :=
    let p := str (formData "permission_to_send") in
    if truthy (VStr p) then p else "implicit" in
  let first := str (formData "first_name") in
  let last := str (formData "last_name") in
  let jobTitle := str (formData "job_title") in
  let companyName := str (formData "company_name") in
  let createSource :=
    let c := str (formData "create_source") in
    if truthy (VStr c) then c else "Account" in
  let birthdayMonth := numOrUndef (formData "birthday_month") in
  let birthdayDay := numOrUndef (formData "birthday_day") in
  let anniversary := or_undefined (str (formData "anniversary")) in
  let smsFullAddress := str (formData "sms_full_address") in
  let smsConsentsRaw := str (formData "sms_channel_consents") in
  let listMembershipsRaw := str (formData "list_memberships") in
  let taggingsRaw := str (formData "taggings") in
  let customFieldsRaw := str (formData "custom_fields") in
  let phoneNumbersRaw := str (formData "phone_numbers") in
  let streetAddressesRaw := str (formData "street_addresses") in
  let notesRaw := str (formData "notes") in
  let hasAnySms :=
    truthy (VStr smsFullAddress)
    || (truthy (VStr smsConsentsRaw)
        && negb (String.eqb (trim smsConsentsRaw) "")
        && negb (String.eqb (trim smsConsentsRaw) "[]")) in
  if negb (truthy (VStr first)) && negb (truthy (VStr last))
     && negb (truthy (VStr email)) && negb hasAnySms
  then inl (VStr "At least one of First name, Last name, Email address, or SMS channel is required.")
  else if truthy (VStr email) && negb (String.eqb permissionToSend "explicit")
  then inl (VStr "If an Email Address is provided, Permission to send must be set to 'explicit' (per Constant Contact requirements).")
  else if (truthy birthdayMonth && negb (truthy birthdayDay))
          || (negb (truthy birthdayMonth) && truthy birthdayDay)
  then inl (VStr "Birthday month and birthday day must be provided together.")
  else
    let listMemberships := parseCommaSeparated listMembershipsRaw in
    let taggings := parseCommaSeparated taggingsRaw in
    match
      (let* custom_fields := parseJsonArrayOrUndef customFieldsRaw "custom_fields" in
       let* phone_numbers := parseJsonArrayOrUndef phoneNumbersRaw "phone_numbers" in
       let* street_addresses :=
         parseJsonArrayOrUndef streetAddressesRaw "street_addresses" in
       let* notes := parseJsonArrayOrUndef notesRaw "notes" in
       let* sms_channel_consents :=
         parseJsonArrayOrUndef smsConsentsRaw "sms_channel_consents" in
       Return (custom_fields, phone_numbers, street_addresses, notes,
               sms_channel_consents))
    with
    | Throw err =>
        inl (js_or (VStr (message err))
               (VStr "Invalid JSON in one of the JSON fields."))
    | Return (custom_fields, phone_numbers, street_addresses, notes,
              sms_channel_consents) =>
        if hasAnySms
           && (negb (truthy sms_channel_consents)
               || length_is_zero sms_channel_consents)
        then inl (VStr "If SMS fields are provided, SMS channel consents must be a non-empty JSON array (per Constant Contact requirements).")
        else
          inr (handleSubmit_payload createSource first last jobTitle companyName
                 birthdayMonth birthdayDay anniversary
                 custom_fields phone_numbers street_addresses notes
                 listMemberships taggings email permissionToSend
                 hasAnySms smsFullAddress sms_channel_consents)
    end.

(** The values that the payload is to leave out: the empty string, the
    empty array, the empty object and [null]. *)
Definition is_empty_value (v : Value) : bool :=
  match v with
  | VNull | VStr EmptyString | VArr [] | VObj [] => true
  | _ => false
  end.

(** What the checks of [handleSubmit] are there to ensure of a payload. *)
Record payload_checked (payload : Value) : Prop := {
  (** one of the four identifying properties is there *)
  payload_identified :
    truthy (get payload "first_name") || truthy (get payload "last_name")
    || truthy (get payload "email_address") || truthy (get payload "sms_channel")
    = true;
  (** an email address comes with the permission [explicit] *)
  payload_email :
    get payload "email_address" = VUndefined
    \/ exists address,
         get payload "email_address"
         = VObj [("address", VStr address);
                 ("permission_to_send", VStr "explicit")]
         /\ address <> "" /\ trim address = address;
  (** an SMS channel comes with consents *)
  payload_sms :
    get payload "sms_channel" = VUndefined
    \/ exists consents,
         get (get payload "sms_channel") "sms_channel_consents" = VArr consents
         /\ consents <> [];
  (** the month and the day of the birthday are truthy together *)
  payload_birthday :
    truthy (get payload "birthday_month") = truthy (get payload "birthday_day");
  (** the source is there *)
  payload_source :
    exists source, get payload "create_source" = VStr source /\ source <> "";
  (** no property is empty *)
  payload_no_empties :
    forall props k v,
      payload = VObj props -> (k, v) ∈ props -> is_empty_value v = false
}.

(** The state of the page that [handleSubmit] writes, and the paths it
    has sent the router to. *)
Record Page : Type := mkPage {
  loading : bool;
  error : Value;
  errorDetails : Value;
  pushed : list string
}.

Definition setLoading (b : bool) (pg : Page) : Page :=
  mkPage b (error pg) (errorDetails pg) (pushed pg).

Definition setError (v : Value) (pg : Page) : Page :=
  mkPage (loading pg) v (errorDetails pg) (pushed pg).

Definition setErrorDetails (v : Value) (pg : Page) : Page :=
  mkPage (loading pg) (error pg) v (pushed pg).

Definition router_push (target : string) (pg : Page) : Page :=
  mkPage (loading pg) (error pg) (errorDetails pg) (pushed pg ++ [target]).

(** Lines 16-155: [handleSubmit] up to its [await].  The payload is what
    goes, serialized, in the body of the [POST] to [/api/contacts]; there
    is none when the form is refused. *)
Definition handleSubmit_enter (formData : string -> FormValue) (pg : Page)
  : Page * option Value :=
  let pg := setErrorDetails VNull (setError VNull (setLoading true pg)) in
  match handleSubmit_check formData with
  | inl msg => (setError msg (setLoading false pg), None)
  | inr payload => (pg, Some payload)
  end.

(** Lines 157-178: the request has settled.  [res.json()] is caught, so a
    body that is no JSON is [null]. *)
Definition handleSubmit_settled (r : FetchResult) (pg : Page) : Page :=
  match r with
  | Failed reason =>
      setLoading false
        (setError (js_or (VStr reason) (VStr "Something went wrong")) pg)
  | Responded res =>
      let json := default VNull (JSON_parse (res_text res)) in
      if negb (res_ok res) then
        if (res_status res =? 409)%Z then
          setLoading false
            (setError
               (js_or
                  (VStr "That contact already exists (Conflict 409). Try a different email address.")
                  (VStr "Something went wrong"))
               pg)
        else
          let errorMsg :=
            js_or (get json "error")
              (VStr ("Failed to create contact ("
                     +:+ status_text (res_status res) +:+ ")")) in
          let pg := setError errorMsg pg in
          let pg :=
            if truthy (get json "details")
            then setErrorDetails (get json "details") pg else pg in
          setLoading false (setLoading false pg)
      else setLoading false (router_push "/" pg)
  end.

(** [handleSubmit] from its start to its end, [r] being how the request
    settles when one is sent. *)
Definition handleSubmit (formData : string -> FormValue) (r : FetchResult)
    (pg : Page) : Page :=
  match handleSubmit_enter formData pg with
  | (pg1, Some _) => handleSubmit_settled r pg1
  | (pg1, None) => pg1
  end.

End Page.
End NewContact.

(** ** A platform to run the definitions on *)

Definition dq : string := String "034"%char EmptyString.

Definition demo_texts : list (string * Value) :=
  [ ("null", VNull);
    ("{}", VObj []);
    ("{" +:+ dq +:+ "access_token" +:+ dq +:+ ":" +:+ dq +:+ "T2" +:+ dq +:+ "}",
       VObj [("access_token", VStr "T2")]);
    ("{" +:+ dq +:+ "access_token" +:+ dq +:+ ":" +:+ dq +:+ dq +:+ "}",
       VObj [("access_token", VStr "")]);
    ("{" +:+ dq +:+ "contacts" +:+ dq +:+ ":[]}",
       VObj [("contacts", VArr [])]);
    ("{" +:+ dq +:+ "error" +:+ dq +:+ ":" +:+ dq +:+ "invalid_grant" +:+ dq +:+ "}",
       VObj [("error", VStr "invalid_grant")]) ].

Fixpoint demo_lookup {A} (tbl : list (string * A)) (k : string) : option A :=
  match tbl with
  | [] => None
  | (k', v) :: rest => if String.eqb k' k then Some v else demo_lookup rest k
  end.

(** [encodeURIComponent] on code units below 128: the unreserved
    characters stay, the others become [%XX]. *)
Definition hex_digit (n : N) : ascii :=
  Ascii.ascii_of_N (if (n <? 10)%N then 48 + n else 55 + n)%N.

Definition is_unreserved (c : ascii) : bool :=
  let n := code c in
  ((48 <=? n) && (n <=? 57) || (65 <=? n) && (n <=? 90)
   || (97 <=? n) && (n <=? 122)
   || existsb (N.eqb n) [45; 95; 46; 33; 126; 42; 39; 40; 41])%N.

Fixpoint demo_encodeURIComponent (s : string) : string :=
  match s with
  | EmptyString => EmptyString
  | String c rest =>
      if is_unreserved c then String c (demo_encodeURIComponent rest)
      else String "%"%char
             (String (hex_digit (code c / 16))
                (String (hex_digit (code c mod 16))
                   (demo_encodeURIComponent rest)))
  end.

(** [new URL] on an absolute URL of plain characters: the fragment after
    the first [#], the query after the first [?], its pairs between [&],
    name and value around the first [=]. *)
Fixpoint split_first (sep : ascii) (s : string) : string * option string :=
  match s with
  | EmptyString => (EmptyString, None)
  | String c rest =>
      if Ascii.eqb c sep then (EmptyString, Some rest)
      else let found := split_first sep rest in
           (String c (fst found), snd found)
  end.

Definition demo_URL_parse (s : string) : option URL :=
  let before_hash := split_first "#"%char s in
  let before_query := split_first "?"%char (fst before_hash) in
  Some
    (mkURL (fst before_query)
       (match snd before_query with
        | Some search =>
            List.map
              (fun pair =>
                 let found := split_first "="%char pair in
                 (fst found, default "" (snd found)))
              (List.filter (fun pair => negb (String.eqb pair ""))
                 (split_on "&"%char search))
        | None => []
        end)
       (match snd before_hash with
        | Some fragment => "#" +:+ fragment
        | None => ""
        end)).

(** [JSON.parse] on the texts of the runs below, [new URL] and
    [encodeURIComponent] on plain characters; no run below prints a number
    or serializes a body. *)
Definition demo_platform : Platform := {|
  Number_toString := fun _ => "NaN";
  JSON_parse := demo_lookup demo_texts;
  JSON_stringify := fun _ => "null";
  URL_parse := demo_URL_parse;
  encodeURIComponent := demo_encodeURIComponent
|}.

Definition demo_env (name : string) : option string :=
  demo_lookup
    [("CC_BASE_URL", "https://api.cc.email/v3/");
     ("CC_ACCESS_TOKEN", "T1");
     ("CC_CLIENT_ID", "client");
     ("CC_REFRESH_TOKEN", "R1")] name.

(** The call, the requests and the states of a run with two calls:
    both sent with the token [T1], both answered 401. *)
Definition demo_base : string := "https://api.cc.email/v3/".

Definition demo_opts : FetchOpts :=
  mkFetchOpts None "/contacts" (Some [("limit", VStr "10")]) VUndefined.

Definition demo_request (token : string) : Request :=
  {| req_url := mkURL "https://api.cc.email/v3/contacts" [("limit", "10")] "";
     req_method := GET;
     req_headers :=
       [("Authorization", "Bearer " +:+ token); ("Accept", "application/json")];
     req_body := None;
     req_cache := "no-store" |}.

Definition demo_token_request : TokenRequest :=
  {| tok_url := "https://authz.constantcontact.com/oauth2/default/v1/token";
     tok_method := POST;
     tok_headers :=
       [("Content-Type", "application/x-www-form-urlencoded");
        ("Accept", "application/json")];
     tok_form :=
       [("grant_type", "refresh_token");
        ("refresh_token", "R1");
        ("client_id", "client")];
     tok_cache := "no-store" |}.

Definition demo_first : State :=
  {| accessTokenCache := VStr "T1";
     refreshInFlight := None;
     promises := [];
     tasks := [FirstAttempt demo_base demo_opts; FirstAttempt demo_base demo_opts];
     upstream_sent := [(0, demo_request "T1"); (1, demo_request "T1")];
     token_sent := [] |}.

Definition demo_pending : State :=
  {| accessTokenCache := VStr "T1";
     refreshInFlight := Some 0;
     promises := [None];
     tasks := [Refreshing demo_base demo_opts 0 true;
               Refreshing demo_base demo_opts 0 false];
     upstream_sent := [(0, demo_request "T1"); (1, demo_request "T1")];
     token_sent := [(0, demo_token_request)] |}.

Definition unauthorized : Response := mkResponse 401 "".

Definition demo_burst : list (nat * Response) :=
  [(0, unauthorized); (1, unauthorized)].

Definition token_T2 : string :=
  "{" +:+ dq +:+ "access_token" +:+ dq +:+ ":" +:+ dq +:+ "T2" +:+ dq +:+ "}".

Definition token_empty : string :=
  "{" +:+ dq +:+ "access_token" +:+ dq +:+ ":" +:+ dq +:+ dq +:+ "}".

Definition invalid_grant : string :=
  "{" +:+ dq +:+ "error" +:+ dq +:+ ":" +:+ dq +:+ "invalid_grant" +:+ dq +:+ "}".

Definition no_contacts : string := "{" +:+ dq +:+ "contacts" +:+ dq +:+ ":[]}".

(** One call, sent with the token [T1]. *)
Definition demo_one_call : State :=
  {| accessTokenCache := VStr "T1";
     refreshInFlight := None;
     promises := [];
     tasks := [FirstAttempt demo_base demo_opts];
     upstream_sent := [(0, demo_request "T1")];
     token_sent := [] |}.

(** A call with a body that is [false] and with a parameter that the
    path has too; and a contact identifier. *)
Definition demo_opts_false : FetchOpts :=
  mkFetchOpts (Some POST) "/contacts?limit=5" (Some [("limit", VStr "10")])
    (VBool false).

Definition demo_id : string := "123e4567-e89b-12d3-a456-426614174000".

(** The same identifier after a space. *)
Definition demo_padded_id : string := " 123e4567-e89b-12d3-a456-426614174000".

(** An environment without the refresh token. *)
Definition demo_env_no_refresh (name : string) : option string :=
  demo_lookup
    [("CC_BASE_URL", "https://api.cc.email/v3/");
     ("CC_ACCESS_TOKEN", "T1");
     ("CC_CLIENT_ID", "client")] name.

(** The state after the first of the two calls is answered 401, and the
    state at the end of a run in which one call is answered 401, the
    refresh returns [T2] and the second request is answered 200. *)
Definition demo_created : State :=
  {| accessTokenCache := VStr "T1";
     refreshInFlight := Some 0;
     promises := [None];
     tasks := [Refreshing demo_base demo_opts 0 true;
               FirstAttempt demo_base demo_opts];
     upstream_sent := [(0, demo_request "T1"); (1, demo_request "T1")];
     token_sent := [(0, demo_token_request)] |}.

Definition demo_done : State :=
  {| accessTokenCache := VStr "T2";
     refreshInFlight := None;
     promises := [Some (Return (VStr "T2"))];
     tasks := [Finished
                 (Return {| out_status := 200;
                            out_data := VObj [("contacts", VArr [])] |})];
     upstream_sent := [(0, demo_request "T1"); (0, demo_request "T2")];
     token_sent := [(0, demo_token_request)] |}.

(** An environment without the access token. *)
Definition demo_env_no_token (name : string) : option string :=
  demo_lookup
    [("CC_BASE_URL", "https://api.cc.email/v3/");
     ("CC_CLIENT_ID", "client");
     ("CC_REFRESH_TOKEN", "R1")] name.

(** [NextResponse.json] as the Fetch standard has it: a status from 200
    to 599 that is not one of the statuses without a body. *)
Definition demo_NextResponse_json (body : Value) (status : Z)
  : Outcome Route.HttpResponse :=
  if ((200 <=? status) && (status <=? 599)
      && negb (existsb (Z.eqb status) [204; 205; 304]))%Z
  then Return (Route.mkHttpResponse status body)
  else Throw (new_Error "Invalid response status code").

(** A form with a first name only, [Number] for the run below, which
    reads no number, and the second argument of a call of [api]. *)
Definition demo_form (name : string) : NewContact.FormValue :=
  if String.eqb name "first_name" then NewContact.FieldText " Ada "
  else NewContact.FieldNull.

Definition demo_Number_of_string (s : string) : float := 0%float.

Definition demo_init : list (string * Value) :=
  [("method", VStr "POST"); ("headers", VObj [("X-Trace", VStr "1")])].

(** ** lib/constantContact.ts: the synchronous pieces *)

Section ConstantContact.
Context `{Platform}.

(** [process.env], fixed for the life of the process. *)
Variable process_env : string -> option string.

(** ToString, behind [String(v)], a template literal and [new Error(v)]. *)
Fixpoint ToString (v : Value) : string :=
  match v with
  | VUndefined => "undefined"
  | VNull => "null"
  | VBool true => "true"
  | VBool false => "false"
  | VNum n => Number_toString n
  | VStr s => s
  | VArr elems =>
      join "," (List.map (fun e => if nullish e then "" else ToString e) elems)
  | VObj _ => "[object Object]"
  end.


(** [process.env[name]] as a value. *)
Definition env_value (name : string) : Value :=
  match process_env name with
  | Some v => VStr v
  | None => VUndefined
  end.

(** Lines 15-19. *)
Definition requireEnv (name : string) : Outcome string :=
  match process_env name with
  | Some v =>
      if truthy (VStr v) then Return v
      else Throw (new_Error ("Missing environment variable: " +:+ name))
  | None => Throw (new_Error ("Missing environment variable: " +:+ name))
  end.

(** Lines 146-152. *)
Definition safeJson (text : string) : Value :=
  match JSON_parse text with
  | Some v => v
  | None => VNull
  end.

(** [text ? safeJson(text) : null], lines 75 and 113. *)
Definition parsed (text : string) : Value :=
  if truthy (VStr text) then safeJson text else VNull.

(** Lines 58-60: one turn of the loop over [Object.entries(opts.query)]. *)
Definition set_query_entry (ps : list (string * string)) (kv : string * Value)
  : list (string * string) :=
  if negb (is_undefined (snd kv))
  then searchParams_set ps (fst kv) (ToString (snd kv))
  else ps.

(** Lines 55-72: the URL and the argument of [fetch].  [new URL] throws on
    a string that is no URL. *)
Definition ccFetchJsonWithToken_request
    (baseUrl : string) (token : Value) (opts : FetchOpts) : Outcome Request :=
  match URL_parse (strip_trailing_slash baseUrl +:+ path opts) with
  | None => Throw (new_Error "Invalid URL")
  | Some url =>
      let params :=
        match query opts with
        | Some entries => fold_left set_query_entry entries (url_searchParams url)
        | None => url_searchParams url
        end in
      Return
        {| req_url := mkURL (url_origin_path url) params (url_hash url);
           req_method := default GET (method opts);
           req_headers :=
             [("Authorization", "Bearer " +:+ ToString token);
              ("Accept", "application/json")]
             ++ (if truthy (body opts)
                 then [("Content-Type", "application/json")] else []);
           req_body :=
             if truthy (body opts) then Some (JSON_stringify (body opts))
             else None;
           req_cache := "no-store" |}
  end.

(** Lines 74-88: what the call makes of the response. *)
Definition ccFetchJsonWithToken_response (res : Response) : Outcome Result :=
  let text := res_text res in
  let data := parsed text in
  if negb (res_ok res) then
    let message :=
      js_or
        (js_and data
           (js_or (js_or (js_or (get data "message") (get data "error"))
                     (get data "title"))
              (get data "error_message")))
        (VStr ("Constant Contact API error (" +:+ status_text (res_status res) +:+ ")")) in
    Throw {| message := ToString message;
             status := Some (res_status res);
             details := coalesce data (VStr text) |}
  else Return {| out_status := res_status res;
                 out_data := coalesce data EMPTY_OBJECT |}.

(** Lines 95-110: the two configuration reads and the argument of [fetch]. *)
Definition refresh_request : Outcome TokenRequest :=
  let* clientId := requireEnv "CC_CLIENT_ID" in
  let* refreshToken := requireEnv "CC_REFRESH_TOKEN" in
  Return
    {| tok_url := "https://authz.constantcontact.com/oauth2/default/v1/token";
       tok_method := POST;
       tok_headers :=
         [("Content-Type", "application/x-www-form-urlencoded");
          ("Accept", "application/json")];
       tok_form :=
         [("grant_type", "refresh_token");
          ("refresh_token", refreshToken);
          ("client_id", clientId)];
       tok_cache := "no-store" |}.

(** Lines 43-52.  The assignment of line 46 stays, also when line 49
    throws. *)
Definition getAccessToken (s : State) : State * Outcome Value :=
  let s1 :=
    if negb (truthy (accessTokenCache s))
    then set_accessTokenCache (coalesce (env_value "CC_ACCESS_TOKEN") VNull) s
    else s in
  if negb (truthy (accessTokenCache s1))
  then (s1, Throw (new_Error "Missing environment variable: CC_ACCESS_TOKEN"))
  else (s1, Return (accessTokenCache s1)).

(** Lines 112-136: the rest of the function of line 94, once the token
    endpoint has answered. *)
Definition refresh_response (res : Response) (s : State) : State * Outcome Value :=
  let text := res_text res in
  let json := parsed text in
  if negb (res_ok res) then
    let message :=
      js_or
        (js_and json
           (js_or (js_or (get json "error_description") (get json "error"))
              (get json "message")))
        (VStr ("Failed to refresh Constant Contact token ("
               +:+ status_text (res_status res) +:+ ")")) in
    (s, Throw {| message := ToString message;
                 status := Some (res_status res);
                 details := coalesce json (VStr text) |})
  else
    let tokenResp := coalesce json EMPTY_OBJECT in
    if negb (truthy (get tokenResp "access_token")) then
      (s, Throw (new_Error
                   "Token refresh succeeded but no access_token was returned."))
    else
      let s1 := set_accessTokenCache (get tokenResp "access_token") s in
      (s1, Return (accessTokenCache s1)).

(** The function of line 94 after its [await]s, on either end of the
    exchange. *)
Definition refresh_settle (r : FetchResult) (s : State) : State * Outcome Value :=
  match r with
  | Responded res => refresh_response res s
  | Failed reason => (s, Throw (new_Error reason))
  end.

(** Lines 92-94 and 137-140: [refreshAccessToken] up to its [await].  With
    a promise in [refreshInFlight] that promise is returned.  Otherwise the
    function of line 94 runs to its first [await]: a promise is made,
    rejected at once when the configuration is missing and pending on the
    token request otherwise, and it is stored in [refreshInFlight].  The
    result is the promise awaited and whether this call made it. *)
Definition refreshAccessToken_enter (s : State) : State * (nat * bool) :=
  match refreshInFlight s with
  | Some p => (s, (p, false))
  | None =>
      let p := length (promises s) in
      let s1 :=
        match refresh_request with
        | Return req => send_token p req (set_promises (promises s ++ [None]) s)
        | Throw e => set_promises (promises s ++ [Some (Throw e)]) s
        end in
      (set_refreshInFlight (Some p) s1, (p, true))
  end.

(** Lines 141-143: the [finally] of the call that made the promise. *)
Definition refreshAccessToken_finally (creator : bool) (s : State) : State :=
  if creator then set_refreshInFlight None s else s.

(** [e?.status === n] *)
Definition status_is (e : Error) (n : Z) : bool :=
  match status e with
  | Some m => (m =? n)%Z
  | None => false
  end.

(** A request goes out for call [t], which then waits in [next]; or
    building the request throws and the call ends. *)
Definition attempt (t : nat) (baseUrl : string) (token : Value) (opts : FetchOpts)
    (next : Phase) (s : State) : State * Phase :=
  match ccFetchJsonWithToken_request baseUrl token opts with
  | Return req => (send_upstream t req s, next)
  | Throw e => (s, Finished (Throw e))
  end.

(** Lines 28-32: [ccFetchJson] up to its first [await], for the new call
    [t]. *)
Definition ccFetchJson_enter (t : nat) (opts : FetchOpts) (s : State) : State * Phase :=
  match requireEnv "CC_BASE_URL" with
  | Throw e => (s, Finished (Throw e))
  | Return baseUrl =>
      match getAccessToken s with
      | (s1, Throw e) => (s1, Finished (Throw e))
      | (s1, Return token) =>
          attempt t baseUrl token opts (FirstAttempt baseUrl opts) s1
      end
  end.

(** Lines 32-39: the first request has settled.  A result is returned; on
    an error with status 401 [refreshAccessToken] is entered; any other
    error is thrown on. *)
Definition ccFetchJson_first (baseUrl : string) (opts : FetchOpts)
    (r : FetchResult) (s : State) : State * Phase :=
  match bind (fetched r) ccFetchJsonWithToken_response with
  | Return out => (s, Finished (Return out))
  | Throw e =>
      if status_is e 401 then
        let '(s1, (p, creator)) := refreshAccessToken_enter s in
        (s1, Refreshing baseUrl opts p creator)
      else (s, Finished (Throw e))
  end.

(** Lines 36-37 and 140-143: the awaited promise has settled.  The call
    that made it clears [refreshInFlight]; then a rejection is thrown on,
    and a token goes into the second request. *)
Definition ccFetchJson_refreshed (t : nat) (baseUrl : string) (opts : FetchOpts)
    (creator : bool) (o : Outcome Value) (s : State) : State * Phase :=
  let s1 := refreshAccessToken_finally creator s in
  match o with
  | Throw e => (s1, Finished (Throw e))
  | Return newToken =>
      attempt t baseUrl newToken opts (RetryAttempt baseUrl opts) s1
  end.

(** Line 37: the second request has settled; its outcome is the call's. *)
Definition ccFetchJson_second (r : FetchResult) (s : State) : State * Phase :=
  (s, Finished (bind (fetched r) ccFetchJsonWithToken_response)).

Definition add_task (sp : State * Phase) : State :=
  set_tasks (tasks (fst sp) ++ [snd sp]) (fst sp).

Definition set_task (t : nat) (sp : State * Phase) : State :=
  set_tasks (<[t := snd sp]> (tasks (fst sp))) (fst sp).

(** One turn of the event loop; [None] for an event that cannot happen in
    this state. *)
Definition step (s : State) (ev : Event) : option State :=
  match ev with
  | Call opts => Some (add_task (ccFetchJson_enter (length (tasks s)) opts s))
  | UpstreamSettles t r =>
      match tasks s !! t with
      | Some (FirstAttempt baseUrl opts) =>
          Some (set_task t (ccFetchJson_first baseUrl opts r s))
      | Some (RetryAttempt baseUrl opts) =>
          Some (set_task t (ccFetchJson_second r s))
      | _ => None
      end
  | TokenSettles p r =>
      match promises s !! p with
      | Some None =>
          let '(s1, o) := refresh_settle r s in
          Some (set_promises (<[p := Some o]> (promises s1)) s1)
      | _ => None
      end
  | Resume t =>
      match tasks s !! t with
      | Some (Refreshing baseUrl opts p creator) =>
          match promises s !! p with
          | Some (Some o) =>
              Some (set_task t (ccFetchJson_refreshed t baseUrl opts creator o s))
          | _ => None
          end
      | _ => None
      end
  end.

Fixpoint run (s : State) (evs : list Event) : option State :=
  match evs with
  | [] => Some s
  | ev :: rest =>
      match step s ev with
      | Some s1 => run s1 rest
      | None => None
      end
  end.

(** Lines 22 and 25: the module as loaded. *)
Definition initial : State :=
  {| accessTokenCache := coalesce (env_value "CC_ACCESS_TOKEN") VNull;
     refreshInFlight := None;
     promises := [];
     tasks := [];
     upstream_sent := [];
     token_sent := [] |}.

(** ** Observations on a state *)

(** The states the module can be in. *)
Definition reachable (s : State) : Prop :=
  exists evs, run initial evs = Some s.

(** Promise [p] is pending: its token request is out and unanswered. *)
Definition pending (s : State) (p : nat) : Prop :=
  promises s !! p = Some None.

(** The token requests that are out and unanswered. *)
Definition in_flight (s : State) : nat :=
  length (List.filter (fun o => match o with None => true | Some _ => false end)
            (promises s)).

(** The entries of a log that carry the number [k]. *)
Definition sent_for {A : Type} (k : nat) (log : list (nat * A)) : list A :=
  List.map snd (List.filter (fun e => Nat.eqb (fst e) k) log).

(** The upstream requests sent for call [t], and the token requests sent
    for promise [p]. *)
Definition requests_of (t : nat) (s : State) : list Request :=
  sent_for t (upstream_sent s).

Definition token_requests_of (p : nat) (s : State) : list TokenRequest :=
  sent_for p (token_sent s).

(** Call [t] is inside [refreshAccessToken], awaiting promise [p]. *)
Definition awaits (s : State) (t p : nat) : Prop :=
  exists baseUrl opts creator,
    tasks s !! t = Some (Refreshing baseUrl opts p creator).

(** What [await refreshAccessToken()] gives call [t] when it resumes. *)
Definition refreshed (s : State) (t : nat) : option (Outcome Value) :=
  match tasks s !! t with
  | Some (Refreshing _ _ p _) =>
      match promises s !! p with
      | Some (Some o) => Some o
      | _ => None
      end
  | _ => None
  end.

(** The [Authorization] header of a request. *)
Definition authorization (req : Request) : option string :=
  searchParams_get (req_headers req) "Authorization".

(** What one turn of the event loop does to the state, by cases: the
    relational reading of [step], used to carry invariants over a turn. *)
Inductive effect (s s' : State) : Event -> Prop :=
| effect_call_sent opts baseUrl req :
    tasks s' = tasks s ++ [FirstAttempt baseUrl opts] ->
    upstream_sent s' = upstream_sent s ++ [(length (tasks s), req)] ->
    refreshInFlight s' = refreshInFlight s ->
    promises s' = promises s ->
    token_sent s' = token_sent s ->
    effect s s' (Call opts)
| effect_call_failed opts e :
    tasks s' = tasks s ++ [Finished (Throw e)] ->
    upstream_sent s' = upstream_sent s ->
    refreshInFlight s' = refreshInFlight s ->
    promises s' = promises s ->
    token_sent s' = token_sent s ->
    effect s s' (Call opts)
| effect_finished t r o :
    (exists baseUrl opts,
        tasks s !! t = Some (FirstAttempt baseUrl opts)
        \/ tasks s !! t = Some (RetryAttempt baseUrl opts)) ->
    s' = set_tasks (<[t := Finished o]> (tasks s)) s ->
    effect s s' (UpstreamSettles t r)
| effect_joined t r baseUrl opts p :
    tasks s !! t = Some (FirstAttempt baseUrl opts) ->
    refreshInFlight s = Some p ->
    s' = set_tasks (<[t := Refreshing baseUrl opts p false]> (tasks s)) s ->
    effect s s' (UpstreamSettles t r)
| effect_created t r baseUrl opts x :
    tasks s !! t = Some (FirstAttempt baseUrl opts) ->
    refreshInFlight s = None ->
    tasks s' = <[t := Refreshing baseUrl opts (length (promises s)) true]> (tasks s) ->
    refreshInFlight s' = Some (length (promises s)) ->
    promises s' = promises s ++ [x] ->
    (x = None /\ exists req,
        refresh_request = Return req
        /\ token_sent s' = token_sent s ++ [(length (promises s), req)])
    \/ (exists e, x = Some (Throw e) /\ refresh_request = Throw e
                  /\ token_sent s' = token_sent s) ->
    upstream_sent s' = upstream_sent s ->
    accessTokenCache s' = accessTokenCache s ->
    effect s s' (UpstreamSettles t r)
| effect_token p r o :
    promises s !! p = Some None ->
    promises s' = <[p := Some o]> (promises s) ->
    tasks s' = tasks s ->
    refreshInFlight s' = refreshInFlight s ->
    upstream_sent s' = upstream_sent s ->
    token_sent s' = token_sent s ->
    effect s s' (TokenSettles p r)
| effect_resumed_sent t baseUrl opts p creator newToken req :
    tasks s !! t = Some (Refreshing baseUrl opts p creator) ->
    promises s !! p = Some (Some (Return newToken)) ->
    tasks s' = <[t := RetryAttempt baseUrl opts]> (tasks s) ->
    upstream_sent s' = upstream_sent s ++ [(t, req)] ->
    refreshInFlight s' = (if creator then None else refreshInFlight s) ->
    promises s' = promises s ->
    token_sent s' = token_sent s ->
    accessTokenCache s' = accessTokenCache s ->
    effect s s' (Resume t)
| effect_resumed_failed t baseUrl opts p creator o e :
    tasks s !! t = Some (Refreshing baseUrl opts p creator) ->
    promises s !! p = Some (Some o) ->
    tasks s' = <[t := Finished (Throw e)]> (tasks s) ->
    upstream_sent s' = upstream_sent s ->
    refreshInFlight s' = (if creator then None else refreshInFlight s) ->
    promises s' = promises s ->
    token_sent s' = token_sent s ->
    accessTokenCache s' = accessTokenCache s ->
    effect s s' (Resume t).

(** How the module variable [refreshInFlight], the promises and the calls
    inside [refreshAccessToken] hang together. *)
Record coordinated (s : State) : Prop := {
  slot_allocated :
    forall p, refreshInFlight s = Some p -> p < length (promises s);
  pending_in_slot :
    forall p, pending s p -> refreshInFlight s = Some p;
  creator_in_slot :
    forall t baseUrl opts p,
      tasks s !! t = Some (Refreshing baseUrl opts p true) ->
      refreshInFlight s = Some p;
  slot_has_creator :
    forall p, refreshInFlight s = Some p ->
      exists t baseUrl opts, tasks s !! t = Some (Refreshing baseUrl opts p true);
  awaited_allocated :
    forall t baseUrl opts p creator,
      tasks s !! t = Some (Refreshing baseUrl opts p creator) ->
      p < length (promises s);
  creator_unique :
    forall t1 baseUrl1 opts1 p1 t2 baseUrl2 opts2 p2,
      tasks s !! t1 = Some (Refreshing baseUrl1 opts1 p1 true) ->
      tasks s !! t2 = Some (Refreshing baseUrl2 opts2 p2 true) ->
      t1 = t2
}.

(** The token requests sent, against the promises made: one request for
    each promise, in order, when the configuration is there, and none when
    it is missing, every promise then being rejected for it. *)
Definition token_log_matches (s : State) : Prop :=
  match refresh_request with
  | Return req =>
      token_sent s = List.map (fun p => (p, req)) (seq 0 (length (promises s)))
  | Throw e =>
      token_sent s = [] /\ Forall (fun o => o = Some (Throw e)) (promises s)
  end.

(** The upstream requests sent for each call, by where the call is. *)
Definition attempts_counted (s : State) : Prop :=
  (forall t ph, tasks s !! t = Some ph ->
     match ph with
     | FirstAttempt _ _ | Refreshing _ _ _ _ => length (requests_of t s) = 1
     | RetryAttempt _ _ => length (requests_of t s) = 2
     | Finished _ => length (requests_of t s) <= 2
     end)
  /\ (forall t, length (tasks s) <= t -> requests_of t s = []).

(** [!process.env[name]]: the variable is not set, or set to nothing. *)
Definition absent (name : string) : bool :=
  negb (truthy (env_value name)).

(** Several calls get their answer one after the other. *)
Definition answers (burst : list (nat * Response)) : list Event :=
  List.map (fun tr => UpstreamSettles (fst tr) (Responded (snd tr))) burst.

(** How far a call has come. *)
Definition rank (ph : Phase) : nat :=
  match ph with
  | FirstAttempt _ _ => 0
  | Refreshing _ _ _ _ => 1
  | RetryAttempt _ _ => 2
  | Finished _ => 3
  end.

(** A turn in which no refresh succeeds. *)
Definition quiet (ev : Event) : Prop :=
  match ev with
  | TokenSettles _ (Responded res) => res_ok res = false
  | _ => True
  end.


(** [200 <= n <= 299], the test behind [res.ok]. *)
Definition is_success (n : Z) : bool := (200 <=? n)%Z && (n <=? 299)%Z.

(** An error that has a [status] has the status of a response that was no
    success. *)
Definition failure (e : Error) : Prop :=
  forall n, status e = Some n -> is_success n = false.

(** What calls and promises have ended with: a result has a success
    status and data that is neither [null] nor [undefined], a token is
    truthy, an error is a [failure]. *)
Definition outcomes_sound (s : State) : Prop :=
  (forall t o, tasks s !! t = Some (Finished o) ->
     match o with
     | Return out =>
         is_success (out_status out) = true /\ nullish (out_data out) = false
     | Throw e => failure e
     end)
  /\ (forall p o, promises s !! p = Some (Some o) ->
        match o with
        | Return token => truthy token = true
        | Throw e => failure e
        end).

(** [req] is what [ccFetchJsonWithToken] sends for this base URL and these
    options with some token. *)
Definition built (baseUrl : string) (opts : FetchOpts) (req : Request) : Prop :=
  exists token,
    truthy token = true
    /\ ccFetchJsonWithToken_request baseUrl token opts = Return req.

(** The requests of a call were all built from the base URL and the
    options of that call. *)
Definition requests_built (s : State) : Prop :=
  forall t ph, tasks s !! t = Some ph ->
    match ph with
    | FirstAttempt baseUrl opts | Refreshing baseUrl opts _ _
    | RetryAttempt baseUrl opts =>
        Forall (built baseUrl opts) (requests_of t s)
    | Finished _ =>
        exists baseUrl opts, Forall (built baseUrl opts) (requests_of t s)
    end.

(** Two requests that differ in the [Authorization] header at most. *)
Definition same_but_token (r1 r2 : Request) : Prop :=
  req_url r1 = req_url r2 /\ req_method r1 = req_method r2
  /\ req_body r1 = req_body r2 /\ req_cache r1 = req_cache r2
  /\ exists a1 a2 others,
       req_headers r1 = ("Authorization", a1) :: others
       /\ req_headers r2 = ("Authorization", a2) :: others.

(** The variable that [ccFetchJson] misses first, lines 28 and 32. *)
Definition missing_on_entry : string :=
  if absent "CC_BASE_URL" then "CC_BASE_URL" else "CC_ACCESS_TOKEN".

(** A token that was loaded with the module, line 22, or that a refresh
    has returned. *)
Definition issued (s : State) (token : Value) : Prop :=
  token = coalesce (env_value "CC_ACCESS_TOKEN") VNull
  \/ exists p, promises s !! p = Some (Some (Return token)).

(** The token in memory and the tokens of the requests sent are all
    [issued]. *)
Definition tokens_issued (s : State) : Prop :=
  issued s (accessTokenCache s)
  /\ forall t req, (t, req) ∈ upstream_sent s ->
       exists token,
         issued s token
         /\ authorization req = Some ("Bearer " +:+ ToString token).

(** ** lib/api.ts *)

(** Lines 2-8: the arguments of [fetch], the second as the object it is.
    [init] is [undefined] when the caller leaves it out. *)
Definition api_request (path : string) (init : Value) : string * Value :=
  (path,
   VObj (assign (spread [] (own_entries init)) "headers"
           (VObj (spread [("Content-Type", VStr "application/json")]
                    (own_entries (coalesce (get init "headers") EMPTY_OBJECT)))))).

(** Lines 10-19: what [api] makes of the response.  Its [safeJson], lines
    22-28, is that of [lib/constantContact.ts] word for word. *)
Definition api_response (res : Response) : Outcome Value :=
  let text := res_text res in
  let data := parsed text in
  if negb (res_ok res) then
    let message :=
      js_or (js_and data (js_or (get data "error") (get data "message")))
        (VStr ("Request failed (" +:+ status_text (res_status res) +:+ ")")) in
    Throw (new_Error (ToString message))
  else Return data.

(** ** The stand-alone refresh, [refreshConstantContactToken] *)

(** What [fetch] is called with there: no cache mode is given. *)
Record PlainTokenRequest : Type := mkPlainTokenRequest {
  plain_url : string;
  plain_method : Method;
  plain_headers : list (string * string);
  plain_form : list (string * string)
}.

(** Lines 2-16.  A variable that is not set is [undefined], which
    [URLSearchParams] turns into the text [undefined]. *)
Definition refreshConstantContactToken_request : PlainTokenRequest :=
  {| plain_url := "https://authz.constantcontact.com/oauth2/default/v1/token";
     plain_method := POST;
     plain_headers :=
       [("Content-Type", "application/x-www-form-urlencoded");
        ("Accept", "application/json")];
     plain_form :=
       [("grant_type", "refresh_token");
        ("refresh_token", ToString (env_value "CC_REFRESH_TOKEN"));
        ("client_id", ToString (env_value "CC_CLIENT_ID"))] |}.


(** * Properties of lib/constantContact.ts *)

Lemma run_app s evs1 evs2 :
  run s (evs1 ++ evs2) = match run s evs1 with Some s1 => run s1 evs2 | None => None end.
Proof.
  revert s. induction evs1 as [|ev evs1 IH]; intros s; simpl; [done|].
  destruct (step s ev); [apply IH | done].
Qed.

Lemma reachable_initial : reachable initial.
Proof. by exists []. Qed.

Lemma reachable_step s ev s' : reachable s -> step s ev = Some s' -> reachable s'.
Proof.
  intros [evs Hevs] Hstep. exists (evs ++ [ev]).
  rewrite run_app, Hevs. simpl. by rewrite Hstep.
Qed.

Lemma reachable_run s evs s' : reachable s -> run s evs = Some s' -> reachable s'.
Proof.
  revert s. induction evs as [|ev evs IH]; intros s Hs; simpl.
  - by intros [= <-].
  - destruct (step s ev) as [s1|] eqn:Hstep; [|done].
    intros Hrun. eapply IH; [|done]. by eapply reachable_step.
Qed.

(** An invariant holds in every reachable state. *)
Lemma reachable_ind (P : State -> Prop) :
  P initial ->
  (forall s ev s', P s -> step s ev = Some s' -> P s') ->
  forall s, reachable s -> P s.
Proof.
  intros Hinit Hstep s [evs Hevs].
  assert (Hgen : forall evs s0 s1, P s0 -> run s0 evs = Some s1 -> P s1).
  { clear -Hstep. intros evs. induction evs as [|ev evs IH]; intros s0 s1 H0; simpl.
    - by intros [= <-].
    - destruct (step s0 ev) as [s2|] eqn:E; [|done]. intros Hr.
      eapply IH; [|done]. by eapply Hstep. }
  by eapply Hgen.
Qed.

(** [getAccessToken] writes [accessTokenCache] and nothing else. *)
Lemma getAccessToken_frame s s1 o :
  getAccessToken s = (s1, o) ->
  refreshInFlight s1 = refreshInFlight s /\ promises s1 = promises s
  /\ tasks s1 = tasks s /\ upstream_sent s1 = upstream_sent s
  /\ token_sent s1 = token_sent s.
Proof.
  unfold getAccessToken. intros Hget.
  destruct (negb (truthy (accessTokenCache s)));
    repeat case_match; simplify_eq; done.
Qed.

(** [step] has no other effect than those of [effect]. *)
Lemma step_effect s ev s' : step s ev = Some s' -> effect s s' ev.
Proof.
  destruct ev as [opts|t r|p r|t]; simpl.
  - intros [= <-]. unfold ccFetchJson_enter, add_task.
    destruct (requireEnv "CC_BASE_URL") as [baseUrl|e]; simpl.
    2: { by eapply effect_call_failed. }
    destruct (getAccessToken s) as [s1 [token|e]] eqn:Hget;
      apply getAccessToken_frame in Hget as (E1 & E2 & E3 & E4 & E5).
    2: { eapply effect_call_failed; simpl; rewrite ?E1, ?E2, ?E3, ?E4, ?E5; done. }
    unfold attempt.
    destruct (ccFetchJsonWithToken_request baseUrl token opts) as [req|e]; simpl.
    + eapply effect_call_sent; simpl; rewrite ?E1, ?E2, ?E3, ?E4, ?E5; done.
    + eapply effect_call_failed; simpl; rewrite ?E1, ?E2, ?E3, ?E4, ?E5; done.
  - destruct (tasks s !! t) as [[baseUrl opts|baseUrl opts p c|baseUrl opts|o]|] eqn:Ht;
      try done; intros [= <-].
    + unfold ccFetchJson_first.
      destruct (bind (fetched r) ccFetchJsonWithToken_response) as [out|e].
      { eapply effect_finished; [by eauto|done]. }
      destruct (status_is e 401).
      2: { eapply effect_finished; [by eauto|done]. }
      unfold refreshAccessToken_enter.
      destruct (refreshInFlight s) as [p|] eqn:Hslot.
      { by eapply effect_joined. }
      destruct refresh_request as [req|e'] eqn:Hreq.
      * eapply effect_created; simpl; try done. left. eauto.
      * eapply effect_created; simpl; try done. right. eauto.
    + eapply effect_finished; [by eauto|done].
  - destruct (promises s !! p) as [[o|]|] eqn:Hp; try done.
    destruct (refresh_settle r s) as [s1 o] eqn:Hsettle. intros [= <-].
    assert (promises s1 = promises s /\ tasks s1 = tasks s
            /\ refreshInFlight s1 = refreshInFlight s
            /\ upstream_sent s1 = upstream_sent s /\ token_sent s1 = token_sent s)
      as (E1 & E2 & E3 & E4 & E5).
    { destruct r as [res|reason]; simpl in Hsettle.
      - unfold refresh_response in Hsettle.
        repeat case_match; simplify_eq; done.
      - by simplify_eq. }
    eapply effect_token; simpl; try done. by rewrite E1.
  - destruct (tasks s !! t) as [[baseUrl opts|baseUrl opts p c|baseUrl opts|o]|] eqn:Ht;
      try done.
    destruct (promises s !! p) as [[o|]|] eqn:Hp; try done. intros [= <-].
    unfold ccFetchJson_refreshed, attempt.
    destruct o as [newToken|e].
    + destruct (ccFetchJsonWithToken_request baseUrl newToken opts) as [req|e] eqn:Hreq.
      * eapply effect_resumed_sent; simpl; try done; by destruct c.
      * eapply effect_resumed_failed; simpl; try done; by destruct c.
    + eapply effect_resumed_failed; simpl; try done; by destruct c.
Qed.

(** ** Invariants *)

(** Inverts the effect of a turn and names the state after it by its
    fields. *)
Ltac effect_cases Hstep s' :=
  apply step_effect in Hstep; inversion Hstep; subst; clear Hstep;
  try (destruct s'; simpl in *; subst).

(** Splits the lookups in a list that was extended or updated. *)
Ltac lookups :=
  repeat match goal with
         | E : <[_:=_]> _ !! _ = Some _ |- _ =>
             apply list_lookup_insert_Some in E
         | E : (_ ++ [_]) !! _ = Some _ |- _ =>
             apply lookup_snoc_Some in E
         end;
  destruct_or?; destruct_and?; simplify_eq.

(** The call that made the promise in [refreshInFlight] is still there
    after a turn that touched another call. *)
Ltac keep_creator I4 :=
  let Hp := fresh "Hp" in
  let t0 := fresh "t0" in let b0 := fresh "b0" in let o0 := fresh "o0" in
  let Ht0 := fresh "Ht0" in
  intros ? Hp; destruct (I4 _ Hp) as (t0 & b0 & o0 & Ht0);
  exists t0, b0, o0;
  first [ by apply lookup_app_l_Some
        | rewrite list_lookup_insert_ne; [done | intros ->; simplify_eq] ].

Lemma coordinated_initial : coordinated initial.
Proof. split; unfold pending; simpl; intros; simplify_eq. Qed.

Lemma coordinated_step s ev s' :
  coordinated s -> step s ev = Some s' -> coordinated s'.
Proof.
  intros [I1 I2 I3 I4 I5 I6] Hstep. effect_cases Hstep s'.
  - (* a call, its request sent *)
    split; unfold pending in *; simpl; try done.
    + intros; lookups; eauto.
    + keep_creator I4.
    + intros; lookups; eauto.
    + intros; lookups; eauto.
  - (* a call that ends at once *)
    split; unfold pending in *; simpl; try done.
    + intros; lookups; eauto.
    + keep_creator I4.
    + intros; lookups; eauto.
    + intros; lookups; eauto.
  - (* a request settles and the call ends *)
    split; unfold pending in *; simpl; try done.
    + intros; lookups; eauto.
    + intros p0 Hp0. destruct (I4 _ Hp0) as (t0 & b0 & o0 & Ht0).
      exists t0, b0, o0. rewrite list_lookup_insert_ne; [done|]. intros ->.
      match goal with Hx : exists _ _, _ \/ _ |- _ =>
        destruct Hx as (b1 & o1 & [?|?]); simplify_eq end.
    + intros; lookups; eauto.
    + intros; lookups; eauto.
  - (* a 401 with a promise in [refreshInFlight] *)
    split; unfold pending in *; simpl; try done.
    + intros; lookups; eauto.
    + keep_creator I4.
    + intros; lookups; eauto.
    + intros; lookups; eauto.
  - (* a 401 with [refreshInFlight] empty *)
    match goal with Hx : _ \/ _ |- _ => clear Hx end.
    assert (Hnone : forall t0 b0 o0 p0,
               tasks s !! t0 = Some (Refreshing b0 o0 p0 true) -> False).
    { intros t0 b0 o0 p0 Ht0. apply I3 in Ht0. congruence. }
    assert (Hsettled : forall p0, promises s !! p0 = Some None -> False).
    { intros p0 Hp0. apply I2 in Hp0. congruence. }
    split; unfold pending in *; simpl.
    + intros p0 [= <-]. rewrite length_app. simpl. lia.
    + intros p0 [Hp0|[-> _]]%lookup_snoc_Some; [|done].
      destruct Hp0 as [_ Hp0]. by apply Hsettled in Hp0.
    + intros; lookups; [done|]. exfalso; eauto.
    + intros p0 [= <-]. exists t, baseUrl, opts.
      apply list_lookup_insert_eq. by eapply lookup_lt_Some.
    + intros; lookups; rewrite length_app; simpl; [lia|].
      assert (p < length (promises s)) by eauto. lia.
    + intros; lookups; try done; exfalso; eauto.
  - (* the token request settles *)
    split; unfold pending in *; simpl; try done.
    + intros. rewrite length_insert. eauto.
    + intros p0 Hp0. apply list_lookup_insert_Some in Hp0.
      destruct Hp0 as [(_ & [=] & _)|[_ Hp0]]. eauto.
    + intros. rewrite length_insert. eauto.
  - (* a call resumes and sends its second request *)
    destruct creator; split; unfold pending in *; simpl; try done.
    + intros p0 Hp0. pose proof (I2 _ Hp0) as Hslot.
      apply I3 in H0. congruence.
    + intros; lookups. assert (t0 = t) by eauto. done.
    + intros; lookups; eauto.
    + intros; lookups; eauto.
    + intros; lookups; eauto.
    + keep_creator I4.
    + intros; lookups; eauto.
    + intros; lookups; eauto.
  - (* a call resumes and ends *)
    destruct creator; split; unfold pending in *; simpl; try done.
    + intros p0 Hp0. pose proof (I2 _ Hp0) as Hslot.
      apply I3 in H0. congruence.
    + intros; lookups. assert (t0 = t) by eauto. done.
    + intros; lookups; eauto.
    + intros; lookups; eauto.
    + intros; lookups; eauto.
    + keep_creator I4.
    + intros; lookups; eauto.
    + intros; lookups; eauto.
Qed.

Lemma coordinated_reachable s : reachable s -> coordinated s.
Proof.
  apply reachable_ind; [apply coordinated_initial|].
  intros s0 ev s1. apply coordinated_step.
Qed.


Lemma sent_for_snoc {A : Type} (k k' : nat) (x : A) log :
  sent_for k (log ++ [(k', x)])
  = sent_for k log ++ (if Nat.eqb k' k then [x] else []).
Proof.
  unfold sent_for. rewrite List.filter_app, List.map_app. simpl.
  by destruct (Nat.eqb k' k).
Qed.

Lemma token_log_initial : token_log_matches initial.
Proof. unfold token_log_matches. by destruct refresh_request. Qed.

Lemma token_log_step s ev s' :
  token_log_matches s -> step s ev = Some s' -> token_log_matches s'.
Proof.
  unfold token_log_matches. intros Hlog Hstep. effect_cases Hstep s'; try done.
  - (* a new promise *)
    match goal with
    | Hx : _ \/ _ |- _ =>
        destruct Hx as [[-> (req' & Hreq & ->)] | (e' & -> & Hreq & ->)]
    end; rewrite Hreq in *.
    + rewrite length_app. simpl.
      rewrite Nat.add_1_r, seq_S, List.map_app. simpl. by rewrite Hlog.
    + destruct Hlog as [-> Hall]. split; [done|].
      apply Forall_app. split; [done|]. by apply Forall_singleton.
  - (* the token request settles *)
    rewrite length_insert.
    destruct refresh_request as [req|e]; [done|].
    destruct Hlog as [_ Hall].
    eapply Forall_lookup_1 in Hall; [|done]. done.
Qed.

Lemma token_log_reachable s : reachable s -> token_log_matches s.
Proof.
  apply reachable_ind; [apply token_log_initial|].
  intros s0 ev s1. apply token_log_step.
Qed.

Lemma attempts_initial : attempts_counted initial.
Proof. split; [by intros t ph [=]|done]. Qed.

Lemma attempts_step s ev s' :
  attempts_counted s -> step s ev = Some s' -> attempts_counted s'.
Proof.
  unfold attempts_counted, requests_of. intros [Hin Hout] Hstep.
  effect_cases Hstep s'; simpl.
  - (* a call, its request sent *)
    split.
    + intros t ph Hlk. rewrite sent_for_snoc. lookups.
      * destruct (Nat.eqb_spec (length (tasks s)) t); [lia|].
        rewrite app_nil_r. by apply Hin.
      * rewrite Nat.eqb_refl, Hout; done.
    + intros t Hle. rewrite length_app in Hle. simpl in Hle.
      rewrite sent_for_snoc, Hout by lia.
      by destruct (Nat.eqb_spec (length (tasks s)) t); [lia|].
  - (* a call that ends at once *)
    split.
    + intros t ph Hlk. lookups; [by apply Hin|]. rewrite Hout; simpl; lia.
    + intros t Hle. rewrite length_app in Hle. simpl in Hle. apply Hout. lia.
  - (* a request settles and the call ends *)
    split.
    + intros t0 ph Hlk. lookups; [|by apply Hin].
      match goal with Hph : exists _ _, _ \/ _ |- _ =>
        destruct Hph as (b0 & o0 & [Hph|Hph]); apply Hin in Hph end; lia.
    + intros t0. rewrite length_insert. apply Hout.
  - (* a 401 with a promise in [refreshInFlight] *)
    split.
    + intros t0 ph Hlk. lookups; [|by apply Hin].
      match goal with Hph : tasks s !! _ = Some _ |- _ => by apply Hin in Hph end.
    + intros t0. rewrite length_insert. apply Hout.
  - (* a 401 with [refreshInFlight] empty *)
    split.
    + intros t0 ph Hlk. apply list_lookup_insert_Some in Hlk.
      destruct Hlk as [(<- & <- & _)|[_ Hlk]]; [|by apply Hin].
      match goal with Hph : tasks s !! _ = Some _ |- _ => by apply Hin in Hph end.
    + intros t0. rewrite length_insert. apply Hout.
  - (* the token request settles *)
    done.
  - (* a call resumes and sends its second request *)
    split.
    + intros t0 ph Hlk. rewrite sent_for_snoc. lookups.
      * rewrite Nat.eqb_refl, length_app. simpl.
        match goal with Hph : tasks s !! _ = Some _ |- _ => apply Hin in Hph end.
        lia.
      * destruct (Nat.eqb_spec t t0); [done|]. rewrite app_nil_r. by apply Hin.
    + intros t0. rewrite length_insert. intros Hle. rewrite sent_for_snoc, Hout by done.
      destruct (Nat.eqb_spec t t0) as [->|]; [|done].
      match goal with Hph : tasks s !! _ = Some _ |- _ =>
        apply lookup_lt_Some in Hph end. lia.
  - (* a call resumes and ends *)
    split.
    + intros t0 ph Hlk. lookups; [|by apply Hin].
      match goal with Hph : tasks s !! _ = Some _ |- _ => apply Hin in Hph end.
      lia.
    + intros t0. rewrite length_insert. apply Hout.
Qed.

Lemma attempts_reachable s : reachable s -> attempts_counted s.
Proof.
  apply reachable_ind; [apply attempts_initial|].
  intros s0 ev s1. apply attempts_step.
Qed.

(** ** Single steps *)

Lemma pending_count_le_1 {A : Type} (l : list (option A)) :
  (forall i j, l !! i = Some None -> l !! j = Some None -> i = j) ->
  length (List.filter (fun o => match o with None => true | Some _ => false end) l) <= 1.
Proof.
  induction l as [|x l IH]; intros Huniq; simpl; [lia|].
  destruct x as [a|].
  - apply IH. intros i j Hi Hj.
    specialize (Huniq (S i) (S j) Hi Hj). lia.
  - assert (Hnone : List.filter (fun o : option A =>
               match o with None => true | Some _ => false end) l = []).
    { clear IH. induction l as [|y l IHl]; [done|]. simpl.
      destruct y as [a|].
      - apply IHl. intros [|i] [|j] Hi Hj; try done.
        + by specialize (Huniq 0 (S (S j)) eq_refl Hj).
        + by specialize (Huniq (S (S i)) 0 Hi eq_refl).
        + specialize (Huniq (S (S i)) (S (S j)) Hi Hj). lia.
      - by specialize (Huniq 0 1 eq_refl eq_refl). }
    rewrite Hnone. simpl. lia.
Qed.

Lemma in_flight_le_1 s : coordinated s -> in_flight s <= 1.
Proof.
  intros Hco. apply pending_count_le_1. intros i j Hi Hj.
  apply (pending_in_slot s Hco) in Hi, Hj. congruence.
Qed.

Lemma enter_joins s p :
  refreshInFlight s = Some p -> refreshAccessToken_enter s = (s, (p, false)).
Proof. unfold refreshAccessToken_enter. by intros ->. Qed.

(** A response that is not [ok] becomes an error with its status. *)
Lemma response_not_ok res :
  res_ok res = false ->
  exists msg,
    ccFetchJsonWithToken_response res
    = Throw {| message := msg;
               status := Some (res_status res);
               details := coalesce (parsed (res_text res)) (VStr (res_text res)) |}.
Proof. unfold ccFetchJsonWithToken_response. intros ->. simpl. eauto. Qed.

Lemma status_401_not_ok res : res_status res = 401%Z -> res_ok res = false.
Proof. unfold res_ok. by intros ->. Qed.

(** The first request answered 401: the call enters [refreshAccessToken]. *)
Lemma first_401 s t baseUrl opts res :
  tasks s !! t = Some (FirstAttempt baseUrl opts) ->
  res_status res = 401%Z ->
  step s (UpstreamSettles t (Responded res))
  = Some (set_task t
            (let '(s1, (p, creator)) := refreshAccessToken_enter s in
             (s1, Refreshing baseUrl opts p creator))).
Proof.
  intros Ht H401. simpl. rewrite Ht. unfold ccFetchJson_first. simpl.
  destruct (response_not_ok res (status_401_not_ok res H401)) as [msg ->].
  unfold status_is. simpl. by rewrite H401.
Qed.

(** ** Runs *)

(** A settled promise keeps its outcome. *)
Lemma settled_step s ev s' p o :
  step s ev = Some s' ->
  promises s !! p = Some (Some o) -> promises s' !! p = Some (Some o).
Proof.
  intros Hstep Hp. effect_cases Hstep s'; try done.
  - by apply lookup_app_l_Some.
  - rewrite list_lookup_insert_ne; [done|]. intros ->. congruence.
Qed.

Lemma settled_run s evs s' p o :
  run s evs = Some s' ->
  promises s !! p = Some (Some o) -> promises s' !! p = Some (Some o).
Proof.
  revert s. induction evs as [|ev evs IH]; intros s; simpl.
  - by intros [= <-].
  - destruct (step s ev) as [s1|] eqn:Hstep; [|done].
    intros Hrun Hp. eapply IH; [done|]. by eapply settled_step.
Qed.

(** A call stays where it is or moves on; it never comes back. *)
Lemma phase_step s ev s' t ph :
  step s ev = Some s' ->
  tasks s !! t = Some ph ->
  exists ph', tasks s' !! t = Some ph' /\ (ph' = ph \/ rank ph < rank ph').
Proof.
  intros Hstep Ht. effect_cases Hstep s'; simpl.
  1, 2: exists ph; split; [by apply lookup_app_l_Some | by left].
  4: by eauto.
  all: destruct (decide (t0 = t)) as [->|Hne];
    [ rewrite list_lookup_insert_eq by (by eapply lookup_lt_Some);
      eexists; split; [done|]; right;
      repeat match goal with
             | Hx : exists _, _ |- _ => destruct Hx
             | Hx : _ \/ _ |- _ => destruct Hx
             | Hx : _ /\ _ |- _ => destruct Hx
             end; simplify_eq; simpl; lia
    | rewrite list_lookup_insert_ne by done; eauto ].
Qed.

Lemma phase_run s evs s' t ph :
  run s evs = Some s' ->
  tasks s !! t = Some ph ->
  exists ph', tasks s' !! t = Some ph' /\ (ph' = ph \/ rank ph < rank ph').
Proof.
  revert s ph. induction evs as [|ev evs IH]; intros s ph; simpl.
  - intros [= <-] Ht. eauto.
  - destruct (step s ev) as [s1|] eqn:Hstep; [|done].
    intros Hrun Ht.
    destruct (phase_step _ _ _ _ _ Hstep Ht) as (ph1 & Ht1 & Hph1).
    destruct (IH _ _ Hrun Ht1) as (ph2 & Ht2 & Hph2).
    exists ph2. split; [done|].
    destruct Hph1 as [->|Hlt1], Hph2 as [->|Hlt2]; eauto with lia.
Qed.

(** A call that awaits a promise awaits no other promise later. *)
Lemma awaits_run s evs s' t p p' :
  run s evs = Some s' -> awaits s t p -> awaits s' t p' -> p' = p.
Proof.
  intros Hrun (b & o & c & Ht) (b' & o' & c' & Ht').
  destruct (phase_run _ _ _ _ _ Hrun Ht) as (ph' & Hph' & [->|Hlt]).
  - congruence.
  - rewrite Ht' in Hph'. injection Hph' as <-. simpl in Hlt. lia.
Qed.

(** What [Resume] does: the call gets the outcome of the promise it
    awaits, and goes on from line 141. *)
Lemma resume_refreshed s t s' :
  step s (Resume t) = Some s' <->
  exists baseUrl opts p creator o,
    tasks s !! t = Some (Refreshing baseUrl opts p creator)
    /\ refreshed s t = Some o
    /\ s' = set_task t (ccFetchJson_refreshed t baseUrl opts creator o s).
Proof.
  unfold refreshed. simpl. split.
  - destruct (tasks s !! t) as [[b o|b o p c|b o|o]|] eqn:Ht; try done.
    destruct (promises s !! p) as [[out|]|] eqn:Hp; try done.
    intros [= <-]. by exists b, o, p, c, out.
  - intros (b & o & p & c & out & Ht & Hout & ->). rewrite Ht in *.
    destruct (promises s !! p) as [[out'|]|]; by simplify_eq.
Qed.

(** With a promise in [refreshInFlight], calls answered 401 one after the
    other all get that promise, and nothing else changes. *)
Lemma burst_joins burst : forall s s1 p,
  refreshInFlight s = Some p ->
  Forall (fun tr => res_status (snd tr) = 401%Z) burst ->
  (forall tr, tr ∈ burst ->
     (exists baseUrl opts, tasks s !! fst tr = Some (FirstAttempt baseUrl opts))
     \/ awaits s (fst tr) p) ->
  run s (answers burst) = Some s1 ->
  refreshInFlight s1 = Some p /\ promises s1 = promises s
  /\ token_sent s1 = token_sent s
  /\ (forall tr, tr ∈ burst -> awaits s1 (fst tr) p)
  /\ (forall t, awaits s t p -> awaits s1 t p).
Proof.
  induction burst as [|[t res] burst IH]; intros s s1 p Hslot H401 Hfirst;
    cbn [run answers List.map fst snd].
  - intros [= <-]. repeat split; try done. by intros tr ?%elem_of_nil.
  - destruct (step s (UpstreamSettles t (Responded res))) as [s'|] eqn:Hstep;
      [|done].
    intros Hrun. apply Forall_cons in H401 as [H401 H401s]. simpl in H401.
    pose proof (Hfirst (t, res) ltac:(by left)) as Hhd. simpl in Hhd.
    destruct Hhd as [(b & o & Ht)|(b & o & c & Ht)];
      [|by simpl in Hstep; rewrite Ht in Hstep].
    rewrite (first_401 _ _ _ _ _ Ht H401), (enter_joins _ _ Hslot) in Hstep.
    injection Hstep as <-.
    assert (Hkeep : forall t0, awaits s t0 p ->
              awaits (set_task t (s, Refreshing b o p false)) t0 p).
    { intros t0 (b0 & o0 & c0 & Ht0). unfold awaits, set_task. simpl.
      destruct (decide (t = t0)) as [->|Hne]; [congruence|].
      rewrite list_lookup_insert_ne by done. eauto. }
    assert (Hhead : awaits (set_task t (s, Refreshing b o p false)) t p).
    { unfold awaits, set_task. simpl. exists b, o, false.
      apply list_lookup_insert_eq. by eapply lookup_lt_Some. }
    destruct (IH (set_task t (s, Refreshing b o p false)) s1 p)
      as (E1 & E2 & E3 & Hall & Hkeep'); [done|done| |done|].
    { intros tr Htr. destruct (decide (fst tr = t)) as [->|Hne]; [by right|].
      destruct (Hfirst tr) as [(b0 & o0 & Ht0)|Haw]; [by right| |by right; eauto].
      left. exists b0, o0. unfold set_task. simpl.
      by rewrite list_lookup_insert_ne. }
    repeat split; try done.
    + intros tr [->|Htr]%elem_of_cons; eauto.
    + eauto.
Qed.

(** Calls answered 401 one after the other all await one promise, and at
    most one token request goes out for them. *)
Lemma burst_single s burst s1 :
  burst <> [] ->
  Forall (fun tr => res_status (snd tr) = 401%Z) burst ->
  (forall tr, tr ∈ burst ->
     exists baseUrl opts, tasks s !! fst tr = Some (FirstAttempt baseUrl opts)) ->
  run s (answers burst) = Some s1 ->
  exists p,
    refreshInFlight s1 = Some p
    /\ (forall tr, tr ∈ burst -> awaits s1 (fst tr) p)
    /\ (token_sent s1 = token_sent s
        \/ exists req, token_sent s1 = token_sent s ++ [(p, req)]).
Proof.
  destruct burst as [|[t res] burst]; [done|]. intros _ H401 Hfirst.
  cbn [run answers List.map fst snd].
  destruct (step s (UpstreamSettles t (Responded res))) as [s'|] eqn:Hstep;
    [|done].
  intros Hrun. apply Forall_cons in H401 as [H401 H401s]. simpl in H401.
  pose proof (Hfirst (t, res) ltac:(by left)) as (b & o & Ht). simpl in Ht.
  rewrite (first_401 _ _ _ _ _ Ht H401) in Hstep. injection Hstep as Hs'.
  destruct (refreshAccessToken_enter s) as [s0 [p c]] eqn:Henter.
  assert (Hslot' : refreshInFlight s' = Some p
            /\ (token_sent s' = token_sent s
                \/ exists req, token_sent s' = token_sent s ++ [(p, req)])).
  { subst s'. unfold refreshAccessToken_enter in Henter.
    destruct (refreshInFlight s) as [q|] eqn:Hslot.
    - injection Henter as <- <- <-. simpl. eauto.
    - injection Henter as <- <- <-. simpl.
      destruct refresh_request as [req|e]; simpl; eauto. }
  destruct Hslot' as [Hslot' Hsent].
  assert (Hhead : awaits s' t p).
  { subst s'. unfold awaits, set_task. simpl. exists b, o, c.
    apply list_lookup_insert_eq.
    assert (tasks s0 = tasks s) as ->; [|by eapply lookup_lt_Some].
    unfold refreshAccessToken_enter in Henter.
    destruct (refreshInFlight s); [by simplify_eq|]. injection Henter as <- _ _.
    by destruct refresh_request. }
  destruct (burst_joins burst s' s1 p)
    as (E1 & E2 & E3 & Hall & Hkeep); [done|done| |done|].
  { intros tr Htr. destruct (decide (fst tr = t)) as [->|Hne]; [by right|].
    left. destruct (Hfirst tr) as (b0 & o0 & Ht0); [by right|].
    exists b0, o0. subst s'. unfold set_task. simpl.
    rewrite list_lookup_insert_ne by done.
    assert (tasks s0 = tasks s) as ->; [|done].
    unfold refreshAccessToken_enter in Henter.
    destruct (refreshInFlight s); [by simplify_eq|]. injection Henter as <- _ _.
    by destruct refresh_request. }
  exists p. split; [done|]. split.
  - intros tr [->|Htr]%elem_of_cons; eauto.
  - by rewrite E3.
Qed.

(** The token requests for a promise, in a log that matches. *)
Lemma sent_for_seq {A : Type} (x : A) p n :
  sent_for p (List.map (fun q => (q, x)) (seq 0 n)) = if decide (p < n) then [x] else [].
Proof.
  induction n as [|n IH]; [by case_decide; [lia|]|].
  rewrite seq_S, List.map_app. simpl. rewrite sent_for_snoc, IH.
  destruct (Nat.eqb_spec n p); repeat case_decide; try lia; done.
Qed.

(** ** The token *)

Lemma get_coalesce v k : get (coalesce v EMPTY_OBJECT) k = get v k.
Proof. by destruct v. Qed.

(** [accessTokenCache], once it holds a token, is written by a successful
    refresh only. *)
Lemma token_kept s ev s' :
  truthy (accessTokenCache s) = true ->
  step s ev = Some s' ->
  accessTokenCache s' = accessTokenCache s
  \/ exists p res, ev = TokenSettles p (Responded res) /\ res_ok res = true.
Proof.
  intros Htruthy. destruct ev as [opts|t r|p r|t]; simpl.
  - intros [= <-]. left. unfold ccFetchJson_enter, add_task.
    destruct (requireEnv "CC_BASE_URL"); [|done].
    unfold getAccessToken. rewrite Htruthy. simpl. rewrite Htruthy. simpl.
    unfold attempt. by destruct (ccFetchJsonWithToken_request _ _ _).
  - intros Hstep. left.
    destruct (tasks s !! t) as [[b o|b o p c|b o|o]|]; try done;
      injection Hstep as <-; [|done].
    unfold ccFetchJson_first.
    destruct (bind _ _) as [out|e]; [done|]. destruct (status_is e 401); [|done].
    unfold refreshAccessToken_enter. destruct (refreshInFlight s); [done|].
    by destruct refresh_request.
  - destruct (promises s !! p) as [[o|]|]; try done.
    destruct r as [res|reason]; simpl; [|by intros [= <-]; left].
    unfold refresh_response. destruct (res_ok res) eqn:Hok; simpl.
    + intros _. right. eauto.
    + intros [= <-]. by left.
  - intros Hstep. left.
    destruct (tasks s !! t) as [[b o|b o p c|b o|o]|]; try done.
    destruct (promises s !! p) as [[out|]|]; try done. injection Hstep as <-.
    unfold ccFetchJson_refreshed, attempt.
    destruct out as [newToken|e]; [|by destruct c].
    destruct (ccFetchJsonWithToken_request _ _ _); by destruct c.
Qed.

(** Over turns in which no refresh succeeds, a token held is kept. *)
Lemma token_kept_run evs : forall s s',
  truthy (accessTokenCache s) = true ->
  run s evs = Some s' ->
  Forall quiet evs ->
  accessTokenCache s' = accessTokenCache s.
Proof.
  induction evs as [|ev evs IH]; intros s s' Htruthy; simpl.
  - by intros [= <-].
  - destruct (step s ev) as [s1|] eqn:Hstep; [|done].
    intros Hrun [Hquiet Hquiets]%Forall_cons.
    destruct (token_kept _ _ _ Htruthy Hstep) as [Hsame|(p & res & -> & Hok)].
    + rewrite <- Hsame. apply IH; [by rewrite Hsame|done|done].
    + simpl in Hquiet. congruence.
Qed.




(** ** The claims *)

(** C1, refresh de-duplication.  In every reachable state: at most one
    token request is out and unanswered; while a refresh is pending,
    entering [refreshAccessToken] gives back the pending promise and
    changes nothing, so no new request starts; and when any number of
    calls, each with its first request out, are answered 401 one after the
    other, they all await the promise in [refreshInFlight], the token
    requests sent grow by one at most, exactly one token request has gone
    out for that promise (the refresh configuration being present), and
    whenever later two of these calls are given an outcome of the refresh,
    they are given the same one. *)
Theorem refresh_deduplicated s :
  reachable s ->
  in_flight s <= 1
  /\ (forall p, pending s p -> refreshAccessToken_enter s = (s, (p, false)))
  /\ (forall burst s1,
        burst <> [] ->
        Forall (fun tr => res_status (snd tr) = 401%Z) burst ->
        (forall tr, tr ∈ burst ->
           exists baseUrl opts,
             tasks s !! fst tr = Some (FirstAttempt baseUrl opts)) ->
        run s (answers burst) = Some s1 ->
        exists p,
          refreshInFlight s1 = Some p
          /\ (forall tr, tr ∈ burst -> awaits s1 (fst tr) p)
          /\ length (token_sent s1) <= S (length (token_sent s))
          /\ (forall req, refresh_request = Return req ->
                token_requests_of p s1 = [req])
          /\ (forall evs s2 evs' s3 tr1 tr2 o1 o2,
                run s1 evs = Some s2 -> run s2 evs' = Some s3 ->
                tr1 ∈ burst -> tr2 ∈ burst ->
                refreshed s2 (fst tr1) = Some o1 ->
                refreshed s3 (fst tr2) = Some o2 ->
                o1 = o2)).
Proof.
  intros Hreach. pose proof (coordinated_reachable s Hreach) as Hco.
  split; [by apply in_flight_le_1|]. split.
  { intros p Hp. apply enter_joins. by apply (pending_in_slot s Hco). }
  intros burst s1 Hne H401 Hfirst Hrun.
  destruct (burst_single s burst s1 Hne H401 Hfirst Hrun)
    as (p & Hslot & Hall & Hsent).
  pose proof (reachable_run _ _ _ Hreach Hrun) as Hreach1.
  exists p. split; [done|]. split; [done|]. split.
  { destruct Hsent as [->|[req ->]]; [lia|]. rewrite length_app. simpl. lia. }
  split.
  { intros req Hreq. pose proof (token_log_reachable s1 Hreach1) as Hlog.
    unfold token_log_matches in Hlog. rewrite Hreq in Hlog.
    unfold token_requests_of. rewrite Hlog, sent_for_seq.
    pose proof (slot_allocated s1 (coordinated_reachable s1 Hreach1) p Hslot).
    by case_decide. }
  intros evs s2 evs' s3 tr1 tr2 o1 o2 Hrun2 Hrun3 Htr1 Htr2 Ho1 Ho2.
  unfold refreshed in Ho1, Ho2.
  destruct (tasks s2 !! fst tr1) as [[| b1 q1 p1 c1 | |]|] eqn:Ht1; try done.
  destruct (promises s2 !! p1) as [[o1'|]|] eqn:Hp1; try done.
  destruct (tasks s3 !! fst tr2) as [[| b2 q2 p2 c2 | |]|] eqn:Ht2; try done.
  destruct (promises s3 !! p2) as [[o2'|]|] eqn:Hp2; try done.
  simplify_eq.
  assert (p1 = p) as ->.
  { eapply (awaits_run s1 evs s2 (fst tr1)); [done|exact (Hall tr1 Htr1)|].
    exists b1, q1, c1; exact Ht1. }
  assert (p2 = p) as ->.
  { eapply (awaits_run s1 (evs ++ evs') s3 (fst tr2));
      [|exact (Hall tr2 Htr2)|exists b2, q2, c2; exact Ht2].
    by rewrite run_app, Hrun2. }
  pose proof (settled_run _ _ _ _ _ Hrun3 Hp1). congruence.
Qed.

Lemma request_authorization baseUrl token opts req :
  ccFetchJsonWithToken_request baseUrl token opts = Return req ->
  authorization req = Some ("Bearer " +:+ ToString token).
Proof.
  unfold ccFetchJsonWithToken_request.
  destruct (URL_parse _); [|done]. by intros [= <-].
Qed.




(** C4 as amended, success is passed through.  A call that waits for a
    request, the first or the second, and gets a response with a status
    from 200 to 299 ends in that turn and returns that status with the
    data: the parsed body when the body is not empty, parses as JSON and
    is not the JSON null, and an empty object otherwise.  Nothing else in
    the state changes. *)
Theorem success_passes_through s t baseUrl opts res :
  tasks s !! t = Some (FirstAttempt baseUrl opts)
  \/ tasks s !! t = Some (RetryAttempt baseUrl opts) ->
  res_ok res = true ->
  let data :=
    if String.eqb (res_text res) "" then EMPTY_OBJECT
    else match JSON_parse (res_text res) with
         | Some v => if nullish v then EMPTY_OBJECT else v
         | None => EMPTY_OBJECT
         end in
  step s (UpstreamSettles t (Responded res))
  = Some (set_tasks
            (<[t := Finished (Return {| out_status := res_status res;
                                        out_data := data |})]> (tasks s)) s).
Proof.
  intros Ht Hok data.
  assert (Hresp : ccFetchJsonWithToken_response res
                  = Return {| out_status := res_status res; out_data := data |}).
  { unfold ccFetchJsonWithToken_response. rewrite Hok. simpl. f_equal. f_equal.
    subst data. unfold parsed, safeJson, coalesce. simpl.
    destruct (String.eqb (res_text res) ""); [done|]. simpl.
    destruct (JSON_parse (res_text res)) as [v|]; [|done].
    by destruct (nullish v). }
  simpl. destruct Ht as [-> | ->].
  - unfold ccFetchJson_first. simpl. by rewrite Hresp.
  - unfold ccFetchJson_second. simpl. by rewrite Hresp.
Qed.


(** C6, the life of the pending refresh.  In every reachable state: with
    [refreshInFlight] empty, entering [refreshAccessToken] makes a promise
    that did not exist before and stores it in [refreshInFlight]; when the
    call that made the promise resumes after it has settled, fulfilled or
    rejected alike, [refreshInFlight] is emptied first and the outcome is
    passed on in the emptied state; a promise is in [refreshInFlight] only
    while the call that made it has yet to resume; and once empty,
    [refreshInFlight] stays empty until a turn stores a promise made in
    that turn, so no later call finds a promise left over. *)
Theorem pending_refresh_lifecycle s :
  reachable s ->
  (refreshInFlight s = None ->
     exists s1,
       refreshAccessToken_enter s = (s1, (length (promises s), true))
       /\ refreshInFlight s1 = Some (length (promises s))
       /\ promises s !! length (promises s) = None
       /\ is_Some (promises s1 !! length (promises s)))
  /\ (forall t baseUrl opts p out,
        tasks s !! t = Some (Refreshing baseUrl opts p true) ->
        promises s !! p = Some (Some out) ->
        exists s',
          step s (Resume t) = Some s'
          /\ s' = set_task t
                    (match out with
                     | Throw e => (set_refreshInFlight None s, Finished (Throw e))
                     | Return newToken =>
                         attempt t baseUrl newToken opts
                           (RetryAttempt baseUrl opts) (set_refreshInFlight None s)
                     end)
          /\ refreshInFlight s' = None)
  /\ (forall p, refreshInFlight s = Some p ->
        exists t baseUrl opts,
          tasks s !! t = Some (Refreshing baseUrl opts p true))
  /\ (forall ev s',
        refreshInFlight s = None ->
        step s ev = Some s' ->
        refreshInFlight s' = None
        \/ (refreshInFlight s' = Some (length (promises s))
            /\ length (promises s') = S (length (promises s)))).
Proof.
  intros Hreach. pose proof (coordinated_reachable s Hreach) as Hco.
  split; [|split; [|split]].
  - intros Hslot. unfold refreshAccessToken_enter. rewrite Hslot.
    eexists. split; [done|]. simpl. split; [done|]. split.
    + by apply lookup_ge_None.
    + destruct refresh_request; simpl; rewrite lookup_app_r, Nat.sub_diag by done;
        by eexists.
  - intros t baseUrl opts p out Ht Hp. eexists. split.
    { simpl. rewrite Ht, Hp. reflexivity. }
    unfold ccFetchJson_refreshed. simpl. split; [by destruct out|].
    destruct out as [newToken|e]; [|done].
    unfold attempt. by destruct (ccFetchJsonWithToken_request _ _ _).
  - apply (slot_has_creator s Hco).
  - intros ev s' Hslot Hstep. effect_cases Hstep s'; simpl; eauto.
    + right. split; [done|]. rewrite length_app. simpl. lia.
    + destruct creator; eauto.
    + destruct creator; eauto.
Qed.

(** C7 as amended, a successful refresh adopts the new token.  When the
    token endpoint answers the pending refresh with a success status and a
    body whose [access_token] is truthy (a string that is not empty), the
    turn writes that token to [accessTokenCache] and fulfils the promise
    with it; [getAccessToken] then returns it; every call that awaits the
    promise resumes by sending its request with it; a new call sends its
    request with it; and [getAccessToken] goes on returning it as long
    as no other refresh succeeds. *)
Theorem successful_refresh_adopts_token s p res token :
  pending s p ->
  res_ok res = true ->
  get (parsed (res_text res)) "access_token" = token ->
  truthy token = true ->
  exists s',
    step s (TokenSettles p (Responded res)) = Some s'
    /\ accessTokenCache s' = token
    /\ promises s' !! p = Some (Some (Return token))
    /\ getAccessToken s' = (s', Return token)
    /\ (forall t baseUrl opts creator req,
          tasks s' !! t = Some (Refreshing baseUrl opts p creator) ->
          ccFetchJsonWithToken_request baseUrl token opts = Return req ->
          exists s'',
            step s' (Resume t) = Some s''
            /\ upstream_sent s'' = upstream_sent s' ++ [(t, req)]
            /\ authorization req = Some ("Bearer " +:+ ToString token))
    /\ (forall opts baseUrl req,
          requireEnv "CC_BASE_URL" = Return baseUrl ->
          ccFetchJsonWithToken_request baseUrl token opts = Return req ->
          exists s'',
            step s' (Call opts) = Some s''
            /\ upstream_sent s'' = upstream_sent s' ++ [(length (tasks s'), req)]
            /\ authorization req = Some ("Bearer " +:+ ToString token))
    /\ (forall evs s2,
          run s' evs = Some s2 -> Forall quiet evs ->
          getAccessToken s2 = (s2, Return token)).
Proof.
  unfold pending. intros Hp Hok Htoken Htruthy.
  assert (Hsettle : refresh_response res s
                    = (set_accessTokenCache token s, Return token)).
  { unfold refresh_response. rewrite Hok, get_coalesce, Htoken, Htruthy. done. }
  eexists. split.
  { simpl. rewrite Hp, Hsettle. reflexivity. }
  simpl.
  assert (Hp' : <[p:=Some (Return token)]> (promises s) !! p
                = Some (Some (Return token))).
  { apply list_lookup_insert_eq. by eapply lookup_lt_Some. }
  split; [done|]. split; [done|]. split.
  { unfold getAccessToken. simpl. rewrite Htruthy. simpl. by rewrite Htruthy. }
  split; [|split].
  - intros t baseUrl opts creator req Ht Hreq. eexists. split.
    { rewrite Ht, Hp'. reflexivity. }
    unfold ccFetchJson_refreshed, attempt. rewrite Hreq. simpl.
    split; [by destruct creator|]. by eapply request_authorization.
  - intros opts baseUrl req Hbase Hreq. eexists. split; [done|].
    unfold ccFetchJson_enter. rewrite Hbase.
    unfold getAccessToken. simpl. rewrite Htruthy. simpl. rewrite Htruthy. simpl.
    unfold attempt. rewrite Hreq. simpl.
    split; [done|]. by eapply request_authorization.
  - intros evs s2 Hrun Hquiet.
    pose proof (token_kept_run evs
                  (set_promises (<[p:=Some (Return token)]> (promises s))
                     (set_accessTokenCache token s)) s2 Htruthy Hrun Hquiet)
      as Hcache.
    simpl in Hcache. unfold getAccessToken.
    rewrite Hcache, Htruthy. simpl. by rewrite Hcache, Htruthy.
Qed.

Lemma requireEnv_absent name :
  absent name = true ->
  requireEnv name = Throw (new_Error ("Missing environment variable: " +:+ name)).
Proof.
  unfold absent, env_value, requireEnv.
  destruct (process_env name) as [v|]; [|done].
  by destruct (truthy (VStr v)).
Qed.

Lemma requireEnv_present name :
  absent name = false -> exists v, requireEnv name = Return v.
Proof.
  unfold absent, env_value, requireEnv.
  destruct (process_env name) as [v|]; [|done].
  destruct (truthy (VStr v)); [eauto|done].
Qed.

(** C9, a refresh needs its configuration.  With the client identifier or
    the refresh token absent from the environment (not set, or set to
    nothing), in every reachable state no token request has been sent, and
    a call whose first request is answered 401 enters [refreshAccessToken]
    and, when it resumes, ends with the error [Missing environment
    variable: ...] that names an absent variable (the client identifier
    when both are absent); still no token request has been sent. *)
Theorem refresh_requires_configuration s :
  reachable s ->
  absent "CC_CLIENT_ID" = true \/ absent "CC_REFRESH_TOKEN" = true ->
  let name :=
    if absent "CC_CLIENT_ID" then "CC_CLIENT_ID" else "CC_REFRESH_TOKEN" in
  absent name = true
  /\ token_sent s = []
  /\ (forall t baseUrl opts res,
        tasks s !! t = Some (FirstAttempt baseUrl opts) ->
        res_status res = 401%Z ->
        exists s1 s2,
          step s (UpstreamSettles t (Responded res)) = Some s1
          /\ step s1 (Resume t) = Some s2
          /\ tasks s2 !! t
             = Some (Finished
                       (Throw (new_Error
                                 ("Missing environment variable: " +:+ name))))
          /\ token_sent s2 = []).
Proof.
  intros Hreach Habsent name.
  assert (Hname : absent name = true).
  { subst name. destruct (absent "CC_CLIENT_ID") eqn:E; [done|].
    by destruct Habsent. }
  assert (Hreq : refresh_request
                 = Throw (new_Error ("Missing environment variable: " +:+ name))).
  { unfold refresh_request. subst name.
    destruct (absent "CC_CLIENT_ID") eqn:E.
    - by rewrite (requireEnv_absent _ E).
    - destruct (requireEnv_present _ E) as [v ->]. simpl.
      by rewrite (requireEnv_absent _ Hname). }
  assert (Hlog : forall s0, reachable s0 ->
            token_sent s0 = []
            /\ Forall (fun o => o = Some (Throw (new_Error
                   ("Missing environment variable: " +:+ name)))) (promises s0)).
  { intros s0 Hs0. pose proof (token_log_reachable s0 Hs0) as Hlog.
    unfold token_log_matches in Hlog. by rewrite Hreq in Hlog. }
  split; [done|]. split; [by apply Hlog|].
  intros t baseUrl opts res Ht H401.
  pose proof (first_401 s t baseUrl opts res Ht H401) as Hstep.
  destruct (refreshAccessToken_enter s) as [s0 [p creator]] eqn:Henter.
  eexists. 
  assert (Hreach1 : reachable (set_task t (s0, Refreshing baseUrl opts p creator))).
  { by eapply reachable_step. }
  destruct (Hlog _ Hreach1) as [Hsent Hall].
  pose proof (coordinated_reachable _ Hreach1) as Hco1.
  assert (Ht1 : tasks (set_task t (s0, Refreshing baseUrl opts p creator)) !! t
                = Some (Refreshing baseUrl opts p creator)).
  { unfold set_task. simpl. apply list_lookup_insert_eq.
    assert (tasks s0 = tasks s) as ->; [|by eapply lookup_lt_Some].
    unfold refreshAccessToken_enter in Henter.
    destruct (refreshInFlight s); [by simplify_eq|]. injection Henter as <- _ _.
    by destruct refresh_request. }
  pose proof (awaited_allocated _ Hco1 _ _ _ _ _ Ht1) as Hlt.
  apply lookup_lt_is_Some in Hlt as [o Hp].
  pose proof (Forall_lookup_1 _ _ _ _ Hall Hp) as ->.
  eexists. split; [done|]. split.
  { simpl. simpl in Ht1, Hp. rewrite Ht1, Hp. reflexivity. }
  unfold ccFetchJson_refreshed. simpl. split.
  - apply list_lookup_insert_eq. apply lookup_lt_Some in Ht1.
    by destruct creator.
  - by destruct creator.
Qed.

(** ** The request *)

Lemma named_set_same ps k v : named k (searchParams_set ps k v) = [(k, v)].
Proof.
  unfold named. induction ps as [|[k' v'] ps IH]; simpl.
  - by rewrite String.eqb_refl.
  - destruct (String.eqb_spec k' k) as [->|Hne]; simpl.
    + rewrite String.eqb_refl. f_equal.
      clear IH. induction ps as [|[k1 v1] ps IH]; [done|]. simpl.
      destruct (String.eqb_spec k1 k) as [->|Hne1]; simpl; [done|].
      destruct (String.eqb_spec k1 k); [done|]. apply IH.
    + destruct (String.eqb_spec k' k); [done|]. apply IH.
Qed.

Lemma named_set_other ps k v k' :
  k' <> k -> named k' (searchParams_set ps k v) = named k' ps.
Proof.
  intros Hne. unfold named. induction ps as [|[k1 v1] ps IH]; simpl.
  - by destruct (String.eqb_spec k k').
  - destruct (String.eqb_spec k1 k) as [->|Hne1]; simpl.
    + destruct (String.eqb_spec k k'); [done|].
      clear IH. induction ps as [|[k2 v2] ps IH]; [done|]. simpl.
      destruct (String.eqb_spec k2 k) as [->|Hne2]; simpl.
      * destruct (String.eqb_spec k k'); [done|]. apply IH.
      * destruct (String.eqb_spec k2 k'); [by rewrite IH|apply IH].
    + destruct (String.eqb_spec k1 k'); [by rewrite IH|apply IH].
Qed.

Lemma set_fresh ps k v :
  k ∉ List.map fst ps -> searchParams_set ps k v = ps ++ [(k, v)].
Proof.
  induction ps as [|[k' v'] ps IH]; simpl; [done|].
  intros Hnotin. apply not_elem_of_cons in Hnotin as [Hne Hnotin].
  destruct (String.eqb_spec k' k); [done|]. by rewrite IH.
Qed.

(** Entries that are all [undefined] under a name leave the pairs of that
    name alone. *)
Lemma query_omits entries : forall ps k,
  (forall v, (k, v) ∈ entries -> v = VUndefined) ->
  named k (fold_left set_query_entry entries ps) = named k ps.
Proof.
  induction entries as [|[k0 v0] entries IH]; intros ps k Hundef; simpl; [done|].
  rewrite IH by (intros v Hv; apply Hundef; by right).
  unfold set_query_entry. simpl.
  destruct (is_undefined v0) eqn:Hv0; simpl; [done|].
  apply named_set_other. intros ->.
  rewrite (Hundef v0) in Hv0 by (by left). done.
Qed.

(** An entry with a value gives the one pair of its name. *)
Lemma query_sets entries : forall ps k v,
  NoDup (List.map fst entries) ->
  (k, v) ∈ entries ->
  is_undefined v = false ->
  named k (fold_left set_query_entry entries ps) = [(k, ToString v)].
Proof.
  induction entries as [|[k0 v0] entries IH]; intros ps k v Hnodup Hin Hdef;
    simpl in *.
  - by apply elem_of_nil in Hin.
  - apply NoDup_cons in Hnodup as [Hnotin Hnodup].
    apply elem_of_cons in Hin as [[= <- <-]|Hin].
    + rewrite query_omits.
      * unfold set_query_entry. simpl. rewrite Hdef. simpl. apply named_set_same.
      * intros v' Hv'. exfalso. apply Hnotin.
        apply (list_elem_of_fmap_2 fst) in Hv'. done.
    + by apply IH.
Qed.

(** With no pairs in the path, entries under different names are
    appended in their order. *)
Lemma query_appends entries : forall ps,
  NoDup (List.map fst entries) ->
  (forall k, k ∈ List.map fst ps -> k ∉ List.map fst entries) ->
  fold_left set_query_entry entries ps
  = ps ++ List.map (fun kv => (fst kv, ToString (snd kv)))
            (List.filter (fun kv => negb (is_undefined (snd kv))) entries).
Proof.
  induction entries as [|[k0 v0] entries IH]; intros ps Hnodup Hdisj; simpl.
  - by rewrite app_nil_r.
  - apply NoDup_cons in Hnodup as [Hnotin Hnodup].
    unfold set_query_entry at 2. simpl.
    destruct (is_undefined v0); simpl.
    + apply IH; [done|]. intros k Hk Hk'. apply (Hdisj k Hk). by right.
    + rewrite set_fresh.
      2: { intros Hk0. apply (Hdisj k0 Hk0). by left. }
      rewrite IH; [by rewrite <- app_assoc|done|].
      intros k Hk Hk'. rewrite List.map_app in Hk. simpl in Hk.
      apply elem_of_app in Hk as [Hk|Hk].
      * apply (Hdisj k Hk). by right.
      * apply list_elem_of_singleton in Hk as ->. done.
Qed.

(** C8 as amended, the request.  The URL is parsed from the configured
    base URL, less one slash at its end, followed by the path.  A query
    entry whose value is [undefined] is left out: the parameters of its
    name stay as the path has them; every other entry is set under its
    name to its value as a string, which is then the one parameter of
    that name, and with no parameters in the path the entries are
    appended in their order.  The request has the method asked for, [GET]
    by default, the headers [Authorization: Bearer] with the token and
    [Accept: application/json], and it has the header [Content-Type:
    application/json] and the body serialized as JSON if and only if the
    body is truthy.  A new call sends this request with the token that
    [getAccessToken] returns. *)
Theorem request_construction baseUrl token opts url :
  URL_parse (strip_trailing_slash baseUrl +:+ path opts) = Some url ->
  let entries := default [] (query opts) in
  exists req,
    ccFetchJsonWithToken_request baseUrl token opts = Return req
    /\ url_origin_path (req_url req) = url_origin_path url
    /\ url_hash (req_url req) = url_hash url
    /\ (forall k,
          (forall v, (k, v) ∈ entries -> v = VUndefined) ->
          named k (url_searchParams (req_url req))
          = named k (url_searchParams url))
    /\ (NoDup (List.map fst entries) ->
        forall k v,
          (k, v) ∈ entries -> v <> VUndefined ->
          named k (url_searchParams (req_url req)) = [(k, ToString v)])
    /\ (NoDup (List.map fst entries) ->
        url_searchParams url = [] ->
        url_searchParams (req_url req)
        = List.map (fun kv => (fst kv, ToString (snd kv)))
            (List.filter (fun kv => negb (is_undefined (snd kv))) entries))
    /\ req_method req = default GET (method opts)
    /\ req_headers req
       = [("Authorization", "Bearer " +:+ ToString token);
          ("Accept", "application/json")]
         ++ (if truthy (body opts)
             then [("Content-Type", "application/json")] else [])
    /\ req_body req
       = (if truthy (body opts) then Some (JSON_stringify (body opts)) else None)
    /\ (forall s s1,
          requireEnv "CC_BASE_URL" = Return baseUrl ->
          getAccessToken s = (s1, Return token) ->
          exists s',
            step s (Call opts) = Some s'
            /\ upstream_sent s' = upstream_sent s ++ [(length (tasks s), req)]).
Proof.
  intros Hurl entries. eexists. split.
  { unfold ccFetchJsonWithToken_request. rewrite Hurl. reflexivity. }
  simpl.
  assert (Hparams : match query opts with
                    | Some entries0 =>
                        fold_left set_query_entry entries0 (url_searchParams url)
                    | None => url_searchParams url
                    end
                    = fold_left set_query_entry entries (url_searchParams url)).
  { subst entries. by destruct (query opts). }
  rewrite Hparams.
  split; [done|]. split; [done|]. split; [apply query_omits|]. split.
  { intros Hnodup k v Hin Hdef. apply query_sets; [done|done|]. by destruct v. }
  split.
  { intros Hnodup Hnone. rewrite Hnone.
    rewrite query_appends; [done|done|]. by intros k ?%elem_of_nil. }
  split; [done|]. split; [done|]. split; [done|].
  intros s s1 Hbase Hget. eexists. split; [done|]. simpl.
  unfold ccFetchJson_enter. rewrite Hbase, Hget. unfold attempt.
  unfold ccFetchJsonWithToken_request. rewrite Hurl. simpl.
  apply getAccessToken_frame in Hget as (_ & _ & _ & -> & _). by rewrite Hparams.
Qed.

(** ** What calls end with *)

Lemma is_success_ok res : is_success (res_status res) = res_ok res.
Proof. reflexivity. Qed.

Lemma failure_new_Error msg : failure (new_Error msg).
Proof. by intros n. Qed.

Lemma requireEnv_failure name e : requireEnv name = Throw e -> failure e.
Proof.
  unfold requireEnv. destruct (process_env name) as [v|].
  - destruct (truthy (VStr v)); [done|]. intros [= <-]. apply failure_new_Error.
  - intros [= <-]. apply failure_new_Error.
Qed.

Lemma refresh_request_failure e : refresh_request = Throw e -> failure e.
Proof.
  unfold refresh_request.
  destruct (requireEnv "CC_CLIENT_ID") as [clientId|e1] eqn:E1; simpl.
  - destruct (requireEnv "CC_REFRESH_TOKEN") as [refreshToken|e2] eqn:E2; simpl.
    + done.
    + intros [= <-]. by eapply requireEnv_failure.
  - intros [= <-]. by eapply requireEnv_failure.
Qed.

Lemma request_failure baseUrl token opts e :
  ccFetchJsonWithToken_request baseUrl token opts = Throw e -> failure e.
Proof.
  unfold ccFetchJsonWithToken_request. destruct (URL_parse _); [done|].
  intros [= <-]. apply failure_new_Error.
Qed.

(** What [ccFetchJsonWithToken] makes of a settled request. *)
Lemma settled_outcome r :
  match bind (fetched r) ccFetchJsonWithToken_response with
  | Return out =>
      is_success (out_status out) = true /\ nullish (out_data out) = false
  | Throw e => failure e
  end.
Proof.
  destruct r as [res|reason]; simpl; [|apply failure_new_Error].
  unfold ccFetchJsonWithToken_response.
  destruct (res_ok res) eqn:Hok; simpl.
  - split; [done|]. unfold coalesce. by destruct (nullish (parsed _)) eqn:E.
  - intros n [= <-]. done.
Qed.

(** What the function of line 94 settles with. *)
Lemma refresh_settle_outcome r s :
  match snd (refresh_settle r s) with
  | Return token => truthy token = true
  | Throw e => failure e
  end.
Proof.
  destruct r as [res|reason]; simpl; [|apply failure_new_Error].
  unfold refresh_response. destruct (res_ok res) eqn:Hok; simpl.
  - destruct (truthy (get _ "access_token")) eqn:Htoken; simpl; [done|].
    apply failure_new_Error.
  - intros n [= <-]. done.
Qed.

(** [getAccessToken] returns a token that is truthy, and throws an error
    without a status. *)
Lemma getAccessToken_outcome s :
  match snd (getAccessToken s) with
  | Return token => truthy token = true
  | Throw e => failure e
  end.
Proof.
  unfold getAccessToken.
  destruct (truthy (accessTokenCache s)) eqn:Hcache; simpl.
  - by rewrite Hcache.
  - destruct (truthy (coalesce _ _)) eqn:Henv; simpl; [done|].
    apply failure_new_Error.
Qed.

Lemma outcomes_sound_initial : outcomes_sound initial.
Proof. split; intros ? ? [=]. Qed.

Lemma outcomes_sound_step s ev s' :
  outcomes_sound s -> step s ev = Some s' -> outcomes_sound s'.
Proof.
  intros [Hcalls Hpromises] Hstep.
  destruct ev as [opts|t r|p r|t]; simpl in Hstep.
  - (* a call *)
    injection Hstep as <-. unfold ccFetchJson_enter, add_task.
    assert (Hended : forall s1 e, tasks s1 = tasks s -> promises s1 = promises s ->
               failure e ->
               outcomes_sound (set_tasks (tasks s1 ++ [Finished (Throw e)]) s1)).
    { intros s1 e Ht Hp He. split; simpl.
      - intros t o. rewrite Ht. intros Hlk. lookups; [by eapply Hcalls|done].
      - rewrite Hp. apply Hpromises. }
    destruct (requireEnv "CC_BASE_URL") as [baseUrl|e] eqn:Hbase; simpl.
    2: { apply Hended; [done|done|]. by eapply requireEnv_failure. }
    pose proof (getAccessToken_outcome s) as Hget.
    destruct (getAccessToken s) as [s1 [token|e]] eqn:Hs1;
      apply getAccessToken_frame in Hs1 as (E1 & E2 & E3 & E4 & E5); simpl in Hget.
    2: { by apply Hended. }
    unfold attempt.
    destruct (ccFetchJsonWithToken_request baseUrl token opts) as [req|e] eqn:Hreq;
      simpl.
    2: { apply Hended; [done|done|]. by eapply request_failure. }
    split; simpl.
    + intros t o. rewrite E3. intros Hlk. lookups. by eapply Hcalls.
    + rewrite E2. apply Hpromises.
  - (* a request settles *)
    pose proof (settled_outcome r) as Hout.
    destruct (tasks s !! t) as [[b o|b o p c|b o|o]|] eqn:Ht; try done;
      injection Hstep as <-.
    + unfold ccFetchJson_first.
      destruct (bind (fetched r) ccFetchJsonWithToken_response) as [out|e].
      { split; simpl; [|done]. intros t0 o0 Hlk. lookups; [done|by eapply Hcalls]. }
      destruct (status_is e 401).
      2: { split; simpl; [|done]. intros t0 o0 Hlk. lookups; [done|by eapply Hcalls]. }
      unfold refreshAccessToken_enter.
      destruct (refreshInFlight s) as [p|].
      { split; simpl; [|done]. intros t0 o0 Hlk. lookups. by eapply Hcalls. }
      destruct refresh_request as [req|e'] eqn:Hreq; split; simpl.
      * intros t0 o0 Hlk. lookups. by eapply Hcalls.
      * intros p0 o0 Hlk. lookups. by eapply Hpromises.
      * intros t0 o0 Hlk. lookups. by eapply Hcalls.
      * intros p0 o0 Hlk. lookups; [by eapply Hpromises|].
        by eapply refresh_request_failure.
    + unfold ccFetchJson_second. split; simpl; [|done].
      intros t0 o0 Hlk. lookups; [done|by eapply Hcalls].
  - (* the token request settles *)
    destruct (promises s !! p) as [[o|]|] eqn:Hp; try done.
    pose proof (refresh_settle_outcome r s) as Hout.
    destruct (refresh_settle r s) as [s1 o] eqn:Hsettle. injection Hstep as <-.
    assert (promises s1 = promises s /\ tasks s1 = tasks s) as [E1 E2].
    { destruct r as [res|reason]; simpl in Hsettle.
      - unfold refresh_response in Hsettle.
        repeat case_match; simplify_eq; done.
      - by simplify_eq. }
    split; simpl.
    + rewrite E2. apply Hcalls.
    + rewrite E1. intros p0 o0 Hlk. lookups; [done|by eapply Hpromises].
  - (* a call resumes *)
    destruct (tasks s !! t) as [[b o|b o p c|b o|o]|] eqn:Ht; try done.
    destruct (promises s !! p) as [[out|]|] eqn:Hp; try done. injection Hstep as <-.
    pose proof (Hpromises _ _ Hp) as Hout.
    unfold ccFetchJson_refreshed, attempt.
    destruct out as [newToken|e].
    + destruct (ccFetchJsonWithToken_request b newToken o) as [req|e] eqn:Hreq;
        split; simpl.
      * intros t0 o0 Hlk. destruct c; simpl in Hlk; lookups; by eapply Hcalls.
      * by destruct c.
      * intros t0 o0 Hlk. destruct c; simpl in Hlk; lookups;
          first [by eapply request_failure | by eapply Hcalls].
      * by destruct c.
    + split; simpl.
      * intros t0 o0 Hlk. destruct c; simpl in Hlk; lookups;
          first [done | by eapply Hcalls].
      * by destruct c.
Qed.

Lemma outcomes_sound_reachable s : reachable s -> outcomes_sound s.
Proof.
  apply reachable_ind; [apply outcomes_sound_initial|].
  intros s0 ev s1. apply outcomes_sound_step.
Qed.

Lemma requests_built_initial : requests_built initial.
Proof. by intros t ph [=]. Qed.

Lemma built_same baseUrl opts r1 r2 :
  built baseUrl opts r1 -> built baseUrl opts r2 -> same_but_token r1 r2.
Proof.
  unfold built, ccFetchJsonWithToken_request.
  intros (tok1 & _ & H1) (tok2 & _ & H2).
  destruct (URL_parse _) as [url|]; [|done].
  injection H1 as <-. injection H2 as <-. unfold same_but_token. simpl.
  repeat split. eauto.
Qed.

Lemma requests_built_step s ev s' :
  outcomes_sound s -> attempts_counted s -> requests_built s ->
  step s ev = Some s' -> requests_built s'.
Proof.
  unfold attempts_counted, requests_built, requests_of.
  intros [_ Hpromises] [_ Hnone] Hbuilt Hstep.
  destruct ev as [opts|t r|p r|t]; simpl in Hstep.
  - (* a call *)
    injection Hstep as <-. unfold ccFetchJson_enter, add_task.
    assert (Hended : forall s1 e, tasks s1 = tasks s ->
               upstream_sent s1 = upstream_sent s ->
               forall t ph,
                 tasks (set_tasks (tasks s1 ++ [Finished (Throw e)]) s1) !! t = Some ph ->
                 match ph with
                 | FirstAttempt baseUrl opts | Refreshing baseUrl opts _ _
                 | RetryAttempt baseUrl opts =>
                     Forall (built baseUrl opts)
                       (sent_for t (upstream_sent
                          (set_tasks (tasks s1 ++ [Finished (Throw e)]) s1)))
                 | Finished _ =>
                     exists baseUrl opts,
                       Forall (built baseUrl opts)
                         (sent_for t (upstream_sent
                            (set_tasks (tasks s1 ++ [Finished (Throw e)]) s1)))
                 end).
    { intros s1 e Ht Hu t ph. simpl. rewrite Ht, Hu. intros Hlk. lookups.
      - by apply Hbuilt.
      - rewrite Hnone by done. exists "", opts. constructor. }
    destruct (requireEnv "CC_BASE_URL") as [baseUrl|e] eqn:Hbase; simpl.
    2: { by apply Hended. }
    pose proof (getAccessToken_outcome s) as Hget.
    destruct (getAccessToken s) as [s1 [token|e]] eqn:Hs1;
      apply getAccessToken_frame in Hs1 as (E1 & E2 & E3 & E4 & E5); simpl in Hget.
    2: { by apply Hended. }
    unfold attempt.
    destruct (ccFetchJsonWithToken_request baseUrl token opts) as [req|e] eqn:Hreq;
      simpl.
    2: { by apply Hended. }
    intros t ph. rewrite E3, E4, sent_for_snoc. intros Hlk. lookups.
    + destruct (Nat.eqb_spec (length (tasks s)) t); [lia|].
      rewrite app_nil_r. by apply Hbuilt.
    + rewrite Nat.eqb_refl, Hnone by done. simpl.
      apply Forall_singleton. by exists token.
  - (* a request settles *)
    destruct (tasks s !! t) as [[b o|b o p c|b o|o]|] eqn:Ht; try done;
      injection Hstep as <-; pose proof (Hbuilt _ _ Ht) as Hmine; simpl in Hmine.
    + unfold ccFetchJson_first.
      assert (Hended : forall out t0 ph,
                 <[t:=Finished out]> (tasks s) !! t0 = Some ph ->
                 match ph with
                 | FirstAttempt baseUrl opts | Refreshing baseUrl opts _ _
                 | RetryAttempt baseUrl opts =>
                     Forall (built baseUrl opts) (sent_for t0 (upstream_sent s))
                 | Finished _ =>
                     exists baseUrl opts,
                       Forall (built baseUrl opts) (sent_for t0 (upstream_sent s))
                 end).
      { intros out t0 ph Hlk. lookups; [by eauto|by apply Hbuilt]. }
      destruct (bind (fetched r) ccFetchJsonWithToken_response) as [out|e];
        [by apply Hended|].
      destruct (status_is e 401); [|by apply Hended].
      unfold refreshAccessToken_enter.
      destruct (refreshInFlight s) as [p|]; simpl.
      { intros t0 ph Hlk. lookups; [done|by apply Hbuilt]. }
      destruct refresh_request as [req|e']; simpl;
        intros t0 ph Hlk; lookups; first [done | by apply Hbuilt].
    + unfold ccFetchJson_second. simpl.
      intros t0 ph Hlk. lookups; [by eauto|by apply Hbuilt].
  - (* the token request settles *)
    destruct (promises s !! p) as [[o|]|] eqn:Hp; try done.
    destruct (refresh_settle r s) as [s1 o] eqn:Hsettle. injection Hstep as <-.
    assert (upstream_sent s1 = upstream_sent s /\ tasks s1 = tasks s) as [E1 E2].
    { destruct r as [res|reason]; simpl in Hsettle.
      - unfold refresh_response in Hsettle.
        repeat case_match; simplify_eq; done.
      - by simplify_eq. }
    simpl. rewrite E1, E2. apply Hbuilt.
  - (* a call resumes *)
    destruct (tasks s !! t) as [[b o|b o p c|b o|o]|] eqn:Ht; try done.
    destruct (promises s !! p) as [[out|]|] eqn:Hp; try done. injection Hstep as <-.
    pose proof (Hpromises _ _ Hp) as Hout. pose proof (Hbuilt _ _ Ht) as Hmine.
    simpl in Hmine.
    unfold ccFetchJson_refreshed, attempt.
    destruct out as [newToken|e].
    + destruct (ccFetchJsonWithToken_request b newToken o) as [req|e] eqn:Hreq.
      * intros t0 ph. destruct c; simpl; rewrite sent_for_snoc; intros Hlk; lookups.
        all: try (rewrite Nat.eqb_refl; apply Forall_app; split; [done|];
                  apply Forall_singleton; by exists newToken).
        all: destruct (Nat.eqb_spec t t0); [done|]; rewrite app_nil_r;
          by apply Hbuilt.
      * intros t0 ph. destruct c; simpl; intros Hlk; lookups;
          first [by eauto | by apply Hbuilt].
    + intros t0 ph. destruct c; simpl; intros Hlk; lookups;
        first [by eauto | by apply Hbuilt].
Qed.

Lemma requests_built_reachable s : reachable s -> requests_built s.
Proof.
  intros Hreach.
  assert (Hall : outcomes_sound s /\ attempts_counted s /\ requests_built s);
    [|by destruct Hall as (_ & _ & Hall)].
  revert s Hreach. apply reachable_ind.
  - split; [apply outcomes_sound_initial|].
    split; [apply attempts_initial|apply requests_built_initial].
  - intros s ev s' (H1 & H2 & H3) Hstep.
    split; [by eapply outcomes_sound_step|].
    split; [by eapply attempts_step|by eapply requests_built_step].
Qed.

(** A call that has sent a request is a call of the state. *)
Lemma requests_of_task s t req :
  reachable s -> req ∈ requests_of t s -> is_Some (tasks s !! t).
Proof.
  intros Hreach Hreq. destruct (attempts_reachable s Hreach) as [_ Hnone].
  apply lookup_lt_is_Some. destruct (decide (t < length (tasks s))); [done|].
  rewrite Hnone in Hreq by lia. by apply elem_of_nil in Hreq.
Qed.

Lemma requests_of_built s t :
  reachable s ->
  exists baseUrl opts, Forall (built baseUrl opts) (requests_of t s).
Proof.
  intros Hreach. destruct (tasks s !! t) as [ph|] eqn:Ht.
  - pose proof (requests_built_reachable s Hreach t ph Ht) as Hbuilt.
    destruct ph; eauto.
  - destruct (attempts_reachable s Hreach) as [_ Hnone].
    rewrite Hnone by (by apply lookup_ge_None). exists "", (mkFetchOpts None "" None VNull).
    constructor.
Qed.

(** X1, what a call ends with.  In every reachable state, a call that has
    returned has returned a status from 200 to 299 and data that is
    neither [null] nor [undefined]; and an error that a call has thrown
    has no [status], or a status outside 200 to 299. *)
Theorem call_outcomes s t o :
  reachable s ->
  tasks s !! t = Some (Finished o) ->
  match o with
  | Return out =>
      (200 <= out_status out <= 299)%Z
      /\ out_data out <> VNull /\ out_data out <> VUndefined
  | Throw e =>
      forall n, status e = Some n -> (n < 200 \/ 299 < n)%Z
  end.
Proof.
  intros Hreach Ht.
  destruct (outcomes_sound_reachable s Hreach) as [Hcalls _].
  specialize (Hcalls t o Ht). destruct o as [out|e].
  - destruct Hcalls as [Hok Hdata]. unfold is_success in Hok.
    apply andb_true_iff in Hok as [?%Z.leb_le ?%Z.leb_le].
    split; [lia|]. split; intros Heq; by rewrite Heq in Hdata.
  - intros n Hn. specialize (Hcalls n Hn). unfold is_success in Hcalls.
    apply andb_false_iff in Hcalls as [?%Z.leb_gt|?%Z.leb_gt]; lia.
Qed.


(** X3, the retry repeats the request.  In every reachable state, when a
    call has sent two requests, the second has the URL, the method, the
    body, the cache mode and the headers of the first, the
    [Authorization] header apart. *)
Theorem retry_repeats_request s t r1 r2 :
  reachable s ->
  requests_of t s = [r1; r2] ->
  same_but_token r1 r2.
Proof.
  intros Hreach Hreqs.
  destruct (requests_of_built s t Hreach) as (baseUrl & opts & Hall).
  rewrite Hreqs in Hall.
  apply Forall_cons in Hall as [H1 Hall]. apply Forall_cons in Hall as [H2 _].
  by eapply built_same.
Qed.

(** X4, the token request.  In every reachable state, each request that
    has gone to the token endpoint is a [POST] to
    [https://authz.constantcontact.com/oauth2/default/v1/token], not cached,
    with a form content type, and its form has the grant type
    [refresh_token], the refresh token and the client identifier of the
    environment, in this order, both of them set and not empty; it was sent
    for a promise of the state, and no other request was sent for that
    promise. *)
Theorem token_request_shape s p req :
  reachable s ->
  (p, req) ∈ token_sent s ->
  tok_url req = "https://authz.constantcontact.com/oauth2/default/v1/token"
  /\ tok_method req = POST
  /\ tok_headers req
     = [("Content-Type", "application/x-www-form-urlencoded");
        ("Accept", "application/json")]
  /\ tok_cache req = "no-store"
  /\ (exists clientId refreshToken,
        process_env "CC_CLIENT_ID" = Some clientId /\ clientId <> ""
        /\ process_env "CC_REFRESH_TOKEN" = Some refreshToken
        /\ refreshToken <> ""
        /\ tok_form req
           = [("grant_type", "refresh_token");
              ("refresh_token", refreshToken);
              ("client_id", clientId)])
  /\ p < length (promises s)
  /\ token_requests_of p s = [req].
Proof.
  intros Hreach Hin. pose proof (token_log_reachable s Hreach) as Hlog.
  unfold token_log_matches in Hlog.
  destruct refresh_request as [req0|e] eqn:Hreq.
  2: { destruct Hlog as [Hnil _]. rewrite Hnil in Hin. by apply elem_of_nil in Hin. }
  assert (Hp : p < length (promises s) /\ req = req0).
  { rewrite Hlog in Hin. apply list_elem_of_fmap in Hin as (q & [= -> ->] & Hq).
    apply elem_of_seq in Hq. split; [lia|done]. }
  destruct Hp as [Hp ->].
  assert (Hone : token_requests_of p s = [req0]).
  { unfold token_requests_of. rewrite Hlog, sent_for_seq. by case_decide. }
  unfold refresh_request, requireEnv in Hreq.
  destruct (process_env "CC_CLIENT_ID") as [clientId|] eqn:Hid; [|done].
  destruct (truthy (VStr clientId)) eqn:Hid'; [|done].
  destruct (process_env "CC_REFRESH_TOKEN") as [refreshToken|] eqn:Hrt; [|done].
  destruct (truthy (VStr refreshToken)) eqn:Hrt'; [|done].
  simpl in Hreq. injection Hreq as <-. simpl.
  repeat split; try done.
  exists clientId, refreshToken. repeat split; try done.
  - intros ->. done.
  - intros ->. done.
Qed.

(** A call is inside [refreshAccessToken] when its rank is 1. *)
Lemma awaits_rank s t :
  rank <$> tasks s !! t = Some 1 <-> exists p, awaits s t p.
Proof.
  unfold awaits. split.
  - destruct (tasks s !! t) as [[b o|b o p c|b o|o]|]; try done. eauto.
  - by intros (p & b & o & c & ->).
Qed.

(** A turn that starts a refresh, or takes a call into one, answers a
    first request with 401. *)
Lemma refresh_entry s ev s' :
  step s ev = Some s' ->
  length (promises s) < length (promises s')
  \/ token_sent s' <> token_sent s
  \/ (exists t, rank <$> tasks s' !! t = Some 1
                /\ rank <$> tasks s !! t <> Some 1) ->
  exists t baseUrl opts res,
    ev = UpstreamSettles t (Responded res)
    /\ res_status res = 401%Z
    /\ tasks s !! t = Some (FirstAttempt baseUrl opts).
Proof.
  intros Hstep Hnew. destruct ev as [opts|t r|p r|t]; simpl in Hstep.
  - (* a call *)
    exfalso. injection Hstep as <-. revert Hnew. unfold ccFetchJson_enter, add_task.
    assert (Hended : forall s1 ph, tasks s1 = tasks s -> promises s1 = promises s ->
               token_sent s1 = token_sent s -> rank ph <> 1 ->
               length (promises s) < length (promises (set_tasks (tasks s1 ++ [ph]) s1))
               \/ token_sent (set_tasks (tasks s1 ++ [ph]) s1) <> token_sent s
               \/ (exists t, rank <$> tasks (set_tasks (tasks s1 ++ [ph]) s1) !! t = Some 1
                             /\ rank <$> tasks s !! t <> Some 1) -> False).
    { intros s1 ph Ht Hp Hk Hph. simpl. rewrite Ht, Hp, Hk.
      intros [?|[?|(t & Hlk & Hold)]]; [lia|done|].
      destruct ((tasks s ++ [ph]) !! t) as [ph'|] eqn:E; [|done].
      apply lookup_snoc_Some in E as [[_ E]|[_ <-]].
      - by rewrite E in Hold.
      - simpl in Hlk. congruence. }
    destruct (requireEnv "CC_BASE_URL") as [baseUrl|e]; simpl; [|by apply Hended].
    destruct (getAccessToken s) as [s1 [token|e]] eqn:Hs1;
      apply getAccessToken_frame in Hs1 as (E1 & E2 & E3 & E4 & E5);
      [|by apply Hended].
    unfold attempt.
    destruct (ccFetchJsonWithToken_request baseUrl token opts) as [req|e];
      [|by apply Hended].
    apply (Hended (send_upstream (length (tasks s)) req s1)); done.
  - (* a request settles *)
    assert (Hended : forall o,
               length (promises s) < length (promises s)
               \/ token_sent s <> token_sent s
               \/ (exists t0, rank <$> <[t:=Finished o]> (tasks s) !! t0 = Some 1
                              /\ rank <$> tasks s !! t0 <> Some 1) -> False).
    { intros o [?|[?|(t0 & Hlk & Hold)]]; [lia|done|].
      destruct (decide (t0 = t)) as [->|Hne].
      - destruct (tasks s !! t) eqn:E; [|by rewrite lookup_ge_None_2 in Hlk;
          [|rewrite length_insert; by apply lookup_ge_None]].
        rewrite list_lookup_insert_eq in Hlk by (by eapply lookup_lt_Some). done.
      - by rewrite list_lookup_insert_ne in Hlk. }
    destruct (tasks s !! t) as [[b o|b o p c|b o|o]|] eqn:Ht; try done;
      injection Hstep as <-; revert Hnew.
    + unfold ccFetchJson_first.
      destruct r as [res|reason]; simpl.
      2: { intros Hnew. exfalso. by eapply Hended. }
      unfold ccFetchJsonWithToken_response.
      destruct (res_ok res); simpl.
      { intros Hnew. exfalso. by eapply Hended. }
      unfold status_is. simpl.
      destruct (Z.eqb_spec (res_status res) 401) as [H401|Hne].
      * intros _. by exists t, b, o, res.
      * intros Hnew. exfalso. by eapply Hended.
    + unfold ccFetchJson_second. simpl. intros Hnew. exfalso. by eapply Hended.
  - (* the token request settles *)
    exfalso. destruct (promises s !! p) as [[o|]|] eqn:Hp; try done.
    destruct (refresh_settle r s) as [s1 o] eqn:Hsettle. injection Hstep as <-.
    assert (promises s1 = promises s /\ tasks s1 = tasks s
            /\ token_sent s1 = token_sent s) as (E1 & E2 & E3).
    { destruct r as [res|reason]; simpl in Hsettle.
      - unfold refresh_response in Hsettle.
        repeat case_match; simplify_eq; done.
      - by simplify_eq. }
    simpl in Hnew. rewrite E1, E2, E3, length_insert in Hnew.
    destruct Hnew as [?|[?|(t & Hlk & Hold)]]; [lia|done|done].
  - (* a call resumes *)
    exfalso.
    destruct (tasks s !! t) as [[b o|b o p c|b o|o]|] eqn:Ht; try done.
    destruct (promises s !! p) as [[out|]|] eqn:Hp; try done. injection Hstep as <-.
    assert (Hmoved : forall s1 ph, tasks s1 = tasks s -> promises s1 = promises s ->
               token_sent s1 = token_sent s -> rank ph <> 1 ->
               length (promises s) < length (promises (set_task t (s1, ph)))
               \/ token_sent (set_task t (s1, ph)) <> token_sent s
               \/ (exists t0, rank <$> tasks (set_task t (s1, ph)) !! t0 = Some 1
                              /\ rank <$> tasks s !! t0 <> Some 1) -> False).
    { intros s1 ph E1 E2 E3 Hph. unfold set_task. simpl. rewrite E1, E2, E3.
      intros [?|[?|(t0 & Hlk & Hold)]]; [lia|done|].
      destruct (decide (t0 = t)) as [->|Hne].
      - rewrite list_lookup_insert_eq in Hlk by (by eapply lookup_lt_Some).
        simpl in Hlk. congruence.
      - by rewrite list_lookup_insert_ne in Hlk. }
    revert Hnew. unfold ccFetchJson_refreshed, attempt.
    destruct out as [newToken|e].
    + destruct (ccFetchJsonWithToken_request b newToken o) as [req|e];
        apply Hmoved; by destruct c.
    + apply Hmoved; by destruct c.
Qed.

(** X5, a refresh starts on a 401 only.  Whenever a turn of the event
    loop makes a promise, sends a request to the token endpoint or takes a
    call into [refreshAccessToken], that turn is the first request of a
    call being answered with status 401: no other status, no failure of
    the network, no second request and no new call does it. *)
Theorem refresh_starts_on_401_only s ev s' :
  step s ev = Some s' ->
  length (promises s) < length (promises s')
  \/ token_sent s' <> token_sent s
  \/ (exists t p, awaits s' t p /\ forall q, ~ awaits s t q) ->
  exists t baseUrl opts res,
    ev = UpstreamSettles t (Responded res)
    /\ res_status res = 401%Z
    /\ tasks s !! t = Some (FirstAttempt baseUrl opts).
Proof.
  intros Hstep Hnew. apply (refresh_entry s ev s' Hstep).
  destruct Hnew as [?|[?|(t & p & Hnow & Hbefore)]]; [by left|by right; left|].
  right. right. exists t. split.
  - apply awaits_rank. by exists p.
  - intros [q Hq]%awaits_rank. by apply (Hbefore q).
Qed.

Lemma absent_coalesce name :
  truthy (coalesce (env_value name) VNull) = negb (absent name).
Proof.
  unfold absent. rewrite negb_involutive. by destruct (env_value name).
Qed.

(** X6, a call needs the base URL and an access token.  With
    [CC_BASE_URL] or [CC_ACCESS_TOKEN] absent from the environment (not
    set, or set to nothing), every reachable state is the state of the
    loaded module with a list of calls that have all ended with the error
    [Missing environment variable:] and the name of the variable, the base
    URL when both are absent: nothing has been sent upstream or to the
    token endpoint, no promise has been made, and the token is as it was
    loaded, whether or not the refresh token and the client identifier are
    there. *)
Theorem entry_requires_configuration s :
  absent "CC_BASE_URL" = true \/ absent "CC_ACCESS_TOKEN" = true ->
  reachable s ->
  exists n,
    s = set_tasks
          (replicate n
             (Finished
                (Throw (new_Error
                          ("Missing environment variable: " +:+ missing_on_entry)))))
          initial.
Proof.
  intros Habsent Hreach. revert s Hreach. apply reachable_ind.
  - by exists 0.
  - intros s0 ev s' [n ->] Hstep.
    destruct ev as [opts|t r|p r|t]; simpl in Hstep.
    + injection Hstep as <-. exists (S n).
      unfold ccFetchJson_enter, add_task, missing_on_entry.
      replace (S n) with (n + 1) by lia. rewrite replicate_add. simpl.
      destruct (absent "CC_BASE_URL") eqn:Hbase.
      { by rewrite (requireEnv_absent _ Hbase). }
      destruct (requireEnv_present _ Hbase) as [baseUrl ->].
      destruct Habsent as [|Htoken]; [done|].
      unfold getAccessToken. simpl.
      pose proof (absent_coalesce "CC_ACCESS_TOKEN") as Hfalsy.
      rewrite Htoken in Hfalsy. simpl in Hfalsy. rewrite Hfalsy. simpl.
      by rewrite Hfalsy.
    + destruct (replicate n _ !! t) as [ph|] eqn:Ht; [|done].
      apply lookup_replicate in Ht as [-> _]. done.
    + done.
    + destruct (replicate n _ !! t) as [ph|] eqn:Ht; [|done].
      apply lookup_replicate in Ht as [-> _]. done.
Qed.

(** X7, the token in memory.  With [CC_ACCESS_TOKEN] set and not empty,
    [accessTokenCache] is truthy in every reachable state, so
    [getAccessToken] returns it and writes nothing: after the module is
    loaded, line 46 never changes the token and line 49 never throws. *)
Theorem getAccessToken_returns_cache s :
  absent "CC_ACCESS_TOKEN" = false ->
  reachable s ->
  truthy (accessTokenCache s) = true
  /\ getAccessToken s = (s, Return (accessTokenCache s)).
Proof.
  intros Hpresent Hreach.
  assert (Hcache : truthy (accessTokenCache s) = true).
  { revert s Hreach. apply reachable_ind.
    - simpl. by rewrite absent_coalesce, Hpresent.
    - intros s ev s' Hcache Hstep.
      destruct (token_kept s ev s' Hcache Hstep) as [->|(p & res & -> & Hok)];
        [done|].
      simpl in Hstep. destruct (promises s !! p) as [[o|]|]; try done.
      unfold refresh_response in Hstep. rewrite Hok in Hstep. simpl in Hstep.
      destruct (truthy (get _ "access_token")) eqn:Htoken; simpl in Hstep;
        by injection Hstep as <-. }
  split; [done|]. unfold getAccessToken. rewrite Hcache. simpl. by rewrite Hcache.
Qed.

(** X8, no call waits for a refresh that is not under way.  In every
    reachable state, the promise that a call awaits inside
    [refreshAccessToken] has settled, or it is pending with exactly one
    request out to the token endpoint for it.  Either way the call can go
    on: once the promise has settled, the call resumes. *)
Theorem awaited_refresh_is_under_way s t p :
  reachable s ->
  awaits s t p ->
  ((exists o, promises s !! p = Some (Some o))
   \/ (pending s p /\ exists req, token_requests_of p s = [req]))
  /\ (forall o, promises s !! p = Some (Some o) ->
        exists s', step s (Resume t) = Some s').
Proof.
  intros Hreach (baseUrl & opts & creator & Ht).
  pose proof (awaited_allocated s (coordinated_reachable s Hreach) _ _ _ _ _ Ht)
    as Hlt.
  split.
  - pose proof (token_log_reachable s Hreach) as Hlog.
    unfold token_log_matches in Hlog.
    destruct (lookup_lt_is_Some_2 _ _ Hlt) as [[o|] Hp]; [by left; eauto|].
    right. split; [done|].
    destruct refresh_request as [req|e].
    + exists req. unfold token_requests_of. rewrite Hlog, sent_for_seq.
      by case_decide.
    + destruct Hlog as [_ Hall].
      pose proof (Forall_lookup_1 _ _ _ _ Hall Hp). done.
  - intros o Hp. simpl. rewrite Ht, Hp. eauto.
Qed.

Lemma issued_step s ev s' token :
  step s ev = Some s' -> issued s token -> issued s' token.
Proof.
  intros Hstep [->|[p Hp]]; [by left|]. right. exists p. by eapply settled_step.
Qed.

Lemma tokens_issued_initial : tokens_issued initial.
Proof. split; [by left|]. by intros t req ?%elem_of_nil. Qed.

Lemma tokens_issued_step s ev s' :
  tokens_issued s -> step s ev = Some s' -> tokens_issued s'.
Proof.
  intros [Hcache Hsent] Hstep.
  assert (Hold : forall t req, (t, req) ∈ upstream_sent s ->
            exists token,
              issued s' token
              /\ authorization req = Some ("Bearer " +:+ ToString token)).
  { intros t req Hin. destruct (Hsent t req Hin) as (token & Htoken & Hauth).
    exists token. split; [by eapply issued_step|done]. }
  assert (Hcache' : issued s' (accessTokenCache s)) by (by eapply issued_step).
  destruct ev as [opts|t r|p r|t]; simpl in Hstep.
  - (* a call *)
    clear Hcache'. injection Hstep as <-. revert Hold.
    unfold ccFetchJson_enter, add_task.
    destruct (requireEnv "CC_BASE_URL") as [baseUrl|e]; simpl; [|done].
    assert (Hget : exists s1,
               getAccessToken s = (s1, snd (getAccessToken s))
               /\ issued s (accessTokenCache s1)
               /\ match snd (getAccessToken s) with
                  | Return token => token = accessTokenCache s1
                  | Throw _ => True
                  end).
    { unfold getAccessToken.
      destruct (truthy (accessTokenCache s)) eqn:E; simpl.
      - rewrite E. simpl. eauto.
      - destruct (truthy (coalesce _ _)); simpl; eexists; (split; [done|]);
          split; try done; by left. }
    destruct Hget as (s1 & Hs1 & Hissued & Htoken). rewrite Hs1.
    apply getAccessToken_frame in Hs1 as (E1 & E2 & E3 & E4 & E5).
    assert (Hissued' : forall ts s2, promises s2 = promises s1 ->
               accessTokenCache s2 = accessTokenCache s1 ->
               issued (set_tasks ts s2) (accessTokenCache s1)).
    { intros ts s2 Hp Hc. destruct Hissued as [Heq|[p Hp0]]; [by left|].
      right. exists p. simpl. by rewrite Hp, E2. }
    destruct (snd (getAccessToken s)) as [token|e]; simpl.
    2: { intros Hold. split; [by apply Hissued'|]. simpl. by rewrite E4. }
    subst token. unfold attempt.
    destruct (ccFetchJsonWithToken_request baseUrl _ opts) as [req|e] eqn:Hreq;
      simpl.
    2: { intros Hold. split; [by apply Hissued'|]. simpl. by rewrite E4. }
    intros Hold. split; [by apply (Hissued' _ (send_upstream _ _ s1))|]. simpl.
    rewrite E4. intros t0 req0 [Hin|Hin]%elem_of_app; [by eapply Hold|].
    apply list_elem_of_singleton in Hin as [= -> ->].
    exists (accessTokenCache s1).
    split; [by apply (Hissued' _ (send_upstream _ _ s1))|].
    by eapply request_authorization.
  - (* a request settles *)
    destruct (tasks s !! t) as [[b o|b o p c|b o|o]|] eqn:Ht; try done;
      injection Hstep as <-.
    + revert Hold Hcache'. unfold ccFetchJson_first.
      destruct (bind (fetched r) ccFetchJsonWithToken_response) as [out|e];
        [done|].
      destruct (status_is e 401); [|done].
      unfold refreshAccessToken_enter. destruct (refreshInFlight s); [done|].
      by destruct refresh_request.
    + done.
  - (* the token request settles *)
    destruct (promises s !! p) as [[o|]|] eqn:Hp; try done.
    destruct (refresh_settle r s) as [s1 o] eqn:Hsettle. injection Hstep as <-.
    assert (Hs1 : promises s1 = promises s /\ upstream_sent s1 = upstream_sent s
                  /\ (accessTokenCache s1 = accessTokenCache s
                      \/ o = Return (accessTokenCache s1))).
    { destruct r as [res|reason]; simpl in Hsettle.
      - unfold refresh_response in Hsettle.
        repeat case_match; simplify_eq; simpl; eauto.
      - simplify_eq. eauto. }
    destruct Hs1 as (E1 & E2 & Hwritten). split; simpl.
    + destruct Hwritten as [->| ->]; [exact Hcache'|].
      right. exists p. simpl. rewrite E1.
      apply list_lookup_insert_eq. by eapply lookup_lt_Some.
    + rewrite E2. exact Hold.
  - (* a call resumes *)
    destruct (tasks s !! t) as [[b o|b o p c|b o|o]|] eqn:Ht; try done.
    destruct (promises s !! p) as [[out|]|] eqn:Hp; try done. injection Hstep as <-.
    revert Hold Hcache'. unfold ccFetchJson_refreshed, attempt.
    destruct out as [newToken|e]; [|by destruct c].
    destruct (ccFetchJsonWithToken_request b newToken o) as [req|e] eqn:Hreq;
      [|by destruct c].
    intros Hold Hcache'. split; [by destruct c|].
    assert (Hnew : issued (set_task t
                     (send_upstream t req (refreshAccessToken_finally c s),
                      RetryAttempt b o)) newToken).
    { right. exists p. by destruct c. }
    intros t0 req0 Hin.
    assert (Hin' : (t0, req0) ∈ upstream_sent s ++ [(t, req)]) by (by destruct c).
    apply elem_of_app in Hin' as [Hin'|Hin']; [by eapply Hold|].
    apply list_elem_of_singleton in Hin' as [= -> ->].
    exists newToken. split; [done|]. by eapply request_authorization.
Qed.

(** X9, where the tokens come from.  In every reachable state, the token
    in memory is the token the module was loaded with or a token that a
    refresh has returned, and so is the token in the [Authorization]
    header of every request that has been sent upstream. *)
Theorem tokens_are_issued s :
  reachable s ->
  issued s (accessTokenCache s)
  /\ forall t req, req ∈ requests_of t s ->
       exists token,
         issued s token
         /\ authorization req = Some ("Bearer " +:+ ToString token).
Proof.
  intros Hreach.
  assert (Hinv : tokens_issued s).
  { revert s Hreach. apply reachable_ind; [apply tokens_issued_initial|].
    intros s ev s'. apply tokens_issued_step. }
  destruct Hinv as [Hcache Hsent]. split; [done|].
  intros t req Hin. unfold requests_of, sent_for in Hin.
  apply list_elem_of_fmap in Hin as ([t0 req0] & -> & Hin).
  apply list_elem_of_In, List.filter_In in Hin as [Hin _].
  apply list_elem_of_In in Hin. by eapply Hsent.
Qed.

(** ** lib/api.ts *)

Lemma own_property_assign ps k v k' :
  own_property (assign ps k v) k'
  = if String.eqb k k' then v else own_property ps k'.
Proof.
  induction ps as [|[k0 v0] ps IH]; simpl; [done|].
  destruct (String.eqb_spec k0 k) as [->|Hne]; simpl.
  - by destruct (String.eqb_spec k k').
  - rewrite IH. destruct (String.eqb_spec k0 k') as [->|]; [|done].
    by destruct (String.eqb_spec k k').
Qed.

Lemma own_property_absent ps k :
  k ∉ List.map fst ps -> own_property ps k = VUndefined.
Proof.
  induction ps as [|[k0 v0] ps IH]; simpl; [done|].
  intros [Hne Hnotin]%not_elem_of_cons.
  destruct (String.eqb_spec k0 k); [done|]. by apply IH.
Qed.

(** What a spread leaves under a name: the property of the object spread
    last that has the name. *)
Lemma own_property_spread extra : forall base k,
  NoDup (List.map fst extra) ->
  own_property (spread base extra) k
  = if decide (k ∈ List.map fst extra) then own_property extra k
    else own_property base k.
Proof.
  unfold spread.
  induction extra as [|[k0 v0] extra IH]; intros base k Hnodup; simpl.
  - done.
  - apply NoDup_cons in Hnodup as [Hnotin Hnodup].
    rewrite IH by done. rewrite own_property_assign.
    destruct (String.eqb_spec k0 k) as [->|Hne].
    + rewrite decide_False by done. by rewrite decide_True by (by left).
    + destruct (decide (k ∈ List.map fst extra)) as [Hin|Hnin].
      * by rewrite decide_True by (by right).
      * rewrite decide_False; [done|].
        intros [?|?]%elem_of_cons; done.
Qed.

(** X10, the headers that [api] sends.  When the caller gives [api] an
    object with [headers] that are an object too, each header of the caller
    goes out as the caller gave it, [Content-Type: application/json] goes
    out unless the caller has a header of that very name, no other header
    goes out, and every other property of the object is passed to [fetch]
    as it is. *)
Theorem api_request_headers path props headers k :
  NoDup (List.map fst props) ->
  NoDup (List.map fst headers) ->
  own_property props "headers" = VObj headers ->
  exists sent,
    api_request path (VObj props) = (path, VObj sent)
    /\ get (own_property sent "headers") k
       = (if decide (k ∈ List.map fst headers) then own_property headers k
          else if String.eqb k "Content-Type" then VStr "application/json"
          else VUndefined)
    /\ (k <> "headers" -> own_property sent k = own_property props k).
Proof.
  intros Hprops Hheaders Hget. unfold api_request. eexists.
  split; [reflexivity|]. rewrite !own_property_assign. split.
  - rewrite String.eqb_refl. cbn [get]. rewrite Hget.
    cbn [coalesce nullish own_entries get].
    rewrite own_property_spread by done. cbn [own_property].
    by rewrite (String.eqb_sym "Content-Type" k).
  - intros Hne. destruct (String.eqb_spec "headers" k); [congruence|].
    cbn [own_entries]. rewrite own_property_spread by done.
    destruct (decide (k ∈ List.map fst props)) as [Hin|Hin]; [done|].
    symmetry. by apply own_property_absent.
Qed.

(** X11, the error that [api] throws.  When a response that is no
    success has a body that parses to an object whose [error] is a string
    that is not empty, as the bodies are that the handlers answer an error
    with, [api] throws an error with that string for its message, and
    without the status. *)
Theorem api_throws_the_error_text res data msg :
  res_ok res = false ->
  res_text res <> "" ->
  JSON_parse (res_text res) = Some data ->
  get data "error" = VStr msg ->
  msg <> "" ->
  api_response res = Throw (new_Error msg).
Proof.
  intros Hok Htext Hparse Hget Hmsg. unfold api_response. rewrite Hok. simpl.
  unfold parsed, safeJson. simpl.
  destruct (String.eqb_spec (res_text res) ""); [done|]. simpl.
  rewrite Hparse, Hget.
  assert (Hdata : truthy data = true) by (by destruct data).
  unfold js_and, js_or. rewrite Hdata. simpl.
  destruct (String.eqb_spec msg ""); [done|]. simpl.
  by destruct (String.eqb_spec msg "").
Qed.

(** ** The stand-alone refresh *)

(** X12, the two refreshes ask alike.  When [refreshAccessToken] sends a
    request, [refreshConstantContactToken] sends one with the same URL,
    method, headers and form.  But it does not check the configuration:
    with the refresh token or the client identifier not set, its request
    goes out all the same, with the text [undefined] for the value. *)
Theorem standalone_refresh_request :
  (forall req,
      refresh_request = Return req ->
      plain_url refreshConstantContactToken_request = tok_url req
      /\ plain_method refreshConstantContactToken_request = tok_method req
      /\ plain_headers refreshConstantContactToken_request = tok_headers req
      /\ plain_form refreshConstantContactToken_request = tok_form req)
  /\ (process_env "CC_REFRESH_TOKEN" = None ->
      ("refresh_token", "undefined")
      ∈ plain_form refreshConstantContactToken_request)
  /\ (process_env "CC_CLIENT_ID" = None ->
      ("client_id", "undefined")
      ∈ plain_form refreshConstantContactToken_request).
Proof.
  unfold refreshConstantContactToken_request, refresh_request, requireEnv, env_value.
  split; [|split].
  - intros req Hreq. unfold bind in Hreq.
    repeat case_match; simplify_eq; done.
  - intros ->. simpl. apply elem_of_cons. right. apply elem_of_cons. by left.
  - intros ->. simpl. do 2 (apply elem_of_cons; right). apply elem_of_cons. by left.
Qed.

(** ** The messages of the errors *)





End ConstantContact.

#[local] Existing Instance demo_platform.

(** ** The claims on a run *)

Lemma demo_first_reachable : reachable demo_env demo_first.
Proof. exists [Call demo_opts; Call demo_opts]. vm_compute. reflexivity. Qed.

Lemma demo_pending_run :
  run demo_env demo_first (answers demo_burst) = Some demo_pending.
Proof. vm_compute. reflexivity. Qed.

(** Scenario A of the specification: the token [T1], a 401, the token
    [T2] from the refresh, then a 200 with no contacts. *)
Example scenario_A :
  run demo_env (initial demo_env)
    [Call demo_opts;
     UpstreamSettles 0 (Responded unauthorized);
     TokenSettles 0 (Responded (mkResponse 200 token_T2));
     Resume 0;
     UpstreamSettles 0 (Responded (mkResponse 200 no_contacts))]
  = Some {| accessTokenCache := VStr "T2";
            refreshInFlight := None;
            promises := [Some (Return (VStr "T2"))];
            tasks := [Finished
                        (Return {| out_status := 200;
                                   out_data := VObj [("contacts", VArr [])] |})];
            upstream_sent := [(0, demo_request "T1"); (0, demo_request "T2")];
            token_sent := [(0, demo_token_request)] |}.
Proof. vm_compute. reflexivity. Qed.

(** C1 on two calls answered 401: one promise, one token request. *)
Lemma refresh_deduplicated_witness :
  reachable demo_env demo_first
  /\ in_flight demo_first <= 1
  /\ exists p,
       refreshInFlight demo_pending = Some p
       /\ (forall tr, tr ∈ demo_burst -> awaits demo_pending (fst tr) p)
       /\ token_requests_of p demo_pending = [demo_token_request].
Proof.
  split; [exact demo_first_reachable|].
  destruct (refresh_deduplicated demo_env demo_first demo_first_reachable)
    as (Hflight & _ & Hburst).
  split; [exact Hflight|].
  destruct (Hburst demo_burst demo_pending) as (p & Hslot & Hall & _ & Hone & _).
  - discriminate.
  - repeat constructor.
  - intros tr Htr.
    repeat (apply elem_of_cons in Htr as [->|Htr]; [by eexists _, _|]).
    by apply elem_of_nil in Htr.
  - exact demo_pending_run.
  - exists p. split; [exact Hslot|]. split; [exact Hall|].
    apply Hone. vm_compute. reflexivity.
Defined.



(** C4 as stated fails on the body [null]: it parses, to the JSON null,
    and the data returned is an empty object, not the parsed body. *)
Lemma null_body_is_not_passed_through :
  res_ok (mkResponse 200 "null") = true
  /\ JSON_parse "null" = Some VNull
  /\ ccFetchJsonWithToken_response (mkResponse 200 "null")
     = Return {| out_status := 200; out_data := EMPTY_OBJECT |}
  /\ ccFetchJsonWithToken_response (mkResponse 200 "null")
     <> Return {| out_status := 200; out_data := VNull |}.
Proof. repeat split; try reflexivity. vm_compute. discriminate. Qed.

(** C4 as amended on a 200 with a body. *)
Lemma success_passes_through_witness :
  res_ok (mkResponse 200 no_contacts) = true
  /\ step demo_env demo_first
       (UpstreamSettles 0 (Responded (mkResponse 200 no_contacts)))
     = Some (set_tasks
               (<[0 := Finished
                         (Return {| out_status := 200;
                                    out_data := VObj [("contacts", VArr [])] |})]>
                  (tasks demo_first)) demo_first).
Proof.
  split; [reflexivity|].
  exact (success_passes_through demo_env demo_first 0 demo_base demo_opts
           (mkResponse 200 no_contacts) (or_introl eq_refl) eq_refl).
Defined.


(** C6 on the two calls, before either is answered. *)
Lemma pending_refresh_lifecycle_witness :
  reachable demo_env demo_first
  /\ exists s1,
       refreshAccessToken_enter demo_env demo_first = (s1, (0, true))
       /\ refreshInFlight s1 = Some 0.
Proof.
  split; [exact demo_first_reachable|].
  destruct (pending_refresh_lifecycle demo_env demo_first demo_first_reachable)
    as (Hmade & _).
  destruct (Hmade eq_refl) as (s1 & Henter & Hslot & _).
  exists s1. split; [exact Henter|exact Hslot].
Defined.

(** C7 as stated fails on a body whose [access_token] is the empty
    string: the field is there, the token is not adopted and the refresh
    is rejected. *)
Lemma empty_access_token_is_not_adopted :
  pending demo_pending 0
  /\ res_ok (mkResponse 200 token_empty) = true
  /\ JSON_parse token_empty = Some (VObj [("access_token", VStr "")])
  /\ match step demo_env demo_pending
             (TokenSettles 0 (Responded (mkResponse 200 token_empty))) with
     | Some s' =>
         accessTokenCache s' = VStr "T1"
         /\ promises s' !! 0
            = Some (Some (Throw (new_Error
                 "Token refresh succeeded but no access_token was returned.")))
     | None => False
     end.
Proof. repeat split; vm_compute; reflexivity. Qed.

(** C7 as amended on the token [T2]. *)
Lemma successful_refresh_adopts_token_witness :
  pending demo_pending 0
  /\ res_ok (mkResponse 200 token_T2) = true
  /\ truthy (VStr "T2") = true
  /\ exists s',
       step demo_env demo_pending
         (TokenSettles 0 (Responded (mkResponse 200 token_T2))) = Some s'
       /\ accessTokenCache s' = VStr "T2"
       /\ promises s' !! 0 = Some (Some (Return (VStr "T2")))
       /\ getAccessToken demo_env s' = (s', Return (VStr "T2")).
Proof.
  split; [reflexivity|]. split; [reflexivity|]. split; [reflexivity|].
  destruct (successful_refresh_adopts_token demo_env demo_pending 0
              (mkResponse 200 token_T2) (VStr "T2"))
    as (s' & Hstep & Hcache & Hp & Hget & _);
    [reflexivity|reflexivity|vm_compute; reflexivity|reflexivity|].
  exists s'. split; [exact Hstep|]. split; [exact Hcache|].
  split; [exact Hp|exact Hget].
Defined.

(** C8 as stated fails on a body that is [false], a base URL that ends
    with a slash and a parameter that the path has too: the body is
    supplied, yet the request has neither the body nor the content type;
    the URL is not the base URL followed by the path; and the parameter
    is not appended, it takes the place of the one in the path. *)
Lemma falsy_body_is_not_sent :
  body demo_opts_false <> VUndefined
  /\ demo_base +:+ path demo_opts_false
     = "https://api.cc.email/v3//contacts?limit=5"
  /\ match ccFetchJsonWithToken_request demo_base (VStr "T1") demo_opts_false with
     | Return req =>
         req_body req = None
         /\ searchParams_get (req_headers req) "Content-Type" = None
         /\ url_origin_path (req_url req) = "https://api.cc.email/v3/contacts"
         /\ url_searchParams (req_url req) = [("limit", "10")]
     | Throw _ => False
     end.
Proof. split; [discriminate|]. vm_compute. repeat split. Qed.

(** C8 as amended on the request of the run. *)
Lemma request_construction_witness :
  URL_parse (strip_trailing_slash demo_base +:+ path demo_opts)
  = Some (mkURL "https://api.cc.email/v3/contacts" [] "")
  /\ exists req,
       ccFetchJsonWithToken_request demo_base (VStr "T1") demo_opts = Return req
       /\ url_searchParams (req_url req) = [("limit", "10")]
       /\ req_body req = None.
Proof.
  split; [vm_compute; reflexivity|].
  destruct (request_construction demo_env demo_base (VStr "T1") demo_opts
              (mkURL "https://api.cc.email/v3/contacts" [] ""))
    as (req & Hreq & _ & _ & _ & _ & Hparams & _ & _ & Hbody & _).
  - vm_compute. reflexivity.
  - exists req. split; [exact Hreq|]. split; [|exact Hbody].
    apply Hparams; [|reflexivity]. apply NoDup_singleton.
Defined.

Lemma demo_one_call_reachable : reachable demo_env_no_refresh demo_one_call.
Proof. exists [Call demo_opts]. vm_compute. reflexivity. Qed.

(** C9 without the refresh token. *)
Lemma refresh_requires_configuration_witness :
  reachable demo_env_no_refresh demo_one_call
  /\ absent demo_env_no_refresh "CC_REFRESH_TOKEN" = true
  /\ exists s1 s2,
       step demo_env_no_refresh demo_one_call
         (UpstreamSettles 0 (Responded unauthorized)) = Some s1
       /\ step demo_env_no_refresh s1 (Resume 0) = Some s2
       /\ tasks s2 !! 0
          = Some (Finished
                    (Throw (new_Error
                              "Missing environment variable: CC_REFRESH_TOKEN")))
       /\ token_sent s2 = [].
Proof.
  split; [exact demo_one_call_reachable|]. split; [reflexivity|].
  destruct (refresh_requires_configuration demo_env_no_refresh demo_one_call
              demo_one_call_reachable (or_intror eq_refl))
    as (_ & _ & Hcall).
  destruct (Hcall 0 demo_base demo_opts unauthorized eq_refl eq_refl)
    as (s1 & s2 & Hs1 & Hs2 & Hended & Hsent).
  exists s1, s2. split; [exact Hs1|]. split; [exact Hs2|].
  split; [exact Hended|exact Hsent].
Defined.

(** ** Further properties on a run *)

Lemma demo_pending_reachable : reachable demo_env demo_pending.
Proof.
  exact (reachable_run demo_env _ _ _ demo_first_reachable demo_pending_run).
Qed.

Lemma demo_done_reachable : reachable demo_env demo_done.
Proof.
  exists [Call demo_opts;
          UpstreamSettles 0 (Responded unauthorized);
          TokenSettles 0 (Responded (mkResponse 200 token_T2));
          Resume 0;
          UpstreamSettles 0 (Responded (mkResponse 200 no_contacts))].
  vm_compute. reflexivity.
Qed.

(** X1 at the end of the run: the call has returned 200 and data. *)
Lemma call_outcomes_witness :
  reachable demo_env demo_done
  /\ (200 <= 200 <= 299)%Z
  /\ VObj [("contacts", VArr [])] <> VNull.
Proof.
  split; [exact demo_done_reachable|].
  destruct (call_outcomes demo_env demo_done 0 _ demo_done_reachable eq_refl)
    as (Hstatus & Hnull & _).
  split; [exact Hstatus|exact Hnull].
Defined.


(** X3 on the two requests of the run. *)
Lemma retry_repeats_request_witness :
  requests_of 0 demo_done = [demo_request "T1"; demo_request "T2"]
  /\ same_but_token (demo_request "T1") (demo_request "T2").
Proof.
  split; [reflexivity|].
  exact (retry_repeats_request demo_env demo_done 0 _ _ demo_done_reachable eq_refl).
Defined.

(** X4 on the token request of the two calls. *)
Lemma token_request_shape_witness :
  (0, demo_token_request) ∈ token_sent demo_pending
  /\ tok_method demo_token_request = POST
  /\ token_requests_of 0 demo_pending = [demo_token_request].
Proof.
  assert (Hin : (0, demo_token_request) ∈ token_sent demo_pending).
  { apply elem_of_cons. by left. }
  split; [exact Hin|].
  destruct (token_request_shape demo_env demo_pending 0 _ demo_pending_reachable Hin)
    as (_ & Hmethod & _ & _ & _ & _ & Hone).
  split; [exact Hmethod|exact Hone].
Defined.

(** X5 on the turn that makes the promise of the two calls. *)
Lemma refresh_starts_on_401_only_witness :
  step demo_env demo_first (UpstreamSettles 0 (Responded unauthorized))
  = Some demo_created
  /\ length (promises demo_first) < length (promises demo_created)
  /\ exists t baseUrl opts res,
       UpstreamSettles 0 (Responded unauthorized)
       = UpstreamSettles t (Responded res)
       /\ res_status res = 401%Z
       /\ tasks demo_first !! t = Some (FirstAttempt baseUrl opts).
Proof.
  assert (Hstep : step demo_env demo_first
                    (UpstreamSettles 0 (Responded unauthorized))
                  = Some demo_created) by (vm_compute; reflexivity).
  assert (Hgrows : length (promises demo_first) < length (promises demo_created))
    by (simpl; lia).
  split; [exact Hstep|]. split; [exact Hgrows|].
  exact (refresh_starts_on_401_only demo_env _ _ _ Hstep (or_introl Hgrows)).
Defined.

(** X6 without the access token: a call ends at once. *)
Lemma entry_requires_configuration_witness :
  absent demo_env_no_token "CC_ACCESS_TOKEN" = true
  /\ step demo_env_no_token (initial demo_env_no_token) (Call demo_opts)
     = Some (set_tasks
               [Finished
                  (Throw (new_Error
                            "Missing environment variable: CC_ACCESS_TOKEN"))]
               (initial demo_env_no_token))
  /\ exists n,
       set_tasks
         [Finished
            (Throw (new_Error "Missing environment variable: CC_ACCESS_TOKEN"))]
         (initial demo_env_no_token)
       = set_tasks
           (replicate n
              (Finished
                 (Throw (new_Error
                           ("Missing environment variable: "
                            +:+ missing_on_entry demo_env_no_token)))))
           (initial demo_env_no_token).
Proof.
  assert (Hstep : step demo_env_no_token (initial demo_env_no_token) (Call demo_opts)
                  = Some (set_tasks
                            [Finished
                               (Throw (new_Error
                                  "Missing environment variable: CC_ACCESS_TOKEN"))]
                            (initial demo_env_no_token)))
    by (vm_compute; reflexivity).
  split; [reflexivity|]. split; [exact Hstep|].
  apply (entry_requires_configuration demo_env_no_token _ (or_intror eq_refl)).
  exact (reachable_step demo_env_no_token _ _ _
           (reachable_initial demo_env_no_token) Hstep).
Defined.

(** X7 on the two calls. *)
Lemma getAccessToken_returns_cache_witness :
  absent demo_env "CC_ACCESS_TOKEN" = false
  /\ getAccessToken demo_env demo_first = (demo_first, Return (VStr "T1")).
Proof.
  split; [reflexivity|].
  exact (proj2 (getAccessToken_returns_cache demo_env demo_first eq_refl
                  demo_first_reachable)).
Defined.

(** X8 on the second of the two calls, which awaits the promise of the
    first. *)
Lemma awaited_refresh_is_under_way_witness :
  awaits demo_pending 1 0
  /\ ((exists o, promises demo_pending !! 0 = Some (Some o))
      \/ (pending demo_pending 0
          /\ exists req, token_requests_of 0 demo_pending = [req])).
Proof.
  assert (Hawaits : awaits demo_pending 1 0).
  { exists demo_base, demo_opts, false. reflexivity. }
  split; [exact Hawaits|].
  exact (proj1 (awaited_refresh_is_under_way demo_env demo_pending 1 0
                  demo_pending_reachable Hawaits)).
Defined.

(** X9 at the end of the run: the token in memory is the one returned by
    the refresh. *)
Lemma tokens_are_issued_witness :
  reachable demo_env demo_done
  /\ issued demo_env demo_done (VStr "T2").
Proof.
  split; [exact demo_done_reachable|].
  exact (proj1 (tokens_are_issued demo_env demo_done demo_done_reachable)).
Defined.

(** X10 on a call of [api] with one header of its own. *)
Lemma api_request_headers_witness :
  NoDup (List.map fst demo_init)
  /\ exists sent,
       api_request "/api/contacts" (VObj demo_init)
       = ("/api/contacts", VObj sent)
       /\ get (own_property sent "headers") "Content-Type"
          = VStr "application/json"
       /\ own_property sent "method" = VStr "POST".
Proof.
  assert (Hprops : NoDup (List.map fst demo_init)).
  { apply NoDup_cons. split; [|apply NoDup_singleton].
    intros Hin. by apply list_elem_of_singleton in Hin. }
  split; [exact Hprops|].
  destruct (api_request_headers "/api/contacts" demo_init
              [("X-Trace", VStr "1")] "Content-Type" Hprops
              (NoDup_singleton _) eq_refl)
    as (sent & Hsent & Htype & _).
  destruct (api_request_headers "/api/contacts" demo_init
              [("X-Trace", VStr "1")] "method" Hprops
              (NoDup_singleton _) eq_refl)
    as (sent' & Hsent' & _ & Hmethod).
  exists sent. split; [exact Hsent|]. split; [exact Htype|].
  rewrite Hsent in Hsent'. injection Hsent' as <-. apply Hmethod. discriminate.
Defined.

(** X11 on the body of an error. *)
Lemma api_throws_the_error_text_witness :
  res_ok (mkResponse 400 invalid_grant) = false
  /\ api_response (mkResponse 400 invalid_grant)
     = Throw (new_Error "invalid_grant").
Proof.
  split; [reflexivity|].
  apply (api_throws_the_error_text (mkResponse 400 invalid_grant)
           (VObj [("error", VStr "invalid_grant")]) "invalid_grant");
    [reflexivity|discriminate|reflexivity|reflexivity|discriminate].
Defined.


(** * Properties of app/api/contacts/[id]/route.ts *)

Section RouteProperties.
Context `{Platform}.

Lemma ALLOWED_INCLUDE_has_elem v :
  Route.ALLOWED_INCLUDE_has v = true <-> v ∈ Route.ALLOWED_INCLUDE.
Proof.
  unfold Route.ALLOWED_INCLUDE_has. rewrite existsb_exists, list_elem_of_In.
  split.
  - intros (x & Hx & Heq). apply String.eqb_eq in Heq. by subst.
  - intros Hv. exists v. split; [done|]. apply String.eqb_refl.
Qed.

Lemma append_cons c a rest : String c a +:+ rest = String c (a +:+ rest).
Proof. reflexivity. Qed.

Lemma append_empty_r a : a +:+ "" = a.
Proof. induction a as [|c a IH]; [done|]. by rewrite append_cons, IH. Qed.

(** ** Strings *)

Lemma trim_start_head s :
  trim_start s = ""
  \/ exists c rest, trim_start s = String c rest /\ is_white_space c = false.
Proof.
  induction s as [|c s IH]; simpl; [by left|].
  destruct (is_white_space c) eqn:Hc; [done|]. right. eauto.
Qed.

Lemma trim_end_cons c s :
  trim_end (String c s)
  = match trim_end s with
    | EmptyString => if is_white_space c then EmptyString else String c EmptyString
    | rest => String c rest
    end.
Proof. reflexivity. Qed.

Lemma trim_end_idem s : trim_end (trim_end s) = trim_end s.
Proof.
  induction s as [|c s IH]; [done|]. rewrite trim_end_cons.
  destruct (trim_end s) as [|d s'] eqn:Hs.
  - destruct (is_white_space c) eqn:Hc; [done|].
    rewrite trim_end_cons. simpl. by rewrite Hc.
  - by rewrite trim_end_cons, IH.
Qed.

Lemma trim_end_head c s :
  is_white_space c = false ->
  exists rest, trim_end (String c s) = String c rest.
Proof.
  intros Hc. rewrite trim_end_cons. destruct (trim_end s); [rewrite Hc|]; eauto.
Qed.

Lemma trim_idem s : trim (trim s) = trim s.
Proof.
  unfold trim. destruct (trim_start_head s) as [->|(c & rest & -> & Hc)];
    [done|].
  destruct (trim_end_head c rest Hc) as [rest' Heq].
  rewrite Heq. cbn [trim_start]. rewrite Hc, <- Heq. apply trim_end_idem.
Qed.

Lemma has_char_trim_start c s :
  has_char c s = false -> has_char c (trim_start s) = false.
Proof.
  induction s as [|c' s IH]; simpl; [done|].
  intros [Hc' Hs]%orb_false_iff.
  destruct (is_white_space c'); [by apply IH|]. simpl. by rewrite Hc', Hs.
Qed.

Lemma has_char_trim_end c s :
  has_char c s = false -> has_char c (trim_end s) = false.
Proof.
  induction s as [|c' s IH]; [done|]. cbn [has_char].
  intros [Hc' Hs]%orb_false_iff. specialize (IH Hs). rewrite trim_end_cons.
  destruct (trim_end s) as [|d s'].
  - destruct (is_white_space c'); [done|]. simpl. by rewrite Hc'.
  - change (has_char c (String c' (String d s')))
      with (Ascii.eqb c' c || has_char c (String d s')).
    by rewrite Hc', IH.
Qed.

Lemma has_char_trim c s : has_char c s = false -> has_char c (trim s) = false.
Proof. intros Hs. by apply has_char_trim_end, has_char_trim_start. Qed.

Lemma split_on_pieces sep s :
  Forall (fun piece => has_char sep piece = false) (split_on sep s).
Proof.
  induction s as [|c s IH]; simpl; [by repeat constructor|].
  destruct (Ascii.eqb c sep) eqn:Hc; [by constructor|].
  destruct (split_on sep s) as [|piece pieces].
  - repeat constructor. simpl. by rewrite Hc.
  - apply Forall_cons in IH as [Hpiece Hpieces]. constructor; [|done].
    simpl. by rewrite Hc, Hpiece.
Qed.

Lemma split_on_whole sep s : has_char sep s = false -> split_on sep s = [s].
Proof.
  induction s as [|c s IH]; simpl; [done|].
  intros [Hc Hs]%orb_false_iff. by rewrite Hc, IH.
Qed.

Lemma split_on_append sep a b :
  has_char sep a = false ->
  split_on sep (a +:+ String sep b) = a :: split_on sep b.
Proof.
  induction a as [|c a IH]; simpl.
  - intros _. rewrite (proj2 (Ascii.eqb_eq sep sep) eq_refl). done.
  - intros [Hc Ha]%orb_false_iff. by rewrite Hc, IH.
Qed.

Lemma join_cons sep x y pieces :
  join sep (x :: y :: pieces) = x +:+ sep +:+ join sep (y :: pieces).
Proof. reflexivity. Qed.

(** [split] undoes [join] on pieces that are free of the separator. *)
Lemma split_on_join pieces :
  pieces <> [] ->
  Forall (fun piece => has_char ","%char piece = false) pieces ->
  split_on ","%char (join "," pieces) = pieces.
Proof.
  induction pieces as [|x pieces IH]; [done|]. intros _ [Hx Hall]%Forall_cons.
  destruct pieces as [|y pieces].
  - simpl. by apply split_on_whole.
  - rewrite join_cons. change ("," +:+ join "," (y :: pieces))
      with (String ","%char (join "," (y :: pieces))).
    rewrite split_on_append by done. by rewrite IH.
Qed.


Lemma hex_run_shape n : forall s rest,
  Route.hex_run n s = Some rest <->
  exists a, Route.hex_group n a /\ s = a +:+ rest.
Proof.
  unfold Route.hex_group. induction n as [|n IH]; intros s rest; simpl.
  - split.
    + intros [= ->]. by exists "".
    + intros (a & [Hlen _] & ->). by destruct a.
  - split.
    + destruct s as [|c s]; [done|]. destruct (Route.is_hex c) eqn:Hc; [|done].
      intros (a & [Hlen Hhex] & ->)%IH. exists (String c a). simpl.
      by rewrite Hlen, Hc, Hhex.
    + intros (a & [Hlen Hhex] & ->). destruct a as [|c a]; [done|].
      simpl in Hlen, Hhex. apply andb_true_iff in Hhex as [Hc Hhex].
      rewrite append_cons, Hc. apply IH. exists a. split; [split|]; [lia|done|done].
Qed.

Lemma dash_shape s rest : Route.dash s = Some rest <-> s = "-" +:+ rest.
Proof.
  unfold Route.dash. destruct s as [|c s].
  - split; [done|]. by rewrite append_cons.
  - rewrite append_cons. destruct (Ascii.eqb_spec c "-"%char) as [->|Hne].
    + split; [by intros [= ->]|by intros [= ->]].
    + split; [done|]. intros [= -> _]. done.
Qed.

(** [looksUuid] accepts the strings that have the UUID shape once white
    space around them is trimmed. *)
Lemma looksUuid_shape v :
  Route.looksUuid v = true <-> Route.uuid_shape (trim v).
Proof.
  unfold Route.looksUuid, Route.uuid_shape. cbn [Route.hex_groups].
  split.
  - destruct (Route.hex_run 8 (trim v)) as [r1|] eqn:E1; [|done].
    destruct (Route.dash r1) as [r2|] eqn:D1; [|done].
    destruct (Route.hex_run 4 r2) as [r3|] eqn:E2; [|done].
    destruct (Route.dash r3) as [r4|] eqn:D2; [|done].
    destruct (Route.hex_run 4 r4) as [r5|] eqn:E3; [|done].
    destruct (Route.dash r5) as [r6|] eqn:D3; [|done].
    destruct (Route.hex_run 4 r6) as [r7|] eqn:E4; [|done].
    destruct (Route.dash r7) as [r8|] eqn:D4; [|done].
    destruct (Route.hex_run 12 r8) as [[|]|] eqn:E5; try done. intros _.
    apply hex_run_shape in E1 as (a & Ha & ->), E2 as (b & Hb & ->),
      E3 as (c & Hc & ->), E4 as (d & Hd & ->), E5 as (e & He & ->).
    apply dash_shape in D1 as ->, D2 as ->, D3 as ->, D4 as ->.
    exists a, b, c, d, e. by rewrite append_empty_r.
  - intros (a & b & c & d & e & -> & Ha & Hb & Hc & Hd & He).
    rewrite (proj2 (hex_run_shape 8 _ _) (ex_intro _ a (conj Ha eq_refl))).
    rewrite (proj2 (dash_shape _ _) eq_refl).
    rewrite (proj2 (hex_run_shape 4 _ _) (ex_intro _ b (conj Hb eq_refl))).
    rewrite (proj2 (dash_shape _ _) eq_refl).
    rewrite (proj2 (hex_run_shape 4 _ _) (ex_intro _ c (conj Hc eq_refl))).
    rewrite (proj2 (dash_shape _ _) eq_refl).
    rewrite (proj2 (hex_run_shape 4 _ _) (ex_intro _ d (conj Hd eq_refl))).
    rewrite (proj2 (dash_shape _ _) eq_refl).
    rewrite <- (append_empty_r e) at 1.
    by rewrite (proj2 (hex_run_shape 12 _ _) (ex_intro _ e (conj He eq_refl))).
Qed.

(** C10 as amended, the contact-detail route checks its input.  When the
    [id], trimmed of the white space around it, has not the UUID shape, or the
    [include] parameter is there and either has no values after
    [parseCsv] or has a value outside [ALLOWED_INCLUDE], the handler
    answers with status 400 and a body with an [error] message; it does
    not get as far as the call of [ccFetchJson], so nothing is sent
    upstream. *)
Theorem contact_detail_validation id searchParams :
  ~ Route.uuid_shape (trim id)
  \/ (exists raw,
        searchParams_get searchParams "include" = Some raw
        /\ (Route.parseCsv raw = []
            \/ exists v, v ∈ Route.parseCsv raw /\ v ∉ Route.ALLOWED_INCLUDE)) ->
  exists msg,
    Route.GET id searchParams
    = Route.Answered
        {| Route.http_status := 400;
           Route.http_body := VObj [("error", VStr msg)] |}.
Proof.
  intros Hbad. unfold Route.GET.
  destruct (Route.looksUuid id) eqn:Hid; simpl; [|by eexists].
  apply looksUuid_shape in Hid.
  destruct Hbad as [|(raw & Hraw & Hvalues)]; [done|].
  rewrite Hraw. unfold Route.checked_include.
  destruct Hvalues as [->|(v & Hv & Hnot)]; simpl; [by eexists|].
  destruct (Route.parseCsv raw) as [|v0 values] eqn:Hcsv; [by eexists|].
  cbn [length Nat.eqb].
  destruct (List.find _ (v0 :: values)) as [bad|] eqn:Hfind; [by eexists|].
  exfalso. apply list_elem_of_In in Hv.
  pose proof (List.find_none _ _ Hfind v Hv) as Hallowed.
  apply negb_false_iff, ALLOWED_INCLUDE_has_elem in Hallowed. done.
Qed.

(** ** The values of [include] *)

Lemma parseCsv_csv_values raw : Forall Route.csv_value (Route.parseCsv raw).
Proof.
  unfold Route.parseCsv. apply Forall_forall. intros v Hv.
  apply list_elem_of_In, List.filter_In in Hv as [Hv Hfull].
  apply List.in_map_iff in Hv as (piece & <- & Hpiece).
  apply list_elem_of_In in Hpiece.
  pose proof (split_on_pieces ","%char raw) as Hfree.
  rewrite Forall_forall in Hfree. specialize (Hfree piece Hpiece).
  split; [|split].
  - intros Heq. rewrite Heq in Hfull. done.
  - apply trim_idem.
  - by apply has_char_trim.
Qed.

Lemma parseCsv_of_join values :
  Forall Route.csv_value values ->
  Route.parseCsv (join "," values) = values.
Proof.
  intros Hall. destruct (decide (values = [])) as [->|Hne]; [done|].
  unfold Route.parseCsv. rewrite split_on_join; [|done|].
  2: { eapply Forall_impl; [done|]. by intros v (_ & _ & Hv). }
  clear Hne. induction Hall as [|v values (Hfull & Htrim & _) Hall IH]; [done|].
  cbn [List.map List.filter]. rewrite Htrim, IH. simpl.
  by destruct (String.eqb_spec v "").
Qed.

Lemma join_csv_values values :
  Forall Route.csv_value values -> values <> [] ->
  truthy (VStr (join "," values)) = true.
Proof.
  intros Hall Hne. destruct values as [|v values]; [done|].
  apply Forall_cons in Hall as [(Hfull & _) _].
  destruct v as [|c v]; [done|]. by destruct values.
Qed.

(** X14, the values of a comma-separated list.  Each value that
    [parseCsv] gives is not empty, has no white space around it and has no
    comma in it, whatever the text. *)
Theorem parseCsv_values raw v :
  v ∈ Route.parseCsv raw ->
  v <> "" /\ trim v = v /\ has_char ","%char v = false.
Proof.
  intros Hv. pose proof (parseCsv_csv_values raw) as Hall.
  rewrite Forall_forall in Hall. exact (Hall v Hv).
Qed.

(** X15, the list that goes upstream reads back.  The values of
    [parseCsv], joined with commas as line 53 joins them, are parsed by
    [parseCsv] to the same values: the normal form is stable. *)
Theorem parseCsv_join_round_trip raw :
  Route.parseCsv (join "," (Route.parseCsv raw)) = Route.parseCsv raw.
Proof. apply parseCsv_of_join, parseCsv_csv_values. Qed.

(** X16, when the handler calls upstream.  [GET] gets as far as the call
    of [ccFetchJson] exactly when the [id], trimmed, has the UUID shape and
    the [include] parameter, if there is one, has values after [parseCsv]
    that are all in [ALLOWED_INCLUDE]; the call is then a [GET] without a
    body of [/contacts/] followed by the [id] as it was given, encoded,
    with the values of [include] joined by commas as its one query
    entry, or with no query when there is no [include]. *)
Theorem GET_calls_upstream id searchParams opts :
  Route.GET id searchParams = Route.Upstream opts <->
  Route.uuid_shape (trim id)
  /\ (forall raw,
        searchParams_get searchParams "include" = Some raw ->
        Route.parseCsv raw <> []
        /\ Forall (fun v => v ∈ Route.ALLOWED_INCLUDE) (Route.parseCsv raw))
  /\ opts
     = {| method := None;
          path := "/contacts/" +:+ encodeURIComponent id;
          query :=
            (fun raw => [("include", VStr (join "," (Route.parseCsv raw)))])
              <$> searchParams_get searchParams "include";
          body := VUndefined |}.
Proof.
  unfold Route.GET. rewrite <- looksUuid_shape.
  destruct (Route.looksUuid id); simpl.
  2: { split; [done|]. by intros [? _]. }
  unfold Route.checked_include.
  destruct (searchParams_get searchParams "include") as [raw|]; simpl.
  2: { split.
       - intros [= <-]. done.
       - by intros (_ & _ & ->). }
  pose proof (parseCsv_csv_values raw) as Hvalues.
  destruct (Route.parseCsv raw) as [|v0 values] eqn:Hcsv.
  { simpl. split; [done|]. intros (_ & Hraw & _).
    by destruct (Hraw raw eq_refl). }
  cbn [length Nat.eqb].
  destruct (List.find _ (v0 :: values)) as [bad|] eqn:Hfind.
  - split; [done|]. intros (_ & Hraw & _). exfalso.
    destruct (Hraw raw eq_refl) as [_ Hall]. rewrite Hcsv in Hall.
    apply List.find_some in Hfind as [Hin Hbad].
    rewrite Forall_forall in Hall. apply list_elem_of_In in Hin.
    apply Hall, ALLOWED_INCLUDE_has_elem in Hin. by rewrite Hin in Hbad.
  - pose proof (join_csv_values _ Hvalues ltac:(done)) as Hjoin.
    unfold truthy in Hjoin. rewrite Hjoin. split.
    + intros [= <-]. split; [done|]. split; [|done].
      intros raw0 [= <-]. rewrite Hcsv. split; [done|].
      apply Forall_forall. intros v Hv.
      apply list_elem_of_In in Hv.
      pose proof (List.find_none _ _ Hfind v Hv) as Hallowed.
      by apply negb_false_iff, ALLOWED_INCLUDE_has_elem in Hallowed.
    + by intros (_ & _ & ->).
Qed.

End RouteProperties.

(** ** The answer of the handler *)

Section RouteAnswers.
Context `{Platform}.
Variable process_env : string -> option string.
Variable NextResponse_json : Value -> Z -> Outcome Route.HttpResponse.

(** [NextResponse.json], when it returns, returns the response it was
    asked for; when it throws, it throws an error without a [status]. *)
Hypothesis NextResponse_json_returns :
  forall body st answer,
    NextResponse_json body st = Return answer ->
    answer = Route.mkHttpResponse st body.
Hypothesis NextResponse_json_throws :
  forall body st e, NextResponse_json body st = Throw e -> status e = None.

(** X17, what the handler answers.  Let a call of [ccFetchJson] have
    ended, in a reachable state, and let the handler answer.  Either the
    call returned, and the answer has the status and, as its body, the data
    that the call returned, the status being one from 200 to 299; or the
    call threw, or [NextResponse.json] refused the status returned, and the
    answer has the status of the error, 500 when the error has none, and a
    body with the message of the error under [error] and its details,
    [null] when it has none, under [details]; the status is then not one
    from 200 to 299.  So a failure is never answered as a success. *)
Theorem GET_answer s t o answer :
  reachable process_env s ->
  tasks s !! t = Some (Finished o) ->
  Route.GET_settled NextResponse_json o = Return answer ->
  (exists out,
      o = Return out
      /\ answer = Route.mkHttpResponse (out_status out) (out_data out)
      /\ is_success (Route.http_status answer) = true)
  \/ (exists e,
        (o = Throw e
         \/ exists out,
              o = Return out
              /\ NextResponse_json (out_data out) (out_status out) = Throw e)
        /\ answer
           = Route.mkHttpResponse (default 500%Z (status e))
               (VObj [("error", VStr (message e));
                      ("details", coalesce (details e) VNull)])
        /\ is_success (Route.http_status answer) = false).
Proof.
  intros Hreach Ht. unfold Route.GET_settled.
  destruct (outcomes_sound_reachable process_env s Hreach) as [Hcalls _].
  specialize (Hcalls t o Ht). destruct o as [out|e]; simpl.
  - destruct Hcalls as [Hok _].
    destruct (NextResponse_json (out_data out) (out_status out))
      as [answer0|e] eqn:Hjson.
    + intros [= <-]. apply NextResponse_json_returns in Hjson as ->.
      left. exists out. done.
    + intros Hanswer. apply NextResponse_json_returns in Hanswer as ->.
      right. exists e. split; [right; by exists out|]. split; [done|].
      simpl. by rewrite (NextResponse_json_throws _ _ _ Hjson).
  - intros Hanswer. apply NextResponse_json_returns in Hanswer as ->.
    right. exists e. split; [by left|]. split; [done|]. simpl.
    destruct (status e) as [n|] eqn:Hn; [by apply Hcalls|done].
Qed.

End RouteAnswers.

(** * Properties of app/contacts/new/page.tsx *)

Section NewContactProperties.
Context `{Platform}.
Variable Number_of_string : string -> float.

Lemma trim_start_empty s : trim_start s = "" -> has_char ","%char s = false.
Proof.
  induction s as [|c s IH]; simpl; [done|].
  destruct (is_white_space c) eqn:Hc; [|done]. intros Hs. rewrite (IH Hs).
  destruct (Ascii.eqb_spec c ","%char) as [->|]; [done|done].
Qed.

Lemma trim_empty s : trim s = "" -> trim_start s = "".
Proof.
  unfold trim. destruct (trim_start_head s) as [->|(c & rest & -> & Hc)]; [done|].
  destruct (trim_end_head c rest Hc) as [rest' ->]. done.
Qed.

(** X18, one list parser in two places.  [parseCommaSeparated] of the
    form gives, for every text, what [parseCsv] of the route gives: the
    check that the text is not blank, which only the form has, changes
    nothing. *)
Theorem parseCommaSeparated_is_parseCsv raw :
  NewContact.parseCommaSeparated raw = Route.parseCsv raw.
Proof.
  unfold NewContact.parseCommaSeparated, Route.parseCsv.
  destruct (String.eqb_spec raw "") as [->|Hraw]; [done|].
  destruct (String.eqb_spec (trim raw) "") as [Htrim|Htrim]; simpl.
  2: { unfold truthy.
       by destruct (String.eqb_spec raw ""), (String.eqb_spec (trim raw) ""). }
  unfold truthy.
  destruct (String.eqb_spec raw ""), (String.eqb_spec (trim raw) ""); try done.
  simpl. rewrite split_on_whole by (by apply trim_start_empty, trim_empty).
  simpl. by rewrite Htrim.
Qed.


Lemma str_trimmed v : trim (NewContact.str v) = NewContact.str v.
Proof. destruct v; simpl; [apply trim_idem|done|done]. Qed.

Lemma parseJsonArrayOrUndef_returns raw fieldName v :
  NewContact.parseJsonArrayOrUndef raw fieldName = Return v ->
  v = VUndefined \/ exists items, v = VArr items /\ items <> [].
Proof.
  unfold NewContact.parseJsonArrayOrUndef.
  destruct (_ || _ || _); [by intros [= <-]; left|].
  destruct (JSON_parse _) as [[| |b|n|s|items|props]|]; try done.
  destruct (List.filter NewContact.kept items) as [|item kept_items] eqn:Hkept;
    simpl; intros [= <-]; [by left|].
  right. by exists (item :: kept_items).
Qed.

Lemma or_undefined_cases s :
  (s = "" /\ NewContact.or_undefined s = VUndefined)
  \/ (s <> "" /\ NewContact.or_undefined s = VStr s).
Proof.
  unfold NewContact.or_undefined, js_or. simpl.
  destruct (String.eqb_spec s ""); [by left|by right].
Qed.

Lemma numOrUndef_cases v :
  NewContact.numOrUndef Number_of_string v = VUndefined
  \/ exists n, NewContact.numOrUndef Number_of_string v = VNum n.
Proof.
  unfold NewContact.numOrUndef. destruct (negb _); [by left|].
  destruct (is_finite _); [right; eauto|by left].
Qed.

(** The properties of the payload, one after the other. *)
Lemma handleSubmit_payload_props
    createSource first last jobTitle companyName birthdayMonth birthdayDay
    anniversary custom_fields phone_numbers street_addresses notes
    listMemberships taggings email permissionToSend hasAnySms smsFullAddress
    sms_channel_consents :
  NewContact.handleSubmit_payload createSource first last jobTitle companyName
    birthdayMonth birthdayDay anniversary custom_fields phone_numbers
    street_addresses notes listMemberships taggings email permissionToSend
    hasAnySms smsFullAddress sms_channel_consents
  = VObj
      ([("create_source", VStr createSource);
        ("first_name", NewContact.or_undefined first);
        ("last_name", NewContact.or_undefined last);
        ("job_title", NewContact.or_undefined jobTitle);
        ("company_name", NewContact.or_undefined companyName);
        ("birthday_month", coalesce birthdayMonth VUndefined);
        ("birthday_day", coalesce birthdayDay VUndefined);
        ("anniversary", anniversary);
        ("custom_fields",
           if NewContact.has_length custom_fields then custom_fields
           else VUndefined);
        ("phone_numbers",
           if NewContact.has_length phone_numbers then phone_numbers
           else VUndefined);
        ("street_addresses",
           if NewContact.has_length street_addresses then street_addresses
           else VUndefined);
        ("notes", if NewContact.has_length notes then notes else VUndefined);
        ("list_memberships",
           if (0 <? length listMemberships)%nat
           then VArr (List.map VStr listMemberships) else VUndefined);
        ("taggings",
           if (0 <? length taggings)%nat then VArr (List.map VStr taggings)
           else VUndefined)]
       ++ (if truthy (VStr email)
           then [("email_address",
                  VObj [("address", VStr email);
                        ("permission_to_send", VStr permissionToSend)])]
           else [])
       ++ (if hasAnySms
           then [("sms_channel",
                  VObj ((if truthy (VStr smsFullAddress)
                         then [("sms_address", VStr smsFullAddress)] else [])
                        ++ (if NewContact.has_length sms_channel_consents
                            then [("sms_channel_consents", sms_channel_consents)]
                            else [])))]
           else [])).
Proof.
  unfold NewContact.handleSubmit_payload.
  destruct (truthy (VStr email)), hasAnySms,
    (truthy (VStr smsFullAddress)),
    (NewContact.has_length sms_channel_consents); reflexivity.
Qed.

(** The payload that lines 115-148 build from values that have passed
    the checks. *)
Lemma handleSubmit_payload_checked
    createSource first last jobTitle companyName birthdayMonth birthdayDay
    anniversary custom_fields phone_numbers street_addresses notes
    listMemberships taggings email permissionToSend hasAnySms smsFullAddress
    sms_channel_consents :
  createSource <> "" ->
  trim email = email ->
  first <> "" \/ last <> "" \/ email <> "" \/ hasAnySms = true ->
  (email <> "" -> permissionToSend = "explicit") ->
  truthy birthdayMonth = truthy birthdayDay ->
  (birthdayMonth = VUndefined \/ exists n, birthdayMonth = VNum n) ->
  (birthdayDay = VUndefined \/ exists n, birthdayDay = VNum n) ->
  (exists a, anniversary = NewContact.or_undefined a) ->
  Forall (fun v => v = VUndefined \/ exists items, v = VArr items /\ items <> [])
    [custom_fields; phone_numbers; street_addresses; notes; sms_channel_consents] ->
  (hasAnySms = true -> sms_channel_consents <> VUndefined) ->
  NewContact.payload_checked
    (NewContact.handleSubmit_payload createSource first last jobTitle companyName
       birthdayMonth birthdayDay anniversary custom_fields phone_numbers
       street_addresses notes listMemberships taggings email permissionToSend
       hasAnySms smsFullAddress sms_channel_consents).
Proof.
  intros Hsource Htrim Hidentified Hpermission Hbirthday Hmonth Hday
    [a ->] Harrays Hconsents.
  apply Forall_cons in Harrays as [Hcf Harrays].
  apply Forall_cons in Harrays as [Hpn Harrays].
  apply Forall_cons in Harrays as [Hsa Harrays].
  apply Forall_cons in Harrays as [Hnotes Harrays].
  apply Forall_cons in Harrays as [Hcons _].
  assert (Hsms : hasAnySms = true ->
            exists items, sms_channel_consents = VArr items /\ items <> []).
  { intros Hany. specialize (Hconsents Hany). by destruct Hcons as [?|?]. }
  clear Hconsents.
  assert (Hfield : forall s,
            NewContact.is_empty_value (NewContact.or_undefined s) = false).
  { intros s. destruct (or_undefined_cases s) as [[_ ->]|[Hs ->]]; [done|].
    by destruct s. }
  assert (Harray : forall v,
            (v = VUndefined \/ exists items, v = VArr items /\ items <> []) ->
            NewContact.is_empty_value
              (if NewContact.has_length v then v else VUndefined) = false).
  { intros v [->|(items & -> & Hitems)]; [done|]. by destruct items. }
  assert (Hlist : forall l,
            NewContact.is_empty_value
              (if (0 <? length l)%nat then VArr (List.map VStr l) else VUndefined)
            = false).
  { intros l. by destruct l. }
  assert (Hnumber : forall v,
            (v = VUndefined \/ exists n, v = VNum n) ->
            NewContact.is_empty_value (coalesce v VUndefined) = false).
  { by intros v [->|[n ->]]. }
  assert (Htruthy : forall s, truthy (VStr s) = true <-> s <> "").
  { intros s. simpl. by destruct (String.eqb_spec s ""). }
  rewrite handleSubmit_payload_props.
  split; cbn [get].
  - (* identified *)
    destruct Hidentified as [Hf|[Hl|[He|Hs]]].
    + destruct (or_undefined_cases first) as [[? _]|[_ Heq]]; [done|].
      cbn [own_property app String.eqb Ascii.eqb Bool.eqb]. rewrite Heq.
      by rewrite (proj2 (Htruthy first) Hf).
    + destruct (or_undefined_cases last) as [[? _]|[_ Heq]]; [done|].
      cbn [own_property app String.eqb Ascii.eqb Bool.eqb]. rewrite Heq.
      rewrite (proj2 (Htruthy last) Hl). by rewrite orb_true_r.
    + rewrite (proj2 (Htruthy email) He).
      cbn [own_property app String.eqb Ascii.eqb Bool.eqb truthy].
      by rewrite !orb_true_r.
    + subst hasAnySms.
      destruct (truthy (VStr email));
        cbn [own_property app String.eqb Ascii.eqb Bool.eqb truthy];
        by rewrite !orb_true_r.
  - (* the email address *)
    destruct (truthy (VStr email)) eqn:He;
      cbn [own_property app String.eqb Ascii.eqb Bool.eqb].
    + right. exists email. apply Htruthy in He.
      by rewrite (Hpermission He).
    + left. by destruct hasAnySms.
  - (* the SMS channel *)
    destruct hasAnySms; [|left; by destruct (truthy (VStr email))].
    right. destruct (Hsms eq_refl) as (items & -> & Hitems). exists items.
    split; [|done].
    replace (NewContact.has_length (VArr items)) with true by (by destruct items).
    by destruct (truthy (VStr email)), (truthy (VStr smsFullAddress)).
  - (* the birthday *)
    cbn [own_property app String.eqb Ascii.eqb Bool.eqb].
    by destruct Hmonth as [->|[? ->]], Hday as [->|[? ->]].
  - (* the source *)
    by exists createSource.
  - (* no empties *)
    intros props k v [= <-] Hin.
    apply elem_of_cons in Hin as [[= -> ->]|Hin]; [by destruct createSource|].
    do 13 (apply elem_of_cons in Hin as [[= -> ->]|Hin]; [by auto|]).
    apply elem_of_app in Hin as [Hin|Hin].
    { destruct (String.eqb email ""); simpl in Hin;
        [by apply elem_of_nil in Hin|].
      by apply list_elem_of_singleton in Hin as [= -> ->]. }
    destruct hasAnySms; [|by apply elem_of_nil in Hin].
    apply list_elem_of_singleton in Hin as [= -> ->].
    destruct (Hsms eq_refl) as (items & -> & Hitems).
    replace (NewContact.has_length (VArr items)) with true by (by destruct items).
    by destruct (String.eqb smsFullAddress "").
Qed.

(** X20, the payload that is sent.  When the form passes the checks of
    [handleSubmit], the payload has a first name, a last name, an email
    address or an SMS channel; an email address in it has the permission
    [explicit] and an address that is trimmed and not empty; an SMS channel
    in it has consents, an array that is not empty; its birthday month and
    day are truthy together; it has a source; and none of its properties is
    an empty string, an empty array, an empty object or [null]. *)
Theorem submitted_payload_is_checked formData payload :
  NewContact.handleSubmit_check Number_of_string formData = inr payload ->
  NewContact.payload_checked payload.
Proof.
  unfold NewContact.handleSubmit_check. cbv zeta.
  destruct (negb (truthy (VStr (NewContact.str (formData "first_name")))) && _ && _ && _)
    eqn:Hidentified; [done|].
  destruct (truthy (VStr (NewContact.str (formData "email"))) && _)
    eqn:Hpermission; [done|].
  destruct (_ || _) eqn:Hbirthday in |- *; [done|].
  destruct (NewContact.parseJsonArrayOrUndef _ "custom_fields")
    as [custom_fields|e] eqn:Hcf; cbn [bind]; [|done].
  destruct (NewContact.parseJsonArrayOrUndef _ "phone_numbers")
    as [phone_numbers|e] eqn:Hpn; cbn [bind]; [|done].
  destruct (NewContact.parseJsonArrayOrUndef _ "street_addresses")
    as [street_addresses|e] eqn:Hsa; cbn [bind]; [|done].
  destruct (NewContact.parseJsonArrayOrUndef _ "notes")
    as [notes|e] eqn:Hnotes; cbn [bind]; [|done].
  destruct (NewContact.parseJsonArrayOrUndef _ "sms_channel_consents")
    as [sms_channel_consents|e] eqn:Hcons; cbn [bind]; [|done].
  destruct (_ && (negb (truthy sms_channel_consents) || _)) eqn:Hsms; [done|].
  intros [= <-].
  apply handleSubmit_payload_checked.
  - by destruct (String.eqb_spec (NewContact.str (formData "create_source")) "").
  - apply str_trimmed.
  - simpl in Hidentified.
    destruct (String.eqb_spec (NewContact.str (formData "first_name")) "");
      [|by left].
    destruct (String.eqb_spec (NewContact.str (formData "last_name")) "");
      [|by right; left].
    destruct (String.eqb_spec (NewContact.str (formData "email")) "");
      [|by right; right; left].
    right. right. right. simpl in Hidentified. by apply negb_false_iff.
  - intros Hemail. simpl in Hpermission.
    destruct (String.eqb_spec (NewContact.str (formData "email")) ""); [done|].
    simpl in Hpermission. by apply negb_false_iff, String.eqb_eq in Hpermission.
  - by destruct (truthy (NewContact.numOrUndef _ (formData "birthday_month"))),
      (truthy (NewContact.numOrUndef _ (formData "birthday_day"))).
  - apply numOrUndef_cases.
  - apply numOrUndef_cases.
  - eauto.
  - repeat (apply List.Forall_cons; [by eapply parseJsonArrayOrUndef_returns|]).
    apply List.Forall_nil.
  - intros Hany. simpl in Hsms. rewrite Hany in Hsms. simpl in Hsms.
    apply orb_false_iff in Hsms as [Hsms _]. intros ->. done.
Qed.

(** X21, how [handleSubmit] ends.  Whatever the form holds and however
    the request settles, [handleSubmit] ends with [loading] false, and
    either it has sent the router to [/], once, with no error set, the
    form having passed the checks and the response being a success; or it
    has sent the router nowhere and has set an error that is truthy. *)
Theorem handleSubmit_ends formData r pg :
  let pg' := NewContact.handleSubmit Number_of_string formData r pg in
  NewContact.loading pg' = false
  /\ ((NewContact.pushed pg' = NewContact.pushed pg ++ ["/"]
       /\ NewContact.error pg' = VNull
       /\ exists payload res,
            NewContact.handleSubmit_check Number_of_string formData = inr payload
            /\ r = Responded res /\ res_ok res = true)
      \/ (NewContact.pushed pg' = NewContact.pushed pg
          /\ truthy (NewContact.error pg') = true)).
Proof.
  unfold NewContact.handleSubmit, NewContact.handleSubmit_enter.
  destruct (NewContact.handleSubmit_check Number_of_string formData)
    as [msg|payload] eqn:Hcheck; cbn zeta.
  - (* the form is refused *)
    split; [done|]. right. split; [done|]. simpl.
    revert Hcheck. unfold NewContact.handleSubmit_check. cbv zeta.
    repeat (case_match; try (by intros [= <-])).
    all: intros [= <-]; unfold js_or; by case_match.
  - (* the request is sent *)
    unfold NewContact.handleSubmit_settled.
    destruct r as [res|reason].
    + destruct (res_ok res) eqn:Hok; simpl.
      { split; [done|]. left. split; [done|]. split; [done|]. by exists payload, res. }
      destruct (res_status res =? 409)%Z; simpl.
      { split; [done|]. by right. }
      destruct (truthy (get _ "details")); (split; [done|]); right;
        (split; [done|]); simpl; unfold js_or;
        (destruct (truthy (get _ "error")) eqn:Herror; [done|]);
        by rewrite append_cons.
    + simpl. split; [done|]. right. split; [done|].
      unfold js_or. by case_match.
Qed.

End NewContactProperties.


(** C10 as stated fails on an identifier with a space before it: it has
    not the UUID shape, and the handler goes on to call [ccFetchJson]. *)
Lemma padded_id_is_sent_upstream :
  ~ Route.uuid_shape demo_padded_id
  /\ Route.GET demo_padded_id []
     = Route.Upstream
         {| method := None;
            path := "/contacts/%20123e4567-e89b-12d3-a456-426614174000";
            query := None;
            body := VUndefined |}.
Proof.
  split; [|vm_compute; reflexivity].
  intros (a & b & c & d & e & Heq & [Hlen Hhex] & _).
  destruct a as [|x a]; [done|].
  rewrite append_cons in Heq. injection Heq as <- _. done.
Qed.

(** C10 as amended on an [include] with a value that is not allowed. *)
Lemma contact_detail_validation_witness :
  Route.looksUuid demo_id = true
  /\ Route.parseCsv "notes, foo" = ["notes"; "foo"]
  /\ exists msg,
       Route.GET demo_id [("include", "notes, foo")]
       = Route.Answered
           {| Route.http_status := 400;
              Route.http_body := VObj [("error", VStr msg)] |}.
Proof.
  split; [vm_compute; reflexivity|]. split; [vm_compute; reflexivity|].
  apply (contact_detail_validation demo_id [("include", "notes, foo")]).
  right. exists "notes, foo". split; [reflexivity|]. right.
  exists "foo". split.
  - change (Route.parseCsv "notes, foo") with ["notes"; "foo"].
    apply elem_of_cons. right. apply elem_of_cons. by left.
  - intros Hin. vm_compute in Hin.
    repeat (apply elem_of_cons in Hin as [Hin|Hin]; [discriminate|]).
    by apply elem_of_nil in Hin.
Defined.

(** X14 on a list with a space in it. *)
Lemma parseCsv_values_witness :
  "foo" ∈ Route.parseCsv "notes, foo"
  /\ trim "foo" = "foo" /\ has_char ","%char "foo" = false.
Proof.
  assert (Hin : "foo" ∈ Route.parseCsv "notes, foo").
  { change (Route.parseCsv "notes, foo") with ["notes"; "foo"].
    apply elem_of_cons. right. apply elem_of_cons. by left. }
  split; [exact Hin|].
  exact (proj2 (parseCsv_values "notes, foo" "foo" Hin)).
Defined.

Lemma demo_NextResponse_json_returns body st answer :
  demo_NextResponse_json body st = Return answer ->
  answer = Route.mkHttpResponse st body.
Proof. unfold demo_NextResponse_json. case_match; by intros [= <-]. Qed.

Lemma demo_NextResponse_json_throws body st e :
  demo_NextResponse_json body st = Throw e -> status e = None.
Proof. unfold demo_NextResponse_json. case_match; by intros [= <-]. Qed.

(** X17 at the end of the run: the handler answers 200 with the data. *)
Lemma GET_answer_witness :
  Route.GET_settled demo_NextResponse_json
    (Return {| out_status := 200; out_data := VObj [("contacts", VArr [])] |})
  = Return (Route.mkHttpResponse 200 (VObj [("contacts", VArr [])]))
  /\ ((exists out,
          Return {| out_status := 200; out_data := VObj [("contacts", VArr [])] |}
          = Return out
          /\ Route.mkHttpResponse 200 (VObj [("contacts", VArr [])])
             = Route.mkHttpResponse (out_status out) (out_data out)
          /\ is_success 200 = true)
      \/ is_success 200 = false).
Proof.
  split; [reflexivity|].
  destruct (GET_answer demo_env demo_NextResponse_json
              demo_NextResponse_json_returns demo_NextResponse_json_throws
              demo_done 0 _ _ demo_done_reachable eq_refl eq_refl)
    as [Hpassed|(e & _ & _ & Hfailed)].
  - left. exact Hpassed.
  - right. exact Hfailed.
Defined.

(** X20 on a form with a first name. *)
Lemma submitted_payload_is_checked_witness :
  exists payload,
    NewContact.handleSubmit_check demo_Number_of_string demo_form = inr payload
    /\ get payload "first_name" = VStr "Ada"
    /\ NewContact.payload_checked payload.
Proof.
  eexists. split; [vm_compute; reflexivity|]. split; [reflexivity|].
  apply (submitted_payload_is_checked demo_Number_of_string demo_form).
  vm_compute. reflexivity.
Defined.

